(* ===== verification/_CoqProject ===== *)
-Q . S2P
Prelude.v
Kernel.v
Wire.v
Layout.v
Transport.v
HostFs.v
Handle.v
Directory.v
Lifecycle.v
Frames.v
Threads.v
Linearize.v
Sharing.v
Mount.v
Scenarios.v
Schedules.v
