(* ===== verification/Prelude.v ===== *)
(** * The uhyve filesystem bridge of the hermit kernel, in Rocq

    This development models [src/src/fs/uhyve.rs], the kernel's bridge to
    the files of the host that runs it under the uhyve hypervisor, and
    proves it correct where it is and shows where it is not.

    ** The program
    A file operation of the kernel's virtual file system (VFS) reaches the
    [UhyveDirectory] mounted at [/host] ([init]).  [traverse_open] and
    [traverse_unlink] build an absolute path [String], fill a packed
    request structure ([SysOpen], [SysUnlink], ...) on the kernel stack
    and hand its address to [uhyve_send], which translates it to a
    physical address and writes that to an I/O port ([outl] on x86_64, an
    MMIO store on aarch64, [todo!()] on riscv64).  The host reads the
    structure in guest memory, does the I/O and writes the result field
    back.  A positive descriptor from [open] becomes a [UhyveFileHandle],
    an [Arc<SpinMutex<UhyveFileHandleInner>>] whose last drop sends
    [SysClose]; its [read], [write] and [lseek] go through the same
    transport.

    ** Files, in dependency order
    - [Prelude]: Rust's [Result], panics, a state and panic monad [St]
      with stdpp's [≫=] notation, fixed-width integers as [Z] with their
      wrap-around ([wrap_u], [wrap_s], [try_into_s]) and the scope
      [uhyve_scope] of their notations, the hint databases [uhyve] and
      [uhyve_rw] and the tactics [run] and [inv_bind].
    - [Kernel]: the collaborators of the bridge that live outside this
      file, modelled from their interface: [IoError] with its numbers and
      the derived [FromPrimitive], [SeekWhence], [OpenOption], and the
      class [Platform] (architecture, [virtual_to_physical], [is_uhyve]).
    - [Wire]: [#[repr(C, packed)]] layouts as lists of little-endian
      fields; the class [Wire] and one [Module] per request structure
      (lines 63-154) with its [new]; the codec lemmas between a
      structure and its byte image.
    - [Layout]: the rule of [#[repr(C, packed)]] stated byte by byte
      ([packed_image], [packed_fields]) as a reference for the encoder and
      decoder of [Wire], and the offsets of the result fields.
    - [Transport]: the port numbers (lines 56-61), guest memory as a
      [gmap Z Z], the class [Host] (what the hypervisor does on a port
      write), the [world] (memory, host state, the log of port writes,
      the heap of [Arc] allocations) and [uhyve_send] (lines 18-54) with
      its three architectures.
    - [HostFs]: the uhyve host as an implementation of [Host] over an
      abstract host file system [HostFs] taking typed requests.  The host
      reads every field at the byte offset and width of its own C
      declaration of the structure ([get_field], [put_field]), written
      from the specification's wire format, not from the guest's [Wire]
      layouts; the refinement lemmas [uhyve_sent_*] show that every
      structure the guest encodes reaches the host as the typed request
      it means and comes back with the host's result in its result
      field, so the guest's packed layouts agree with the host's.
    - [Handle]: [UhyveFileHandleInner] (lines 156-199), [UhyveFileHandle]
      and its [Arc] (lines 201-228), and [Object], the [Arc<dyn
      ObjectInterface>] the VFS holds; the behaviour of each operation on
      every branch.
    - [Directory]: the path strings and [UhyveDirectory] (lines 230-305).
    - [Lifecycle]: the VFS's use of the bridge as a step relation over
      the world and the multiset of references the VFS holds; the heap
      invariant, by rule induction, and what follows from it.
    - [Frames]: footprints in guest memory: two memories [agree] on a
      set of addresses, a frame [holds] a request; the uhyve host's
      [read], [write] and [lseek] read only the caller's frame and buffer.
    - [Threads]: threads calling [read], [write] and [lseek] on shared
      handles (lines 210-222): each call as the steps of [self.0.lock()]
      ([cstep]: acquire, build the request in the thread's own frame,
      port write, read back, guard drop; a panic keeps the lock), the
      lock table as state, the ghost order of port writes, and an
      executable scheduler [cnext]/[crun].
    - [Linearize]: the calls run one after the other ([run_calls]), a
      call as the composition of its steps ([op_call_steps]), and the
      simulation between an interleaved run and the sequential one.
    - [Sharing]: threads owning clones of a [UhyveFileHandle] run
      programs of clones, drops and calls: [Arc::clone] and the
      decrement of [Arc::drop] ([arc_release]) as atomic steps, the last
      drop's destructor and deallocation ([arc_free]) as two more, each
      call as one step (as [Linearize] justifies), a kernel panic
      stopping every thread; [snext]/[srun] run it.
    - [Mount]: [init] (lines 307-318) against the contract [Vfs] of the
      mount table, and an instance of that contract on a [gmap].
    - [Scenarios]: runs on an identity-mapped x86_64 with a scripted
      host, and the witnesses of the theorems.
    - [Schedules]: two threads on two files, interleavings replayed by
      the schedulers of [Threads] and [Sharing], and the witnesses of
      the concurrency theorems.

    ** What is proved
    - Transport: [port_value_exact]: x86_64 truncates addresses at
      4 GiB.
    - Refinement ([HostFs]): [uhyve_sent_open] and the other
      [uhyve_sent_*]: each port delivers its typed request, read at the
      host's own offsets.
    - Handles: [read_ok], [read_error_panics], [write_reports_requested_len],
      [lseek_reports_host_offset], and [read_lands_at_virtual_address]:
      [read] passes the buffer's virtual address, so the data lands at
      that address taken as a physical one, whatever the page tables say.
    - Directory: [traverse_open_success], [traverse_open_failure_panics],
      [traverse_unlink_error_panics]; the path round trip
      [split_open_path] and [open_path_host_read]: without a NUL
      terminator the host reads past a non-empty path;
      [unlink_path_host_read]: unlink's path, the root ["/"] included,
      never has one.
    - Lifecycle: [step_inv], [no_dangling_reference], [close_log_exact]
      and the liveness theorem [drop_all_closes_once]: dropping every
      reference from any reachable state closes every descriptor exactly
      once.
    - Mount: [init_mounts], [init_duplicate_panics], [init_twice_panics].
    - Concurrency: [mutual_exclusion]: at most one thread between
      [lock()] and the guard's drop on any handle; [no_deadlock]: an unfinished run
      without a panic can always step; [port_order_follows_lock]: a
      thread holding a handle's lock after its port write made the last
      request on that handle, so the host serves the requests on one
      handle in the order of lock acquisition; [linearizable]: every complete
      interleaving ends in the world, and with the results, of the calls
      run one after the other in the order of their port writes.  Its
      hypotheses are what the code relies on: each thread's frame maps
      to its own physical memory and no buffer overlaps a frame.
    - Sharing: [no_use_after_free]: no interleaving of clones, drops and
      calls reaches a freed allocation; [close_at_most_once]: the
      [Close]s sent are one per allocation freed or being freed, none
      twice; [complete_closes_all]: when every reference is dropped,
      every allocation is closed exactly once with its descriptor.
    - Supporting lemmas, not claims of their own: the codec round trips
      of [Wire] and their agreement with the byte-by-byte layout rule of
      [Layout] ([encode_packed], [decode_packed]); the scheduler's
      agreement with the step relation ([cnext_cstep]) and termination of
      the interleavings ([cstep_terminates], [sstep_terminates]);
      [stuck_is_done] and [drop_decomposes] in [Sharing].

    ** Bounds and fuel
    Integers are [Z] checked against their Rust width ([i32], [isize] and
    [usize] of 64 bits) and wrapped where the code casts.  The host reads
    a path as a C string of at most [PATH_MAX] = 4096 bytes ([load_cstr]
    takes it as fuel), the bound of the host's path buffer; the theorems
    about paths assume the path fits in it.  [drop_all_closes_once] is
    proved by induction on the number of references held, no fuel.
    The threads' interleavings terminate by the measure [measure], the
    sum of the steps each thread has left (at most five per call);
    those of [Sharing] by [smeasure], three per action left plus the
    destructor and deallocation still due ([sstep_terminates]).
    [FRAME_SIZE] = 28 bytes, the size of [SysRead], bounds every request
    a frame holds.

    ** Not modelled
    The VFS dispatch and descriptor tables (only the references they hold
    are modelled), the paging code (an oracle [virtual_to_physical]), the
    hypervisor's own file system (the abstract [HostFs]) and logging
    ([info!] has no effect on the state).  [Lifecycle.step] runs each
    call of a handle as one step; [Threads] and [Linearize] justify this
    for [read], [write] and [lseek]: the spin lock's busy wait is a
    thread that cannot step, and interleaved calls are linearizable.
    [Sharing] runs clones and drops concurrently with the calls; the
    [Arc] count is sequentially consistent there (each atomic operation
    one step), memory orderings weaker than that are not modelled, nor
    is opening a file concurrently with these (it allocates a fresh
    allocation no thread shares yet). *)

From stdpp Require Import base list gmap strings.
From Stdlib Require Import ZArith Lia.

Open Scope Z_scope.

(** ** Rust's [Result] *)

Inductive result (T E : Type) : Type :=
  | Ok (t : T)
  | Err (e : E).
Arguments Ok {T E} t.
Arguments Err {T E} e.

(** ** Panics: [unwrap] on [None], [todo!()], [expect] on an [Err], and
    a reference that is not live (excluded by Rust's type system; the
    handle model proves that it never happens). *)

Inductive panic : Type :=
  | UnwrapNone
  | Todo
  | ExpectFailed (msg : string)
  | InvalidReference.

Inductive outcome (A : Type) : Type :=
  | Done (a : A)
  | Panic (p : panic).
Arguments Done {A} a.
Arguments Panic {A} p.

(** ** A state and panic monad: explicit state passing for the kernel's
    side effects (memory writes, port output, the handle table). *)

Definition St (S A : Type) : Type := S -> outcome (A * S).

#[export] Instance St_ret {S} : MRet (St S) := fun A a s => Done (a, s).
#[export] Instance St_bind {S} : MBind (St S) :=
  fun A B k m s =>
    match m s with
    | Done (a, s') => k a s'
    | Panic p => Panic p
    end.

Definition abort {S A} (p : panic) : St S A := fun _ => Panic p.
Definition get {S} : St S S := fun s => Done (s, s).
Definition modify {S} (f : S -> S) : St S unit := fun s => Done (tt, f s).

(** [Option::unwrap] *)
Definition unwrap {S A} (o : option A) : St S A :=
  match o with
  | Some a => mret a
  | None => abort UnwrapNone
  end.

(** ** Fixed-width integers as [Z] *)

Definition in_uint (bits x : Z) : bool := (0 <=? x) && (x <? 2 ^ bits).
Definition in_sint (bits x : Z) : bool :=
  (- 2 ^ (bits - 1) <=? x) && (x <? 2 ^ (bits - 1)).

(** [x as uN]: keep the low [bits] bits. *)
Definition wrap_u (bits x : Z) : Z := x mod 2 ^ bits.
(** [x as iN]: two's complement reinterpretation of the low [bits] bits. *)
Definition wrap_s (bits x : Z) : Z :=
  let y := x mod 2 ^ bits in
  if y <? 2 ^ (bits - 1) then y else y - 2 ^ bits.

(** [TryInto<iN>] from a wider integer. *)
Definition try_into_s (bits x : Z) : option Z :=
  if in_sint bits x then Some x else None.

Declare Scope uhyve_scope.
Delimit Scope uhyve_scope with uhyve.
Notation "x 'as_u32'" := (wrap_u 32 x) (at level 1) : uhyve_scope.
Notation "x 'as_i32'" := (wrap_s 32 x) (at level 1) : uhyve_scope.
Notation "'u64_ok' x" := (in_uint 64 x) (at level 10) : uhyve_scope.
Notation "'i32_ok' x" := (in_sint 32 x) (at level 10) : uhyve_scope.
Notation "'isize_ok' x" := (in_sint 64 x) (at level 10) : uhyve_scope.
Open Scope uhyve_scope.

Create HintDb uhyve discriminated.
Create Rewrite HintDb uhyve_rw.

(** ** Generic lemmas *)

Lemma in_uint_spec bits x : in_uint bits x = true <-> 0 <= x < 2 ^ bits.
Proof. unfold in_uint. rewrite andb_true_iff, Z.leb_le, Z.ltb_lt. lia. Qed.

Lemma in_sint_spec bits x :
  in_sint bits x = true <-> - 2 ^ (bits - 1) <= x < 2 ^ (bits - 1).
Proof. unfold in_sint. rewrite andb_true_iff, Z.leb_le, Z.ltb_lt. lia. Qed.

Lemma wrap_u_range bits x : 0 <= bits -> 0 <= wrap_u bits x < 2 ^ bits.
Proof. intros. unfold wrap_u. apply Z.mod_pos_bound. apply Z.pow_pos_nonneg; lia. Qed.

Lemma wrap_u_small bits x : 0 <= x < 2 ^ bits -> wrap_u bits x = x.
Proof. intros. unfold wrap_u. apply Z.mod_small. lia. Qed.

Lemma wrap_s_small bits x :
  0 < bits -> - 2 ^ (bits - 1) <= x < 2 ^ (bits - 1) -> wrap_s bits x = x.
Proof.
  intros Hb Hx. unfold wrap_s.
  assert (Hp : 2 ^ bits = 2 * 2 ^ (bits - 1)).
  { rewrite <- Z.pow_succ_r by lia. f_equal. lia. }
  destruct (Z.leb_spec 0 x).
  - rewrite Z.mod_small by lia. destruct (Z.ltb_spec x (2 ^ (bits - 1))); lia.
  - replace (x mod 2 ^ bits) with (x + 2 ^ bits)
      by (apply Z.mod_unique with (-1); lia).
    destruct (Z.ltb_spec (x + 2 ^ bits) (2 ^ (bits - 1))); lia.
Qed.

Lemma try_into_s_Some bits x :
  in_sint bits x = true -> try_into_s bits x = Some x.
Proof. unfold try_into_s. intros ->. reflexivity. Qed.

Lemma try_into_s_None bits x :
  in_sint bits x = false -> try_into_s bits x = None.
Proof. unfold try_into_s. intros ->. reflexivity. Qed.

(** Monad laws used to run the models symbolically. *)
Lemma bind_ret {S A B} (a : A) (k : A -> St S B) : (mret a ≫= k) = k a.
Proof. reflexivity. Qed.

Lemma unwrap_Some {S A} (a : A) : @unwrap S A (Some a) = mret a.
Proof. reflexivity. Qed.

Lemma bind_Done {S A B} (m : St S A) (k : A -> St S B) s a s' :
  m s = Done (a, s') -> (m ≫= k) s = k a s'.
Proof. intros H. unfold mbind, St_bind. rewrite H. reflexivity. Qed.

Lemma bind_Panic {S A B} (m : St S A) (k : A -> St S B) s p :
  m s = Panic p -> (m ≫= k) s = Panic p.
Proof. intros H. unfold mbind, St_bind. rewrite H. reflexivity. Qed.

Lemma bind_Done_inv {S A B} (m : St S A) (k : A -> St S B) s b s'' :
  (m ≫= k) s = Done (b, s'') -> exists a s', m s = Done (a, s') /\ k a s' = Done (b, s'').
Proof. unfold mbind, St_bind. destruct (m s) as [[a s']|p]; [eauto|discriminate]. Qed.

#[export] Hint Resolve try_into_s_Some try_into_s_None wrap_u_small : uhyve.
#[export] Hint Rewrite @bind_ret @unwrap_Some : uhyve_rw.

(** [inv_bind H]: split a completed [m ≫= k] into its two halves. *)
Ltac inv_bind H :=
  let a := fresh "a" in let s := fresh "s" in
  let H1 := fresh H in
  apply bind_Done_inv in H as (a & s & H1 & H).

(** [run]: unfold the monad's plumbing and compute. *)
Ltac run :=
  unfold mbind, mret, St_bind, St_ret, abort, get, modify, unwrap in *; cbn beta iota in *.

(** ** Lists with at most one element of a kind *)

Lemma filter_none {A} (P : A -> Prop) `{!forall x, Decision (P x)} (l : list A) :
  (forall y, y ∈ l -> ~ P y) -> filter P l = [].
Proof.
  induction l as [|y l IH]; intros Hn; [done|].
  rewrite filter_cons_False by (apply Hn; set_solver). apply IH. intros z Hz. apply Hn. set_solver.
Qed.

(** When two elements satisfying [P] are always at the same index, at
    most one element satisfies [P]. *)
Lemma length_filter_unique {A} (P : A -> Prop) `{!forall x, Decision (P x)} (l : list A) :
  (forall i j x y, l !! i = Some x -> l !! j = Some y -> P x -> P y -> i = j) ->
  (length (filter P l) <= 1)%nat.
Proof.
  induction l as [|x l IH]; intros Hu; [simpl; lia|].
  destruct (decide (P x)) as [Hx|Hx].
  - rewrite filter_cons_True by done. rewrite filter_none; [simpl; lia|].
    intros y Hy Py. apply list_elem_of_lookup in Hy as [j Hj].
    by specialize (Hu 0%nat (S j) x y eq_refl Hj Hx Py).
  - rewrite filter_cons_False by done. apply IH. intros i j a b Ha Hb Pa Pb.
    specialize (Hu (S i) (S j) a b Ha Hb Pa Pb). congruence.
Qed.
