(* ===== verification/Kernel.v ===== *)
(** * Kernel interfaces the bridge consumes

    The types and collaborators of the surrounding kernel that
    [src/src/fs/uhyve.rs] imports but does not define: the error kinds
    [crate::fd::IoError] with their [FromPrimitive] conversion, the seek
    origins [crate::fs::SeekWhence] with [ToPrimitive], the open flags
    [crate::fs::OpenOption], the target architecture, the address
    translator [crate::arch::mm::paging::virtual_to_physical] and the
    hypervisor oracle [crate::env::is_uhyve].  None of them is under
    [src/]; they are modelled from the specification. *)

From stdpp Require Import base list strings.
From Stdlib Require Import ZArith Lia.
From S2P Require Import Prelude.

Open Scope Z_scope.

(** ** [IoError]: negative-free error numbers, [#[derive(FromPrimitive)]] *)

Inductive IoError : Type :=
  | ENOENT | EIO | EBADF | EAGAIN | EACCES | EFAULT | EEXIST | ENOTDIR
  | EISDIR | EINVAL | EMFILE | ENOSYS | ETIME | EOVERFLOW | ENOTSOCK
  | EADDRINUSE | ENOBUFS | ENOTCONN.

#[export] Instance IoError_eq_dec : EqDecision IoError.
Proof. solve_decision. Defined.

(** The discriminant of each variant: the POSIX error number. *)
Definition errno (e : IoError) : Z :=
  match e with
  | ENOENT => 2 | EIO => 5 | EBADF => 9 | EAGAIN => 11 | EACCES => 13
  | EFAULT => 14 | EEXIST => 17 | ENOTDIR => 20 | EISDIR => 21
  | EINVAL => 22 | EMFILE => 24 | ENOSYS => 38 | ETIME => 62
  | EOVERFLOW => 75 | ENOTSOCK => 88 | EADDRINUSE => 98 | ENOBUFS => 105
  | ENOTCONN => 107
  end.

Definition all_io_errors : list IoError :=
  [ENOENT; EIO; EBADF; EAGAIN; EACCES; EFAULT; EEXIST; ENOTDIR; EISDIR;
   EINVAL; EMFILE; ENOSYS; ETIME; EOVERFLOW; ENOTSOCK; EADDRINUSE; ENOBUFS;
   ENOTCONN].

(** [FromPrimitive::from_i64] as derived: the variant whose discriminant
    is [n], [None] when there is none.  The derived [from_i32] and
    [from_isize] widen their argument and call [from_i64]. *)
Fixpoint find_errno (n : Z) (es : list IoError) : option IoError :=
  match es with
  | [] => None
  | e :: es' => if errno e =? n then Some e else find_errno n es'
  end.

Definition from_i64 (n : Z) : option IoError := find_errno n all_io_errors.
Definition from_i32 (n : Z) : option IoError := from_i64 n.
Definition from_isize (n : Z) : option IoError := from_i64 n.

(** ** [SeekWhence], [#[derive(ToPrimitive)]] *)

Inductive SeekWhence : Type := Set_ | Cur | End_.

#[export] Instance SeekWhence_eq_dec : EqDecision SeekWhence.
Proof. solve_decision. Defined.

(** [ToPrimitive::to_i64]: the discriminant, always representable. *)
Definition to_i64 (w : SeekWhence) : option Z :=
  Some (match w with Set_ => 0 | Cur => 1 | End_ => 2 end).
Definition to_i32 (w : SeekWhence) : option Z :=
  match to_i64 w with
  | Some n => if i32_ok n then Some n else None
  | None => None
  end.

(** ** [OpenOption]: a bitflags set over [i32] *)

Record OpenOption : Type := mkOpenOption { bits : Z }.

Definition O_RDONLY : Z := 0.
Definition O_WRONLY : Z := 1.
Definition O_RDWR : Z := 2.
Definition O_CREAT : Z := 64.
Definition O_EXCL : Z := 128.
Definition O_TRUNC : Z := 512.
Definition O_APPEND : Z := 1024.

(** ** The platform: architecture and the address translator *)

Inductive Arch : Type := X86_64 | AArch64 | RiscV64.

#[export] Instance Arch_eq_dec : EqDecision Arch.
Proof. solve_decision. Defined.

(** [crate::arch::mm::paging::virtual_to_physical]: [None] for an
    unmapped address.  [is_uhyve] is [crate::env::is_uhyve]. *)
Class Platform : Type := {
  arch : Arch;
  virtual_to_physical : Z -> option Z;
  is_uhyve : bool
}.

(** ** Facts about the conversions *)

Lemma find_errno_Some n es e :
  find_errno n es = Some e -> errno e = n /\ e ∈ es.
Proof.
  induction es as [|e' es IH]; simpl; [discriminate|].
  destruct (Z.eqb_spec (errno e') n) as [Heq|Hne].
  - intros [= <-]. split; [done|]. by left.
  - intros H. destruct (IH H) as [? ?]. split; [done|]. by right.
Qed.

Lemma errno_pos e : 0 < errno e.
Proof. destruct e; simpl; lia. Qed.

Lemma from_i64_Some n e : from_i64 n = Some e -> errno e = n.
Proof. unfold from_i64. intros H. by apply find_errno_Some in H as [? _]. Qed.

(** Every discriminant is positive, so a non-positive number has no variant. *)
Lemma from_i64_nonpos n : n <= 0 -> from_i64 n = None.
Proof.
  intros Hn. destruct (from_i64 n) as [e|] eqn:E; [|done].
  apply from_i64_Some in E. pose proof (errno_pos e). lia.
Qed.

Lemma from_i64_errno e : from_i64 (errno e) = Some e.
Proof. destruct e; reflexivity. Qed.

Lemma to_i32_total w : to_i32 w = Some (match w with Set_ => 0 | Cur => 1 | End_ => 2 end).
Proof. destruct w; reflexivity. Qed.

#[export] Hint Resolve from_i64_nonpos from_i64_errno errno_pos : uhyve.
