(* ===== verification/Wire.v ===== *)
(** * Wire structures: packed little-endian layouts

    The six [#[repr(C, packed)]] request structures of
    [src/src/fs/uhyve.rs] (lines 63-154) and the byte image the host
    reads from guest memory.  A layout is a list of field kinds (width in
    bytes, signedness); a structure is a record with the source's field
    names and a [Wire] instance that lists its fields in declaration
    order.  Encoding writes each field little-endian with no padding;
    decoding reads them back.  The layout lemmas show that the two are
    inverse bijections between well-formed structures and byte strings of
    the layout's size, where each field sits, and what replacing one
    field does to the image; [HostFs] uses them to compare the guest's
    layouts with the host's declarations. *)

From stdpp Require Import base list.
From Stdlib Require Import ZArith Lia.
From S2P Require Import Prelude Kernel.

Open Scope Z_scope.

(** ** Little-endian integers *)

(** The [n] low bytes of [x], least significant first. *)
Fixpoint le_bytes (n : nat) (x : Z) : list Z :=
  match n with
  | O => []
  | S n' => Z.land x 255 :: le_bytes n' (Z.shiftr x 8)
  end.

(** The unsigned value of a byte string, least significant first. *)
Fixpoint le_value (bs : list Z) : Z :=
  match bs with
  | [] => 0
  | b :: bs' => Z.lor (Z.land b 255) (Z.shiftl (le_value bs') 8)
  end.

Definition is_byte (b : Z) : bool := (0 <=? b) && (b <? 256).

(** ** Codec lemmas *)

Lemma lor_byte_shiftl b v :
  Z.lor (Z.land b 255) (Z.shiftl v 8) = Z.land b 255 + v * 256.
Proof.
  rewrite <- Z.add_nocarry_lor.
  - rewrite Z.shiftl_mul_pow2 by lia. reflexivity.
  - apply Z.bits_inj'. intros i Hi.
    rewrite Z.land_spec, Z.bits_0, Z.land_spec, Z.shiftl_spec by lia.
    destruct (Z.ltb_spec i 8).
    + rewrite (Z.testbit_neg_r v (i - 8)) by lia. apply andb_false_r.
    + change 255 with (Z.ones 8). rewrite Z.ones_spec_high by lia.
      rewrite andb_false_r. reflexivity.
Qed.

Lemma land_255 x : Z.land x 255 = x mod 256.
Proof. change 255 with (Z.ones 8). rewrite Z.land_ones by lia. reflexivity. Qed.

Lemma pow_8S n : 2 ^ (8 * Z.of_nat (S n)) = 256 * 2 ^ (8 * Z.of_nat n).
Proof.
  rewrite Nat2Z.inj_succ, Z.mul_succ_r, Z.pow_add_r by lia. lia.
Qed.

Lemma length_le_bytes n x : length (le_bytes n x) = n.
Proof. revert x. induction n; intros; simpl; auto. Qed.

Lemma le_bytes_bytes n x : Forall (fun b => is_byte b = true) (le_bytes n x).
Proof.
  revert x. induction n as [|n IH]; intros x; simpl; constructor; auto.
  rewrite land_255. unfold is_byte.
  pose proof (Z.mod_pos_bound x 256). apply andb_true_iff; lia.
Qed.

(** Decoding the encoding of [x] gives [x] modulo [2^(8n)]. *)
Lemma le_value_le_bytes n x :
  le_value (le_bytes n x) = x mod 2 ^ (8 * Z.of_nat n).
Proof.
  revert x. induction n as [|n IH]; intros x; simpl le_bytes; simpl le_value.
  - rewrite Z.mod_1_r. reflexivity.
  - rewrite IH, lor_byte_shiftl, land_255, Z.shiftr_div_pow2 by lia.
    rewrite pow_8S, Z.rem_mul_r; [|lia|apply Z.pow_pos_nonneg; lia].
    change (2 ^ 8) with 256. rewrite !land_255, Zmod_mod. lia.
Qed.

Lemma le_value_range bs : 0 <= le_value bs < 2 ^ (8 * Z.of_nat (length bs)).
Proof.
  induction bs as [|b bs IH]; simpl length; simpl le_value.
  - simpl. lia.
  - rewrite lor_byte_shiftl, land_255, pow_8S.
    pose proof (Z.mod_pos_bound b 256). lia.
Qed.

(** Encoding the value of a byte string gives the string back. *)
Lemma le_bytes_le_value bs :
  Forall (fun b => is_byte b = true) bs -> le_bytes (length bs) (le_value bs) = bs.
Proof.
  induction 1 as [|b bs Hb _ IH]; simpl; [done|].
  unfold is_byte in Hb. apply andb_true_iff in Hb as [Hb1 Hb2].
  apply Z.leb_le in Hb1. apply Z.ltb_lt in Hb2.
  pose proof (le_value_range bs).
  rewrite lor_byte_shiftl, !land_255, (Z.mod_small b) by lia.
  rewrite Z.shiftr_div_pow2 by lia. change (2 ^ 8) with 256.
  rewrite Z.mod_add, Z.mod_small, Z.div_add, Z.div_small by lia.
  rewrite Z.add_0_l, IH. reflexivity.
Qed.

(** [le_bytes n] only sees its argument modulo [2^(8n)]. *)
Lemma le_bytes_mod n x : le_bytes n (x mod 2 ^ (8 * Z.of_nat n)) = le_bytes n x.
Proof.
  rewrite <- le_value_le_bytes.
  rewrite <- (length_le_bytes n x) at 1.
  apply le_bytes_le_value, le_bytes_bytes.
Qed.

(** ** Field kinds and layouts *)

(** An unsigned ([KU]) or signed ([KI]) integer field of [n] bytes. *)
Inductive kind : Type := KU (n : nat) | KI (n : nat).

Definition kind_size (k : kind) : nat := match k with KU n | KI n => n end.

Definition kind_ok (k : kind) (x : Z) : bool :=
  match k with
  | KU n => in_uint (8 * Z.of_nat n) x
  | KI n => in_sint (8 * Z.of_nat n) x
  end.

Definition encode_field (k : kind) (x : Z) : list Z := le_bytes (kind_size k) x.

Definition decode_field (k : kind) (bs : list Z) : Z :=
  match k with
  | KU _ => le_value bs
  | KI n => wrap_s (8 * Z.of_nat n) (le_value bs)
  end.

(** Fields one after the other, no padding ([repr(packed)]). *)
Fixpoint encode_fields (ly : list kind) (vs : list Z) : list Z :=
  match ly, vs with
  | k :: ly', v :: vs' => encode_field k v ++ encode_fields ly' vs'
  | _, _ => []
  end.

Fixpoint decode_fields (ly : list kind) (bs : list Z) : list Z :=
  match ly with
  | [] => []
  | k :: ly' =>
      decode_field k (take (kind_size k) bs) :: decode_fields ly' (drop (kind_size k) bs)
  end.

Fixpoint layout_size (ly : list kind) : nat :=
  match ly with
  | [] => O
  | k :: ly' => (kind_size k + layout_size ly')%nat
  end.

(** Byte offset of field [i]: the sizes of the fields before it. *)
Definition field_offset (ly : list kind) (i : nat) : nat := layout_size (take i ly).

Fixpoint fields_ok (ly : list kind) (vs : list Z) : bool :=
  match ly, vs with
  | [], [] => true
  | k :: ly', v :: vs' => kind_ok k v && fields_ok ly' vs'
  | _, _ => false
  end.

Definition all_bytes (bs : list Z) : Prop := Forall (fun b => is_byte b = true) bs.

(** ** Field lemmas *)

Lemma wrap_s_mod bits x : 0 < bits -> wrap_s bits x mod 2 ^ bits = x mod 2 ^ bits.
Proof.
  intros Hb. unfold wrap_s.
  assert (0 < 2 ^ bits) by (apply Z.pow_pos_nonneg; lia).
  destruct (Z.ltb _ _).
  - apply Zmod_mod.
  - rewrite Zminus_mod, Z_mod_same_full, Z.sub_0_r, !Zmod_mod. reflexivity.
Qed.

Lemma wrap_s_range bits x :
  0 < bits -> - 2 ^ (bits - 1) <= wrap_s bits x < 2 ^ (bits - 1).
Proof.
  intros Hb. unfold wrap_s.
  assert (Hp : 2 ^ bits = 2 * 2 ^ (bits - 1)).
  { rewrite <- Z.pow_succ_r by lia. f_equal. lia. }
  pose proof (Z.mod_pos_bound x (2 ^ bits) ltac:(lia)).
  destruct (Z.ltb_spec (x mod 2 ^ bits) (2 ^ (bits - 1))); lia.
Qed.

Lemma decode_encode_field k v :
  kind_ok k v = true -> decode_field k (encode_field k v) = v.
Proof.
  unfold encode_field, decode_field. destruct k as [n|n]; simpl kind_size;
    rewrite le_value_le_bytes; intros Hok.
  - apply in_uint_spec in Hok. apply Z.mod_small. lia.
  - apply in_sint_spec in Hok.
    assert (0 < 8 * Z.of_nat n).
    { destruct (decide (n = 0%nat)) as [->|]; [|lia].
      simpl in Hok. lia. }
    unfold wrap_s. rewrite Zmod_mod. fold (wrap_s (8 * Z.of_nat n) v).
    apply wrap_s_small; lia.
Qed.

Lemma encode_decode_field k bs :
  length bs = kind_size k -> all_bytes bs ->
  encode_field k (decode_field k bs) = bs.
Proof.
  intros Hlen Hb. unfold encode_field, decode_field.
  destruct k as [n|n]; simpl in Hlen |- *; subst n.
  - by apply le_bytes_le_value.
  - destruct (decide (length bs = 0%nat)) as [E|].
    + destruct bs; [done|discriminate].
    + rewrite <- le_bytes_mod, wrap_s_mod, le_bytes_mod by lia.
      by apply le_bytes_le_value.
Qed.

Lemma decode_field_ok k bs :
  (0 < kind_size k)%nat -> length bs = kind_size k ->
  kind_ok k (decode_field k bs) = true.
Proof.
  intros Hpos Hlen. destruct k as [n|n]; simpl in *.
  - apply in_uint_spec. rewrite <- Hlen. apply le_value_range.
  - apply in_sint_spec. apply wrap_s_range. lia.
Qed.

Lemma length_encode_field k v : length (encode_field k v) = kind_size k.
Proof. apply length_le_bytes. Qed.

Lemma encode_field_bytes k v : all_bytes (encode_field k v).
Proof. apply le_bytes_bytes. Qed.

#[export] Hint Resolve decode_encode_field encode_decode_field decode_field_ok
  length_encode_field encode_field_bytes : uhyve.

(** ** Layout lemmas *)

Lemma fields_ok_length ly vs : fields_ok ly vs = true -> length vs = length ly.
Proof.
  revert vs. induction ly as [|k ly IH]; intros [|v vs]; simpl; try done.
  rewrite andb_true_iff. intros [_ H]. f_equal. auto.
Qed.

Lemma length_encode_fields ly vs :
  length vs = length ly -> length (encode_fields ly vs) = layout_size ly.
Proof.
  revert vs. induction ly as [|k ly IH]; intros [|v vs]; simpl; try done.
  intros [= H]. rewrite length_app, length_encode_field, IH by done. reflexivity.
Qed.

Lemma encode_fields_bytes ly vs : all_bytes (encode_fields ly vs).
Proof.
  revert vs. induction ly as [|k ly IH]; intros [|v vs]; simpl; try constructor.
  apply Forall_app. split; [apply encode_field_bytes | apply IH].
Qed.

(** Decoding an encoding gives the fields back. *)
Lemma decode_encode_fields ly vs :
  fields_ok ly vs = true -> decode_fields ly (encode_fields ly vs) = vs.
Proof.
  revert vs. induction ly as [|k ly IH]; intros [|v vs]; simpl; try done.
  rewrite andb_true_iff. intros [Hk Hvs].
  rewrite <- (length_encode_field k v), take_app_length, drop_app_length.
  rewrite decode_encode_field, IH by done. reflexivity.
Qed.

Lemma length_decode_fields ly bs : length (decode_fields ly bs) = length ly.
Proof. revert bs. induction ly; intros; simpl; auto. Qed.

(** Encoding a decoding gives the bytes back: no byte is padding. *)
Lemma encode_decode_fields ly bs :
  length bs = layout_size ly -> all_bytes bs ->
  encode_fields ly (decode_fields ly bs) = bs.
Proof.
  revert bs. induction ly as [|k ly IH]; intros bs Hlen Hb; simpl in *.
  - by destruct bs.
  - 
    rewrite encode_decode_field, IH.
    + apply take_drop.
    + rewrite length_drop. lia.
    + by apply Forall_drop.
    + rewrite length_take. lia.
    + by apply Forall_take.
Qed.

Lemma decode_fields_ok ly bs :
  Forall (fun k => (0 < kind_size k)%nat) ly -> length bs = layout_size ly ->
  fields_ok ly (decode_fields ly bs) = true.
Proof.
  revert bs. induction ly as [|k ly IH]; intros bs Hpos Hlen; simpl in *; [done|].
  apply Forall_cons in Hpos as [Hk Hpos].
  
  rewrite decode_field_ok, IH; try done.
  - rewrite length_drop. lia.
  - rewrite length_take. lia.
Qed.

(** Field [i] occupies [kind_size k] bytes at [field_offset ly i]. *)
Lemma field_at_offset ly vs i k v :
  length vs = length ly -> ly !! i = Some k -> vs !! i = Some v ->
  take (kind_size k) (drop (field_offset ly i) (encode_fields ly vs)) = encode_field k v.
Proof.
  unfold field_offset. revert vs i. induction ly as [|k' ly IH];
    intros [|v' vs] [|i] Hlen Hk Hv; simpl in *; try done.
  - injection Hk as ->. injection Hv as ->.
    rewrite drop_0, <- (length_encode_field k v), take_app_length. reflexivity.
  - rewrite <- drop_drop.
    rewrite <- (length_encode_field k' v') at 1. rewrite drop_app_length.
    apply IH; auto.
Qed.

(** Field [i] ends within the image. *)
Lemma field_end_le ly i k :
  ly !! i = Some k -> (field_offset ly i + kind_size k <= layout_size ly)%nat.
Proof.
  unfold field_offset. revert i. induction ly as [|k' ly IH]; intros [|i] Hk; simpl in *; try done.
  - injection Hk as ->. lia.
  - specialize (IH i Hk). lia.
Qed.

Lemma fields_ok_lookup ly vs i k v :
  fields_ok ly vs = true -> ly !! i = Some k -> vs !! i = Some v -> kind_ok k v = true.
Proof.
  revert vs i. induction ly as [|k' ly IH]; intros [|v' vs] [|i] Hok Hk Hv; simpl in *;
    try done; apply andb_true_iff in Hok as [Hv' Hvs].
  - by injection Hk as ->; injection Hv as ->.
  - eauto.
Qed.

(** Replacing field [i] replaces its bytes and no others. *)
Lemma encode_fields_insert ly vs i k x :
  length vs = length ly -> ly !! i = Some k ->
  encode_fields ly (<[i := x]> vs) =
    take (field_offset ly i) (encode_fields ly vs) ++ encode_field k x ++
    drop (field_offset ly i + kind_size k) (encode_fields ly vs).
Proof.
  unfold field_offset. revert vs i. induction ly as [|k' ly IH];
    intros [|v vs] [|i] Hlen Hk; simpl in *; try done.
  - injection Hk as ->. rewrite <- (length_encode_field k v), drop_app_length. reflexivity.
  - injection Hlen as Hlen.
    rewrite <- (length_encode_field k' v), take_app_add, <- Nat.add_assoc, drop_app_add.
    rewrite IH, app_assoc by done. reflexivity.
Qed.

Lemma decode_encode_field_KI n x :
  decode_field (KI n) (encode_field (KI n) x) = wrap_s (8 * Z.of_nat n) x.
Proof.
  unfold decode_field, encode_field. cbn [kind_size]. rewrite le_value_le_bytes.
  unfold wrap_s. rewrite Zmod_mod. reflexivity.
Qed.

(** ** The [Wire] interface: a structure with a packed layout *)

Class Wire (T : Type) : Type := {
  wire_layout : list kind;
  to_fields : T -> list Z;
  of_fields : list Z -> T;
  of_to_fields : forall t, of_fields (to_fields t) = t;
  to_of_fields : forall vs, length vs = length wire_layout -> to_fields (of_fields vs) = vs;
  length_to_fields : forall t, length (to_fields t) = length wire_layout;
  wire_layout_pos : Forall (fun k => (0 < kind_size k)%nat) wire_layout
}.
Arguments wire_layout T {_}.

Definition wire_size (T : Type) `{Wire T} : nat := layout_size (wire_layout T).
Definition wire_ok {T} `{Wire T} (t : T) : bool := fields_ok (wire_layout T) (to_fields t).
Definition encode {T} `{Wire T} (t : T) : list Z := encode_fields (wire_layout T) (to_fields t).
Definition decode (T : Type) `{Wire T} (bs : list Z) : T :=
  of_fields (decode_fields (wire_layout T) bs).

(** The laws of a four-field, three-field or two-field record instance. *)
Ltac wire_laws :=
  [> intros []; reflexivity
  | let vs := fresh "vs" in
    intros vs Hl; repeat (destruct vs as [|? vs]; simpl in Hl; try discriminate);
    reflexivity
  | intros []; reflexivity
  | repeat constructor; simpl; lia ].

(** ** [SysOpen] (lines 63-80) *)
Module SysOpen.
Record t : Type := mk { name : Z; flags : Z; mode : Z; ret : Z }.
Definition layout : list kind := [KU 8; KI 4; KI 4; KI 4].
#[global] Instance wire : Wire t.
Proof.
  refine {| wire_layout := layout;
            to_fields s := [name s; flags s; mode s; ret s];
            of_fields vs := mk (nth 0 vs 0) (nth 1 vs 0) (nth 2 vs 0) (nth 3 vs 0) |};
  wire_laws.
Defined.
(** [SysOpen::new]: the path's address is translated, [ret] starts at -1. *)
Definition new `{Platform} {S} (name_va flags mode : Z) : St S t :=
    pa ← unwrap (virtual_to_physical name_va);
    mret (mk pa flags mode (-1)).
End SysOpen.

(** ** [SysClose] (lines 82-92) *)
Module SysClose.
Record t : Type := mk { fd : Z; ret : Z }.
Definition layout : list kind := [KI 4; KI 4].
#[global] Instance wire : Wire t.
Proof.
  refine {| wire_layout := layout;
            to_fields s := [fd s; ret s];
            of_fields vs := mk (nth 0 vs 0) (nth 1 vs 0) |};
  wire_laws.
Defined.
Definition new (fd : Z) : t := mk fd (-1).
End SysClose.

(** ** [SysRead] (lines 94-111): [buf] is a raw pointer, [len] a [usize]. *)
Module SysRead.
Record t : Type := mk { fd : Z; buf : Z; len : Z; ret : Z }.
Definition layout : list kind := [KI 4; KU 8; KU 8; KI 8].
#[global] Instance wire : Wire t.
Proof.
  refine {| wire_layout := layout;
            to_fields s := [fd s; buf s; len s; ret s];
            of_fields vs := mk (nth 0 vs 0) (nth 1 vs 0) (nth 2 vs 0) (nth 3 vs 0) |};
  wire_laws.
Defined.
Definition new (fd buf len : Z) : t := mk fd buf len (-1).
End SysRead.

(** ** [SysWrite] (lines 113-124): no result field. *)
Module SysWrite.
Record t : Type := mk { fd : Z; buf : Z; len : Z }.
Definition layout : list kind := [KI 4; KU 8; KU 8].
#[global] Instance wire : Wire t.
Proof.
  refine {| wire_layout := layout;
            to_fields s := [fd s; buf s; len s];
            of_fields vs := mk (nth 0 vs 0) (nth 1 vs 0) (nth 2 vs 0) |};
  wire_laws.
Defined.
Definition new (fd buf len : Z) : t := mk fd buf len.
End SysWrite.

(** ** [SysLseek] (lines 126-139): the host overwrites [offset]. *)
Module SysLseek.
Record t : Type := mk { fd : Z; offset : Z; whence : Z }.
Definition layout : list kind := [KI 4; KI 8; KI 4].
#[global] Instance wire : Wire t.
Proof.
  refine {| wire_layout := layout;
            to_fields s := [fd s; offset s; whence s];
            of_fields vs := mk (nth 0 vs 0) (nth 1 vs 0) (nth 2 vs 0) |};
  wire_laws.
Defined.
(** [SysLseek::new]: [to_i32(&whence).unwrap()]. *)
Definition new {S} (fd offset : Z) (w : SeekWhence) : St S t :=
    wh ← unwrap (to_i32 w);
    mret (mk fd offset wh).
End SysLseek.

(** ** [SysUnlink] (lines 141-154) *)
Module SysUnlink.
Record t : Type := mk { name : Z; ret : Z }.
Definition layout : list kind := [KU 8; KI 4].
#[global] Instance wire : Wire t.
Proof.
  refine {| wire_layout := layout;
            to_fields s := [name s; ret s];
            of_fields vs := mk (nth 0 vs 0) (nth 1 vs 0) |};
  wire_laws.
Defined.
Definition new `{Platform} {S} (name_va : Z) : St S t :=
    pa ← unwrap (virtual_to_physical name_va);
    mret (mk pa (-1)).
End SysUnlink.

(** ** Theorems of the [Wire] interface *)

(** Overwriting the bytes of field [i] in an image changes field [i] to
    the decoded bytes and no other field: this is how the host's write of
    a result field is seen by the guest. *)
Lemma decode_overwrite_field ly vs i k bs :
  fields_ok ly vs = true -> ly !! i = Some k -> length bs = kind_size k ->
  decode_fields ly
    (take (field_offset ly i) (encode_fields ly vs) ++ bs ++
     drop (field_offset ly i + kind_size k) (encode_fields ly vs))
  = <[i := decode_field k bs]> vs.
Proof.
  unfold field_offset. revert vs i. induction ly as [|k' ly IH];
    intros [|v vs] [|i] Hok Hk Hlen; simpl in *; try done;
    apply andb_true_iff in Hok as [Hv Hvs].
  - injection Hk as ->. rewrite <- (length_encode_field k v), drop_app_length.
    rewrite length_encode_field, <- Hlen, take_app_length, drop_app_length.
    rewrite decode_encode_fields by done. reflexivity.
  - rewrite <- (length_encode_field k' v), take_app_add, <- Nat.add_assoc, drop_app_add.
    rewrite <- app_assoc, take_app_length, drop_app_length.
    rewrite decode_encode_field, IH by done. reflexivity.
Qed.

Section WireLaws.
Context {T : Type} `{Wire T}.

Lemma length_encode (t : T) : length (encode t) = wire_size T.
  Proof. apply length_encode_fields, length_to_fields. Qed.

Lemma encode_bytes (t : T) : all_bytes (encode t).
  Proof. apply encode_fields_bytes. Qed.

Lemma decode_encode_wire (t : T) : wire_ok t = true -> decode T (encode t) = t.
Proof.
  intros Hok. unfold decode, encode.
  rewrite decode_encode_fields by done. apply of_to_fields.
Qed.


(** Round trip the other way: every byte string of the layout's size is
    the image of the structure it decodes to (no padding, no slack). *)
Theorem encode_decode (bs : list Z) :
    length bs = wire_size T -> all_bytes bs -> encode (decode T bs) = bs.
Proof.
  intros Hlen Hb. unfold decode, encode.
  rewrite to_of_fields by apply length_decode_fields.
  by apply encode_decode_fields.
Qed.

(** Whatever bytes the host leaves, the guest reads fields in range. *)
Lemma decode_wire_ok (bs : list Z) :
    length bs = wire_size T -> wire_ok (decode T bs) = true.
Proof.
  intros Hlen. unfold wire_ok, decode.
  rewrite to_of_fields by apply length_decode_fields.
  apply decode_fields_ok; [apply wire_layout_pos | done].
Qed.

End WireLaws.

#[export] Hint Resolve length_encode encode_bytes decode_wire_ok : uhyve.

Lemma wrap_s_ok bits x : 0 < bits -> in_sint bits (wrap_s bits x) = true.
Proof. intros. apply in_sint_spec, wrap_s_range. lia. Qed.

#[export] Hint Resolve wrap_s_ok : uhyve.
