(* ===== verification/Layout.v ===== *)
(** * The layout rule of [#[repr(C, packed)]] as a reference

    Rust lays out a packed structure by placing its fields in declaration
    order, each at the sum of the sizes of the fields before it, with no
    padding, and stores an integer field little-endian in two's
    complement.  This file states that rule directly, byte by byte: the
    byte at offset [o] of the image is byte [o - offset] of the field
    whose bytes cover [o] ([packed_image]); and the field [i] is read
    from the bytes [offset_i .. offset_i + size_i).  The theorems show
    that [Wire.encode_fields] and [Wire.decode_fields], which build and
    read the image field by field, are equal to that rule, and give the
    offsets of the fields the host writes back. *)

From stdpp Require Import base list.
From Stdlib Require Import ZArith Lia.
From S2P Require Import Prelude Kernel Wire.

Open Scope Z_scope.

(** ** The reference *)

(** The field whose bytes cover offset [o]. *)
Fixpoint field_index (ly : list kind) (o : nat) : nat :=
  match ly with
  | [] => O
  | k :: ly' => if (o <? kind_size k)%nat then O else S (field_index ly' (o - kind_size k))
  end.

(** Byte [j] of the two's-complement, little-endian image of [v]. *)
Definition byte_of (v : Z) (j : nat) : Z := Z.land (Z.shiftr v (8 * Z.of_nat j)) 255.

(** The image of a packed structure, byte by byte. *)
Definition packed_image (ly : list kind) (vs : list Z) : list Z :=
  (fun o => let i := field_index ly o in byte_of (nth i vs 0) (o - field_offset ly i))
    <$> seq 0 (layout_size ly).

(** ** Lemmas on offsets *)

Lemma field_offset_0 ly : field_offset ly 0 = O.
Proof. reflexivity. Qed.

Lemma field_offset_S k ly i :
  field_offset (k :: ly) (S i) = (kind_size k + field_offset ly i)%nat.
Proof. reflexivity. Qed.

Lemma field_offset_le ly i : (field_offset ly i <= layout_size ly)%nat.
Proof.
  revert i. induction ly as [|k ly IH]; intros [|i].
  - reflexivity.
  - unfold field_offset. rewrite take_nil. reflexivity.
  - rewrite field_offset_0. lia.
  - rewrite field_offset_S. cbn [layout_size]. specialize (IH i). lia.
Qed.

Lemma le_bytes_lookup n x j :
  (j < n)%nat -> le_bytes n x !! j = Some (byte_of x j).
Proof.
  unfold byte_of. revert x j. induction n as [|n IH]; intros x [|j] Hj; simpl; try lia.
  - rewrite Z.shiftr_0_r. reflexivity.
  - rewrite IH by lia. rewrite Z.shiftr_shiftr by lia. do 3 f_equal. lia.
Qed.

(** ** The reference locates the right field *)

(** [field_index] picks the field whose byte range contains [o]. *)
Lemma field_index_spec ly o :
  (o < layout_size ly)%nat ->
  exists k, ly !! field_index ly o = Some k /\
    (field_offset ly (field_index ly o) <= o < field_offset ly (field_index ly o) + kind_size k)%nat.
Proof.
  revert o. induction ly as [|k ly IH]; intros o Ho; cbn [layout_size field_index] in *; [lia|].
  destruct (Nat.ltb_spec o (kind_size k)).
  - exists k. rewrite field_offset_0. split; [done|lia].
  - destruct (IH (o - kind_size k)%nat) as (k' & Hk' & Hr); [lia|].
    exists k'. rewrite field_offset_S. split; [done|lia].
Qed.

(** The byte at offset [o] of the field-by-field encoding. *)
Lemma encode_fields_lookup ly vs o :
  length vs = length ly -> (o < layout_size ly)%nat ->
  encode_fields ly vs !! o =
    Some (byte_of (nth (field_index ly o) vs 0) (o - field_offset ly (field_index ly o))).
Proof.
  revert vs o. induction ly as [|k ly IH]; intros [|v vs] o Hl Ho;
    cbn [layout_size field_index encode_fields length nth] in *; try lia.
  unfold encode_field. destruct (Nat.ltb_spec o (kind_size k)).
  - rewrite lookup_app_l by (rewrite length_le_bytes; lia).
    rewrite le_bytes_lookup by lia. rewrite field_offset_0, Nat.sub_0_r. reflexivity.
  - rewrite lookup_app_r by (rewrite length_le_bytes; lia).
    rewrite length_le_bytes, IH by lia. rewrite field_offset_S.
    rewrite Nat.sub_add_distr. reflexivity.
Qed.

Lemma length_packed_image ly vs : length (packed_image ly vs) = layout_size ly.
Proof. unfold packed_image. rewrite length_fmap, length_seq. reflexivity. Qed.

(** The reference reading of field [i]: its bytes, from its offset. *)
Definition packed_fields (ly : list kind) (bs : list Z) : list Z :=
  imap (fun i k => decode_field k (take (kind_size k) (drop (field_offset ly i) bs))) ly.

Lemma decode_fields_lookup ly bs i k :
  ly !! i = Some k ->
  decode_fields ly bs !! i = Some (decode_field k (take (kind_size k) (drop (field_offset ly i) bs))).
Proof.
  revert bs i. induction ly as [|k' ly IH]; intros bs [|i] Hk; cbn [decode_fields] in *; try done.
  - injection Hk as ->. rewrite field_offset_0, drop_0. reflexivity.
  - cbn [lookup list_lookup]. rewrite IH by done. rewrite field_offset_S, drop_drop. reflexivity.
Qed.

(** ** Equivalence with the reference *)

(** The field-by-field encoding is the packed image of the layout rule. *)
Theorem encode_packed ly vs :
  length vs = length ly -> encode_fields ly vs = packed_image ly vs.
Proof.
  intros Hl. apply list_eq. intros o.
  destruct (decide (o < layout_size ly)%nat) as [Ho|Ho].
  - rewrite encode_fields_lookup by done. unfold packed_image.
    rewrite list_lookup_fmap, lookup_seq_lt by done. reflexivity.
  - rewrite !lookup_ge_None_2; [done| |].
    + rewrite length_packed_image. lia.
    + rewrite length_encode_fields by done. lia.
Qed.

(** The field-by-field decoding reads each field from its own bytes. *)
Theorem decode_packed ly bs : decode_fields ly bs = packed_fields ly bs.
Proof.
  apply list_eq. intros i. unfold packed_fields. rewrite list_lookup_imap.
  destruct (ly !! i) as [k|] eqn:Hk.
  - by rewrite (decode_fields_lookup _ _ _ k).
  - apply lookup_ge_None_2. rewrite length_decode_fields. by apply lookup_ge_None_1.
Qed.

(** The sizes of the six structures and the offsets of the fields the
    host writes back, as [#[repr(C, packed)]] lays them out. *)
Example packed_offsets :
  wire_size SysOpen.t = 20%nat /\ field_offset SysOpen.layout 3 = 16%nat /\
  wire_size SysClose.t = 8%nat /\ field_offset SysClose.layout 1 = 4%nat /\
  wire_size SysRead.t = 28%nat /\ field_offset SysRead.layout 3 = 20%nat /\
  wire_size SysWrite.t = 20%nat /\
  wire_size SysLseek.t = 16%nat /\ field_offset SysLseek.layout 1 = 4%nat /\
  wire_size SysUnlink.t = 12%nat /\ field_offset SysUnlink.layout 1 = 8%nat.
Proof. repeat (split; [reflexivity|]); reflexivity. Qed.
