(* ===== verification/Transport.v ===== *)
(** * Hypercall transport: [uhyve_send] (lines 18-61)

    Guest physical memory is a finite map from addresses to bytes; the
    request structure lives in memory at the physical address of its
    virtual address.  [uhyve_send] translates the structure's address and
    performs one port write of the physical address: [outl] of the low 32
    bits on x86_64, a 64-bit store to the port on aarch64, [todo!()] on
    riscv64.  The host is an interface ([Host]): it serves one port write
    by reading and writing guest memory.  The observable effect of the
    kernel is the sequence of port writes ([trace]).  The memory lemmas
    say what a range of memory [holds] and how stores to overlapping,
    nested and disjoint ranges combine. *)

From stdpp Require Import base list gmap.
From Stdlib Require Import ZArith Lia.
From S2P Require Import Prelude Kernel Wire.

Open Scope Z_scope.

(** ** Ports (lines 56-61) *)

Definition UHYVE_PORT_WRITE : Z := 0x400.
Definition UHYVE_PORT_OPEN : Z := 0x440.
Definition UHYVE_PORT_CLOSE : Z := 0x480.
Definition UHYVE_PORT_READ : Z := 0x500.
Definition UHYVE_PORT_LSEEK : Z := 0x580.
Definition UHYVE_PORT_UNLINK : Z := 0x840.

Definition uhyve_ports : list Z :=
  [UHYVE_PORT_WRITE; UHYVE_PORT_OPEN; UHYVE_PORT_CLOSE; UHYVE_PORT_READ;
   UHYVE_PORT_LSEEK; UHYVE_PORT_UNLINK].

(** ** Guest physical memory *)

Definition load (m : gmap Z Z) (a : Z) : Z := Z.land (default 0 (m !! a)) 255.

Fixpoint load_bytes (m : gmap Z Z) (a : Z) (n : nat) : list Z :=
  match n with
  | O => []
  | S n' => load m a :: load_bytes m (a + 1) n'
  end.

Fixpoint store_bytes (a : Z) (bs : list Z) (m : gmap Z Z) : gmap Z Z :=
  match bs with
  | [] => m
  | b :: bs' => store_bytes (a + 1) bs' (<[a := b]> m)
  end.

(** ** The host behind the ports *)

(** One port write: the port, the value written to it and guest memory;
    the host answers with its new state and guest memory. *)
Class Host : Type := {
  host_state : Type;
  host_serve : host_state -> Z -> Z -> gmap Z Z -> host_state * gmap Z Z
}.

(** A port write as the host observes it: the port, the value written
    and the bytes of the request structure in memory at that moment. *)
Record hcall : Type := HC { hc_port : Z; hc_value : Z; hc_req : list Z }.

(** ** The kernel heap of reference-counted objects

    [inner_cell]: the allocation of an [Arc<SpinMutex<UhyveFileHandleInner>>]
    (the host descriptor and the strong count).  [handle_cell]: the
    allocation of an [Arc<dyn ObjectInterface>] holding one
    [UhyveFileHandle], i.e. one strong reference to an inner cell. *)
Record inner_cell : Type := InnerCell { ic_fd : Z; ic_strong : nat }.
Record handle_cell : Type := HandleCell { hc_inner : positive; hc_strong : nat }.

(** The kernel's world, over the host's state type [HS]. *)
Record world_of (HS : Type) : Type := mkWorld {
  mem : gmap Z Z;
  hst : HS;
  trace : list hcall;
  inners : gmap positive inner_cell;
  handles : gmap positive handle_cell;
  freed : list (positive * Z)
}.
Arguments mkWorld {HS} _ _ _ _ _ _.
Arguments mem {HS} _.
Arguments hst {HS} _.
Arguments trace {HS} _.
Arguments inners {HS} _.
Arguments handles {HS} _.
Arguments freed {HS} _.

Abbreviation world := (world_of host_state).

Section Transport.
Context `{Platform} `{Host}.

Definition set_mem (m : gmap Z Z) (w : world) : world :=
    mkWorld m (hst w) (trace w) (inners w) (handles w) (freed w).

(** The value the port receives for physical address [pa]:
    [outl(port, physical_address.as_u64() as u32)] on x86_64,
    [str x8, [port]] with the full address on aarch64. *)
Definition port_value (pa : Z) : Z :=
    match arch with
    | X86_64 => pa as_u32
    | _ => pa
    end.

(** The port write itself: the host runs to completion before it retires. *)
Definition port_write (port value : Z) (req : list Z) : St world unit :=
    fun w =>
      let '(h', m') := host_serve (hst w) port value (mem w) in
      Done (tt, mkWorld m' h' (trace w ++ [HC port value req]) (inners w) (handles w) (freed w)).

(** [uhyve_send(port, &mut data)]: the structure is in memory at the
    physical address of [data_va]; after the port write the caller sees
    the bytes the host left there. *)
Definition uhyve_send {T} `{Wire T} (port data_va : Z) (data : T) : St world T :=
    match arch with
    | RiscV64 => abort Todo
    | _ =>
        pa ← unwrap (virtual_to_physical data_va);
        modify (fun w => set_mem (store_bytes pa (encode data) (mem w)) w);;
        port_write port (port_value pa) (encode data);;
        w ← get;
        mret (decode T (load_bytes (mem w) pa (wire_size T)))
    end.
End Transport.


(** ** Memory lemmas *)

Lemma length_load_bytes m a n : length (load_bytes m a n) = n.
Proof. revert a. induction n; intros; simpl; auto. Qed.

Lemma lookup_store_bytes_out a bs m x :
  x < a \/ a + Z.of_nat (length bs) <= x -> store_bytes a bs m !! x = m !! x.
Proof.
  revert a m. induction bs as [|b bs IH]; intros a m Hx; simpl in *; [done|].
  rewrite IH by lia. apply lookup_insert_ne. lia.
Qed.

Lemma load_store_head a b bs m :
  is_byte b = true -> load (store_bytes a (b :: bs) m) a = b.
Proof.
  intros Hb. unfold load. simpl.
  rewrite lookup_store_bytes_out, lookup_insert_eq by lia. simpl.
  unfold is_byte in Hb. apply andb_true_iff in Hb as [? ?].
  rewrite land_255. apply Z.mod_small. lia.
Qed.

Lemma load_store_bytes a bs m :
  all_bytes bs -> load_bytes (store_bytes a bs m) a (length bs) = bs.
Proof.
  revert a m. induction bs as [|b bs IH]; intros a m Hb; simpl; [done|].
  apply Forall_cons in Hb as [Hb Hbs]. f_equal; [|by apply IH].
  by apply (load_store_head a b bs m).
Qed.

Lemma load_store_bytes_disjoint a bs m b n :
  b + Z.of_nat n <= a \/ a + Z.of_nat (length bs) <= b ->
  load_bytes (store_bytes a bs m) b n = load_bytes m b n.
Proof.
  revert b. induction n as [|n IH]; intros b Hd; simpl; [done|].
  unfold load at 1. rewrite lookup_store_bytes_out by lia.
  rewrite IH by lia. reflexivity.
Qed.

#[export] Hint Resolve length_load_bytes load_store_bytes : uhyve.

Lemma lookup_store_bytes_in a bs m x :
  a <= x < a + Z.of_nat (length bs) -> store_bytes a bs m !! x = bs !! Z.to_nat (x - a).
Proof.
  revert a m. induction bs as [|b bs IH]; intros a m Hx; simpl length in Hx; [lia|].
  cbn [store_bytes]. destruct (decide (x = a)) as [->|Hne].
  - rewrite lookup_store_bytes_out, lookup_insert_eq, Z.sub_diag by lia. reflexivity.
  - rewrite IH by lia. replace (Z.to_nat (x - a)) with (S (Z.to_nat (x - (a + 1)))) by lia.
    reflexivity.
Qed.

(** A store that covers an earlier one at the same address hides it. *)
Lemma store_bytes_shadow a bs bs' m :
  (length bs' <= length bs)%nat -> store_bytes a bs (store_bytes a bs' m) = store_bytes a bs m.
Proof.
  intros Hl. apply map_eq. intros x.
  destruct (decide (a <= x < a + Z.of_nat (length bs))).
  - by rewrite !lookup_store_bytes_in by lia.
  - by rewrite !lookup_store_bytes_out by lia.
Qed.

(** Stores to disjoint ranges commute. *)
Lemma store_bytes_comm a bs b cs m :
  a + Z.of_nat (length bs) <= b \/ b + Z.of_nat (length cs) <= a ->
  store_bytes a bs (store_bytes b cs m) = store_bytes b cs (store_bytes a bs m).
Proof.
  intros Hd. apply map_eq. intros x.
  destruct (decide (a <= x < a + Z.of_nat (length bs))).
  - rewrite lookup_store_bytes_in, (lookup_store_bytes_out b cs), lookup_store_bytes_in by lia.
    reflexivity.
  - rewrite (lookup_store_bytes_out a bs) by lia.
    destruct (decide (b <= x < b + Z.of_nat (length cs))).
    + by rewrite !lookup_store_bytes_in by lia.
    + by rewrite !lookup_store_bytes_out by lia.
Qed.

Lemma lookup_splice {A} (img bs : list A) off i :
  (off + length bs <= length img)%nat ->
  (take off img ++ bs ++ drop (off + length bs) img) !! i =
    if decide (off <= i < off + length bs)%nat then bs !! (i - off)%nat else img !! i.
Proof.
  intros Hl. destruct (decide _) as [Hi|Hi].
  - rewrite lookup_app_r, lookup_app_l; rewrite ?length_take; [f_equal|..]; lia.
  - destruct (decide (i < off)%nat).
    + rewrite lookup_app_l, lookup_take_lt by (rewrite ?length_take; lia). reflexivity.
    + rewrite lookup_app_r, lookup_app_r, lookup_drop; rewrite ?length_take; [f_equal|lia..]. lia.
Qed.

(** A store into the middle of a stored image is a store of the spliced image. *)
Lemma store_bytes_overwrite a off bs img m :
  (off + length bs <= length img)%nat ->
  store_bytes (a + Z.of_nat off) bs (store_bytes a img m) =
    store_bytes a (take off img ++ bs ++ drop (off + length bs) img) m.
Proof.
  intros Hl. assert (Hlen : length (take off img ++ bs ++ drop (off + length bs) img) = length img).
  { rewrite !length_app, length_take, length_drop. lia. }
  apply map_eq. intros x.
  destruct (decide (a <= x < a + Z.of_nat (length img))) as [Hin|Hout].
  - rewrite (lookup_store_bytes_in a) by lia. rewrite lookup_splice by done.
    destruct (decide _) as [Hi|Hi].
    + rewrite lookup_store_bytes_in by lia. f_equal. lia.
    + rewrite lookup_store_bytes_out, lookup_store_bytes_in by lia. reflexivity.
  - rewrite !lookup_store_bytes_out by lia. reflexivity.
Qed.

(** ** The bytes [bs] are in memory at [a] *)

Definition holds (a : Z) (bs : list Z) (m : gmap Z Z) : Prop :=
  forall i b, bs !! i = Some b -> m !! (a + Z.of_nat i) = Some b.

Lemma holds_store a bs m : holds a bs (store_bytes a bs m).
Proof.
  intros i b Hi. rewrite lookup_store_bytes_in.
  - rewrite <- Hi. f_equal. lia.
  - apply lookup_lt_Some in Hi. lia.
Qed.

Lemma holds_load a bs m : all_bytes bs -> holds a bs m -> load_bytes m a (length bs) = bs.
Proof.
  revert a. induction bs as [|b bs IH]; intros a Hb Hh; simpl; [done|].
  apply Forall_cons in Hb as [Hb Hbs]. f_equal.
  - pose proof (Hh 0%nat b eq_refl) as E. rewrite Z.add_0_r in E.
    unfold load. rewrite E. simpl.
    unfold is_byte in Hb. apply andb_true_iff in Hb as [? ?].
    rewrite land_255. apply Z.mod_small. lia.
  - apply IH; [done|]. intros i b' Hi.
    replace (a + 1 + Z.of_nat i) with (a + Z.of_nat (S i)) by lia. by apply Hh.
Qed.

(** A store elsewhere keeps what a range holds. *)
Lemma holds_store_out a bs b cs m :
  a + Z.of_nat (length bs) <= b \/ b + Z.of_nat (length cs) <= a ->
  holds a bs m -> holds a bs (store_bytes b cs m).
Proof.
  intros Hd Hh i x Hi. pose proof (lookup_lt_Some _ _ _ Hi).
  rewrite lookup_store_bytes_out by lia. by apply Hh.
Qed.

(** The [n] bytes at offset [off] of an image held at [a]. *)
Lemma holds_load_sub a bs m off n :
  all_bytes bs -> holds a bs m -> (off + n <= length bs)%nat ->
  load_bytes m (a + Z.of_nat off) n = take n (drop off bs).
Proof.
  intros Hb Hh Hl. rewrite <- (length_take_le (drop off bs) n) at 1 by (rewrite length_drop; lia).
  apply holds_load; [by apply Forall_take, Forall_drop|].
  intros i b Hi. apply lookup_take_Some in Hi as [Hi _]. rewrite lookup_drop in Hi.
  replace (a + Z.of_nat off + Z.of_nat i) with (a + Z.of_nat (off + i)) by lia. by apply Hh.
Qed.

Section TransportFacts.
Context `{Platform} `{Host} {T : Type} `{Wire T}.

(** The frame the host sees: guest memory with the request stored at [pa]. *)
Definition frame_mem (pa : Z) (data : T) (w : world) : gmap Z Z :=
    store_bytes pa (encode data) (mem w).

(** The outcome of a delivered request: the structure read back from the
    memory the host leaves, and the world after the port write. *)
Definition sent (port pa : Z) (data : T) (w : world) : T * world :=
    let '(h', m') := host_serve (hst w) port (port_value pa) (frame_mem pa data w) in
    (decode T (load_bytes m' pa (wire_size T)),
     mkWorld m' h' (trace w ++ [HC port (port_value pa) (encode data)])
       (inners w) (handles w) (freed w)).

Lemma uhyve_send_sent port va pa (data : T) w :
    arch <> RiscV64 -> virtual_to_physical va = Some pa ->
    uhyve_send port va data w = Done (sent port pa data w).
Proof.
  intros Harch Hva. unfold uhyve_send, sent, frame_mem, set_mem, port_value.
  destruct arch; [| |done]; run; rewrite Hva; simpl;
    unfold port_write; simpl; destruct host_serve; reflexivity.
Qed.


Lemma uhyve_send_bind {B} port va pa (data : T) (k : T -> St world B) w :
    arch <> RiscV64 -> virtual_to_physical va = Some pa ->
    (uhyve_send port va data ≫= k) w = k (sent port pa data w).1 (sent port pa data w).2.
Proof.
  intros Harch Hva. unfold mbind, St_bind.
  rewrite (uhyve_send_sent port va pa data w) by done.
  destruct (sent port pa data w); reflexivity.
Qed.

Lemma uhyve_send_riscv_todo port va (data : T) w :
    arch = RiscV64 -> uhyve_send port va data w = Panic Todo.
  Proof. intros Harch. unfold uhyve_send. rewrite Harch. reflexivity. Qed.


Lemma uhyve_send_unmapped_panics port va (data : T) w :
    arch <> RiscV64 -> virtual_to_physical va = None ->
    uhyve_send port va data w = Panic UnwrapNone.
Proof.
  intros Harch Hva. unfold uhyve_send.
  destruct arch; [| |done]; run; rewrite Hva; reflexivity.
Qed.

(** A completed [uhyve_send] went through [sent]. *)
Lemma uhyve_send_Done port va (data : T) w x w' :
  uhyve_send port va data w = Done (x, w') ->
  exists pa, arch <> RiscV64 /\ virtual_to_physical va = Some pa /\ sent port pa data w = (x, w').
Proof.
  intros Hd. destruct (decide (arch = RiscV64)) as [Ha|Ha].
  - by rewrite uhyve_send_riscv_todo in Hd.
  - destruct (virtual_to_physical va) as [pa|] eqn:Hva.
    + exists pa. rewrite (uhyve_send_sent _ _ pa) in Hd by done. by injection Hd as ->.
    + by rewrite uhyve_send_unmapped_panics in Hd.
Qed.

(** A port write leaves the heap and the ghost log alone and appends one
    event to the trace. *)
Lemma sent_heap port pa (data : T) w x w' :
  sent port pa data w = (x, w') ->
  inners w' = inners w /\ handles w' = handles w /\ freed w' = freed w /\
  trace w' = trace w ++ [HC port (port_value pa) (encode data)].
Proof. unfold sent. destruct host_serve. intros [= _ <-]. done. Qed.
End TransportFacts.

(** The guest reads back a structure it stored, when nothing overwrote it. *)
Lemma decode_load_store {T} `{Wire T} pa (s : T) m :
  wire_ok s = true ->
  decode T (load_bytes (store_bytes pa (encode s) m) pa (wire_size T)) = s.
Proof.
  intros Hok. rewrite <- (length_encode s), load_store_bytes by apply encode_bytes.
  by apply decode_encode_wire.
Qed.

#[export] Hint Resolve decode_load_store : uhyve.

Section PortValue.
Context `{Platform}.

(** C8: The host receives the physical address unchanged exactly when the
    architecture is not x86_64 or the address fits in 32 bits. *)
Lemma port_value_exact pa :
    0 <= pa -> port_value pa = pa <-> arch <> X86_64 \/ pa < 2 ^ 32.
Proof.
  intros Hpa. unfold port_value. destruct arch.
  - unfold wrap_u. split.
    + intros E. right. rewrite <- E. apply Z.mod_pos_bound. lia.
    + intros [Hn|Hlt]; [done|]. apply Z.mod_small. lia.
  - split; [intros _; left; done | done].
  - split; [intros _; left; done | done].
Qed.
End PortValue.
