(* ===== verification/HostFs.v ===== *)
(** * The host side of the protocol (the uhyve hypervisor)

    The hypervisor is not part of this repository; its contract is
    modelled from the specification.  [HostFs] is the file system the
    host offers, one typed request at a time; [uhyve_serve] is the
    host's dispatch on the port number: it reads the fields of the
    request structure at the address written to the port, at the offsets
    of the host's own C declarations ([get_field]), reads path strings
    (NUL terminated, at most [PATH_MAX] bytes) and write buffers from
    guest memory, calls [HostFs], and overwrites the result field in
    place ([put_field]), after storing the bytes of a read.  [uhyve_host]
    makes it a [Transport.Host].  The refinement lemmas [uhyve_sent_*]
    show that the guest's [Wire] encoding of each structure is read by
    the host as the request it means. *)

From stdpp Require Import base list gmap.
From Stdlib Require Import ZArith Lia.
From S2P Require Import Prelude Kernel Wire Transport.

Open Scope Z_scope.

(** ** Typed requests and the host file system interface *)

Inductive request : Type :=
  | ReqOpen (path : list Z) (flags mode : Z)
  | ReqClose (fd : Z)
  | ReqRead (fd len : Z)
  | ReqWrite (fd : Z) (data : list Z)
  | ReqLseek (fd offset whence : Z)
  | ReqUnlink (path : list Z).

(** The host answers a result number and, for a read, the bytes read. *)
Class HostFs : Type := {
  fs_state : Type;
  fs_serve : fs_state -> request -> fs_state * (Z * list Z)
}.

Definition PATH_MAX : nat := 4096.

(** A C string in guest memory: the bytes before the first NUL. *)
Fixpoint load_cstr (m : gmap Z Z) (a : Z) (fuel : nat) : list Z :=
  match fuel with
  | O => []
  | S f => let b := load m a in if b =? 0 then [] else b :: load_cstr m (a + 1) f
  end.

(** ** The host's C structures

    The hypervisor declares the request structures itself, outside this
    repository.  Following the specification (its section on the wire
    format), each is a C structure whose fields lie in declaration order
    with no padding: 32-bit descriptors, flags, modes, whence values and
    open, close and unlink results; 64-bit addresses and lengths; signed
    64-bit offsets and read results.  The host reads a field of kind [k]
    at byte offset [off] of the structure at [a] ([get_field]) and
    overwrites a result field in place ([put_field]); the offsets below
    are those of the host's declarations, not of the guest's [Wire]
    layouts. *)
Definition get_field (m : gmap Z Z) (a : Z) (off : nat) (k : kind) : Z :=
  decode_field k (load_bytes m (a + Z.of_nat off) (kind_size k)).

Definition put_field (a : Z) (off : nat) (k : kind) (x : Z) (m : gmap Z Z) : gmap Z Z :=
  store_bytes (a + Z.of_nat off) (encode_field k x) m.

Section UhyveHost.
Context `{HostFs}.

(** [{ name: u64, flags: i32, mode: i32, ret: i32 }] *)
Definition serve_open (h : fs_state) (addr : Z) (m : gmap Z Z) :=
    let name := get_field m addr 0 (KU 8) in
    let '(h', (r, _)) :=
      fs_serve h (ReqOpen (load_cstr m name PATH_MAX)
                    (get_field m addr 8 (KI 4)) (get_field m addr 12 (KI 4))) in
    (h', put_field addr 16 (KI 4) r m).

(** [{ fd: i32, ret: i32 }] *)
Definition serve_close (h : fs_state) (addr : Z) (m : gmap Z Z) :=
    let '(h', (r, _)) := fs_serve h (ReqClose (get_field m addr 0 (KI 4))) in
    (h', put_field addr 4 (KI 4) r m).

(** [{ fd: i32, buf: u64, len: u64, ret: i64 }]: the bytes read go to
    [buf], used as a physical address, then the result to [ret]. *)
Definition serve_read (h : fs_state) (addr : Z) (m : gmap Z Z) :=
    let buf := get_field m addr 4 (KU 8) in
    let len := get_field m addr 12 (KU 8) in
    let '(h', (r, data)) := fs_serve h (ReqRead (get_field m addr 0 (KI 4)) len) in
    (h', put_field addr 20 (KI 8) r (store_bytes buf (take (Z.to_nat len) data) m)).

(** [{ fd: i32, buf: u64, len: u64 }]: nothing is written back. *)
Definition serve_write (h : fs_state) (addr : Z) (m : gmap Z Z) :=
    let buf := get_field m addr 4 (KU 8) in
    let len := get_field m addr 12 (KU 8) in
    let data := load_bytes m buf (Z.to_nat len) in
    let '(h', _) := fs_serve h (ReqWrite (get_field m addr 0 (KI 4)) data) in
    (h', m).

(** [{ fd: i32, offset: i64, whence: i32 }]: the result overwrites [offset]. *)
Definition serve_lseek (h : fs_state) (addr : Z) (m : gmap Z Z) :=
    let '(h', (r, _)) :=
      fs_serve h (ReqLseek (get_field m addr 0 (KI 4)) (get_field m addr 4 (KI 8))
                    (get_field m addr 12 (KI 4))) in
    (h', put_field addr 4 (KI 8) r m).

(** [{ name: u64, ret: i32 }] *)
Definition serve_unlink (h : fs_state) (addr : Z) (m : gmap Z Z) :=
    let name := get_field m addr 0 (KU 8) in
    let '(h', (r, _)) := fs_serve h (ReqUnlink (load_cstr m name PATH_MAX)) in
    (h', put_field addr 8 (KI 4) r m).

Definition uhyve_serve (h : fs_state) (port addr : Z) (m : gmap Z Z) : fs_state * gmap Z Z :=
    if port =? UHYVE_PORT_OPEN then serve_open h addr m
    else if port =? UHYVE_PORT_CLOSE then serve_close h addr m
    else if port =? UHYVE_PORT_READ then serve_read h addr m
    else if port =? UHYVE_PORT_WRITE then serve_write h addr m
    else if port =? UHYVE_PORT_LSEEK then serve_lseek h addr m
    else if port =? UHYVE_PORT_UNLINK then serve_unlink h addr m
    else (h, m).
End UhyveHost.

#[export] Instance uhyve_host `{HostFs} : Host :=
  {| host_state := fs_state; host_serve := uhyve_serve |}.

(** ** A scripted host file system and a concrete platform, for witnesses

    [scripted_fs] answers requests with the results of a script, in
    order, and records the requests it received. *)
Definition scripted_serve (st : list (Z * list Z) * list request) (rq : request)
  : (list (Z * list Z) * list request) * (Z * list Z) :=
  match st.1 with
  | [] => (([], st.2 ++ [rq]), (-1, []))
  | r :: rs => ((rs, st.2 ++ [rq]), r)
  end.

Definition scripted_fs : HostFs :=
  {| fs_state := list (Z * list Z) * list request; fs_serve := scripted_serve |}.

(** x86_64 with the low 4 GiB identity mapped. *)
Definition x86_identity : Platform :=
  {| arch := X86_64;
     virtual_to_physical := fun va => if (0 <=? va) && (va <? 2 ^ 32) then Some va else None;
     is_uhyve := true |}.

(** aarch64 with all of memory identity mapped. *)
Definition arm_identity : Platform :=
  {| arch := AArch64;
     virtual_to_physical := fun va => if (0 <=? va) && (va <? 2 ^ 48) then Some va else None;
     is_uhyve := true |}.

Definition empty_world (script : list (Z * list Z)) : world_of (@fs_state scripted_fs) :=
  mkWorld ∅ ((script, []) : @fs_state scripted_fs) [] ∅ ∅ [].

(** ** What the host reads as a C string *)

Lemma load_cstr_outside a bs m b fuel :
  a + Z.of_nat (length bs) <= b \/ b + Z.of_nat fuel <= a ->
  load_cstr (store_bytes a bs m) b fuel = load_cstr m b fuel.
Proof.
  revert b. induction fuel as [|f IH]; intros b Hd; simpl; [done|].
  assert (E : load (store_bytes a bs m) b = load m b).
  { unfold load. rewrite lookup_store_bytes_out by lia. reflexivity. }
  rewrite E, IH by lia. reflexivity.
Qed.

(** A string without NUL stored at [a] is read with whatever follows it. *)
Lemma load_cstr_store a bs m fuel :
  all_bytes bs -> 0 ∉ bs -> (length bs <= fuel)%nat ->
  load_cstr (store_bytes a bs m) a fuel =
    bs ++ load_cstr m (a + Z.of_nat (length bs)) (fuel - length bs).
Proof.
  revert a m fuel. induction bs as [|b bs IH]; intros a m fuel Hb Hnul Hlen.
  - rewrite Z.add_0_r, Nat.sub_0_r. reflexivity.
  - destruct fuel as [|f]; [simpl in Hlen; lia|].
    apply Forall_cons in Hb as [Hb Hbs].
    cbn [load_cstr]. rewrite load_store_head by done.
    destruct (Z.eqb_spec b 0) as [->|Hb0]; [set_solver|].
    cbn [store_bytes]. rewrite IH by (set_solver || simpl in Hlen; lia).
    change (<[a:=b]> m) with (store_bytes a [b] m).
    rewrite load_cstr_outside by (simpl; lia).
    simpl length. rewrite Nat2Z.inj_succ. replace (a + Z.succ (Z.of_nat (length bs))) with (a + 1 + Z.of_nat (length bs)) by lia. reflexivity.
Qed.

(** ** The host's view of a guest structure

    Where the guest's layout puts field [i] at the offset and with the
    kind of the host's declaration, the host reads that field of the
    image the guest stored, and its store of a result field is the
    guest's image of the structure with that field replaced. *)
Section HostView.
Context {T : Type} `{Wire T}.

Lemma host_get pa (s : T) m i k off :
  wire_ok s = true -> holds pa (encode s) m ->
  wire_layout T !! i = Some k -> field_offset (wire_layout T) i = off ->
  get_field m pa off k = nth i (to_fields s) 0.
Proof.
  intros Hok Hh Hk <-. unfold get_field. pose proof (field_end_le _ _ _ Hk).
  destruct (lookup_lt_is_Some_2 (to_fields s) i) as [v Hv].
  { rewrite length_to_fields. by eapply lookup_lt_Some. }
  rewrite (nth_lookup_Some _ _ _ _ Hv).
  rewrite (holds_load_sub pa (encode s) m) by
    (auto with uhyve || (rewrite length_encode; unfold wire_size; lia)).
  unfold encode. rewrite (field_at_offset _ _ i k v) by (done || apply length_to_fields).
  apply decode_encode_field. by eapply fields_ok_lookup.
Qed.

Lemma host_put pa (s s' : T) m i k off x :
  wire_layout T !! i = Some k -> field_offset (wire_layout T) i = off ->
  to_fields s' = <[i := decode_field k (encode_field k x)]> (to_fields s) ->
  put_field pa off k x (store_bytes pa (encode s) m) = store_bytes pa (encode s') m.
Proof.
  intros Hk <- Hs'. unfold put_field. pose proof (field_end_le _ _ _ Hk).
  rewrite store_bytes_overwrite by
    (rewrite length_encode_field, length_encode; unfold wire_size; lia).
  unfold encode. rewrite Hs', (encode_fields_insert _ _ i k) by (done || apply length_to_fields).
  rewrite encode_decode_field by auto with uhyve. by rewrite length_encode_field.
Qed.
End HostView.

(** The host's reads of the fields of a structure [s] held at [pa]. *)
Ltac host_reads s :=
  cbv zeta;
  repeat match goal with
  | |- context [get_field ?m ?pa ?off ?k] =>
      first [ rewrite (host_get pa s m 0 k off) by (done || reflexivity || apply holds_store)
            | rewrite (host_get pa s m 1 k off) by (done || reflexivity || apply holds_store)
            | rewrite (host_get pa s m 2 k off) by (done || reflexivity || apply holds_store)
            | rewrite (host_get pa s m 3 k off) by (done || reflexivity || apply holds_store) ]
  end;
  cbn [nth to_fields SysOpen.wire SysClose.wire SysRead.wire SysWrite.wire SysLseek.wire
    SysUnlink.wire].

(** The host's store of result field [i] of kind [k] at [off]. *)
Ltac host_ret pa s i k off s' :=
  rewrite (host_put pa s s' _ i k off) by
    (reflexivity || (rewrite decode_encode_field_KI; reflexivity)).

(** ** Refinement: the bytes protocol implements the typed requests

    With the uhyve host and the physical address delivered intact, a
    request structure reaches [HostFs] as the typed request it encodes,
    read at the offsets of the host's declarations, and the guest reads
    back the structure with the host's result in its result field. *)
Section UhyveRefinement.
Context `{Platform} `{HostFs}.
Variable pa : Z.
Hypothesis Hpv : port_value pa = pa.

Ltac serve_port :=
  unfold sent; rewrite Hpv; cbn [host_serve uhyve_host];
  unfold uhyve_serve; cbv [UHYVE_PORT_OPEN UHYVE_PORT_CLOSE UHYVE_PORT_READ
    UHYVE_PORT_WRITE UHYVE_PORT_LSEEK UHYVE_PORT_UNLINK]; simpl Z.eqb; cbv iota;
  unfold serve_open, serve_close, serve_read, serve_write, serve_lseek,
    serve_unlink, frame_mem.

Ltac fields_in_range :=
  unfold wire_ok in *; simpl in *;
  rewrite ?andb_true_iff in *; intuition auto using wrap_s_ok with zarith.

Ltac read_back :=
  rewrite store_bytes_shadow by (rewrite !length_encode; lia);
  rewrite decode_load_store by fields_in_range; reflexivity.

(** C9: The open request reaches the host as the typed request it
    encodes: the host, reading the name, flags and mode at the offsets of
    its own [{ name: u64, flags: i32, mode: i32, ret: i32 }], gets the
    fields of the guest's [SysOpen], reads the path as a C string from
    the name's physical address, and the guest reads back the request with
    the host's result, wrapped to 32 bits, in [ret]. *)
Lemma uhyve_sent_open (s : SysOpen.t) w :
  wire_ok s = true ->
  sent UHYVE_PORT_OPEN pa s w =
    let m1 := frame_mem pa s w in
    let '(h', (r, _)) :=
      fs_serve (hst w) (ReqOpen (load_cstr m1 (SysOpen.name s) PATH_MAX) (SysOpen.flags s) (SysOpen.mode s)) in
    let s' := SysOpen.mk (SysOpen.name s) (SysOpen.flags s) (SysOpen.mode s) (wrap_s 32 r) in
    (s', mkWorld (store_bytes pa (encode s') m1) h'
           (trace w ++ [HC UHYVE_PORT_OPEN pa (encode s)]) (inners w) (handles w) (freed w)).
Proof.
  intros Hok. serve_port. host_reads s.
  destruct (fs_serve _ _) as [h' [r d]]. cbv beta iota zeta.
  host_ret pa s 3%nat (KI 4) 16%nat (SysOpen.mk (SysOpen.name s) (SysOpen.flags s) (SysOpen.mode s) (wrap_s 32 r)).
  read_back.
Qed.

Lemma uhyve_sent_close (s : SysClose.t) w :
  wire_ok s = true ->
  sent UHYVE_PORT_CLOSE pa s w =
    let m1 := frame_mem pa s w in
    let '(h', (r, _)) := fs_serve (hst w) (ReqClose (SysClose.fd s)) in
    let s' := SysClose.mk (SysClose.fd s) (wrap_s 32 r) in
    (s', mkWorld (store_bytes pa (encode s') m1) h'
           (trace w ++ [HC UHYVE_PORT_CLOSE pa (encode s)]) (inners w) (handles w) (freed w)).
Proof.
  intros Hok. serve_port. host_reads s.
  destruct (fs_serve _ _) as [h' [r d]]. cbv beta iota zeta.
  host_ret pa s 1%nat (KI 4) 4%nat (SysClose.mk (SysClose.fd s) (wrap_s 32 r)).
  read_back.
Qed.

(** The read request reaches the host as the typed request it
    encodes, read at the offsets of the host's
    [{ fd: i32, buf: u64, len: u64, ret: i64 }]; the host stores the bytes
    read at [buf] taken as a physical address, and the guest reads back
    its request with the host's result, wrapped to 64 bits, in [ret],
    when the buffer does not overlap the request. *)
Lemma uhyve_sent_read (s : SysRead.t) w :
  wire_ok s = true ->
  SysRead.buf s + SysRead.len s <= pa \/ pa + Z.of_nat (wire_size SysRead.t) <= SysRead.buf s ->
  sent UHYVE_PORT_READ pa s w =
    let m1 := frame_mem pa s w in
    let '(h', (r, data)) := fs_serve (hst w) (ReqRead (SysRead.fd s) (SysRead.len s)) in
    let s' := SysRead.mk (SysRead.fd s) (SysRead.buf s) (SysRead.len s) (wrap_s 64 r) in
    (s', mkWorld (store_bytes pa (encode s')
                   (store_bytes (SysRead.buf s) (take (Z.to_nat (SysRead.len s)) data) m1)) h'
           (trace w ++ [HC UHYVE_PORT_READ pa (encode s)]) (inners w) (handles w) (freed w)).
Proof.
  intros Hok Hd. serve_port. host_reads s.
  destruct (fs_serve _ _) as [h' [r d]]. cbv beta iota zeta.
  assert (Hlen : 0 <= SysRead.len s).
  { unfold wire_ok in Hok. destruct s as [fd buf len ret]. cbn -[in_sint in_uint] in Hok |- *.
    rewrite !andb_true_iff in Hok. destruct Hok as (_ & _ & Hl%in_uint_spec & _). lia. }
  rewrite (store_bytes_comm (SysRead.buf s) _ pa (encode s)) by
    (rewrite length_take, length_encode; lia).
  host_ret pa s 3%nat (KI 8) 20%nat
    (SysRead.mk (SysRead.fd s) (SysRead.buf s) (SysRead.len s) (wrap_s 64 r)).
  read_back.
Qed.

(** A write leaves the frame as it is: the guest reads back its request. *)
Lemma uhyve_sent_write (s : SysWrite.t) w :
  wire_ok s = true ->
  sent UHYVE_PORT_WRITE pa s w =
    let m1 := frame_mem pa s w in
    let '(h', _) :=
      fs_serve (hst w) (ReqWrite (SysWrite.fd s) (load_bytes m1 (SysWrite.buf s) (Z.to_nat (SysWrite.len s)))) in
    (s, mkWorld m1 h' (trace w ++ [HC UHYVE_PORT_WRITE pa (encode s)]) (inners w) (handles w) (freed w)).
Proof.
  intros Hok. serve_port. host_reads s.
  destruct (fs_serve _ _) as [h' [r d]]. cbv beta iota zeta.
  rewrite decode_load_store by done. reflexivity.
Qed.

Lemma uhyve_sent_lseek (s : SysLseek.t) w :
  wire_ok s = true ->
  sent UHYVE_PORT_LSEEK pa s w =
    let m1 := frame_mem pa s w in
    let '(h', (r, _)) :=
      fs_serve (hst w) (ReqLseek (SysLseek.fd s) (SysLseek.offset s) (SysLseek.whence s)) in
    let s' := SysLseek.mk (SysLseek.fd s) (wrap_s 64 r) (SysLseek.whence s) in
    (s', mkWorld (store_bytes pa (encode s') m1) h'
           (trace w ++ [HC UHYVE_PORT_LSEEK pa (encode s)]) (inners w) (handles w) (freed w)).
Proof.
  intros Hok. serve_port. host_reads s.
  destruct (fs_serve _ _) as [h' [r d]]. cbv beta iota zeta.
  host_ret pa s 1%nat (KI 8) 4%nat (SysLseek.mk (SysLseek.fd s) (wrap_s 64 r) (SysLseek.whence s)).
  read_back.
Qed.

Lemma uhyve_sent_unlink (s : SysUnlink.t) w :
  wire_ok s = true ->
  sent UHYVE_PORT_UNLINK pa s w =
    let m1 := frame_mem pa s w in
    let '(h', (r, _)) := fs_serve (hst w) (ReqUnlink (load_cstr m1 (SysUnlink.name s) PATH_MAX)) in
    let s' := SysUnlink.mk (SysUnlink.name s) (wrap_s 32 r) in
    (s', mkWorld (store_bytes pa (encode s') m1) h'
           (trace w ++ [HC UHYVE_PORT_UNLINK pa (encode s)]) (inners w) (handles w) (freed w)).
Proof.
  intros Hok. serve_port. host_reads s.
  destruct (fs_serve _ _) as [h' [r d]]. cbv beta iota zeta.
  host_ret pa s 1%nat (KI 4) 8%nat (SysUnlink.mk (SysUnlink.name s) (wrap_s 32 r)).
  read_back.
Qed.
End UhyveRefinement.
