(* ===== verification/Handle.v ===== *)
(** * File handles (lines 156-228)

    [UhyveFileHandleInner] wraps a host descriptor; its [read], [write]
    and [lseek] build a request structure, send it and interpret the
    result field, and its [Drop] sends [SysClose].  [UhyveFileHandle] is
    an [Arc<SpinMutex<UhyveFileHandleInner>>]: the shared allocation is an
    [inner_cell] of the world's heap with its strong count; [clone] and
    [drop] are the [Arc]'s, and the last [drop] runs the inner [Drop].
    The virtual file system holds each handle as an [Arc<dyn
    ObjectInterface>], a [handle_cell] of the heap ([Object]); dropping
    the last reference to it drops the [UhyveFileHandle] it holds.  Each
    operation runs as one step of the state monad: the [SpinMutex] held
    for the whole call is what makes an operation on a shared handle one
    indivisible step, and [Lifecycle.step] interleaves such steps of any
    references in any order ([Threads] and [Linearize] split the call
    into the steps of a thread and show the interleavings linearizable).
    [read_ret], [write_ret] and [lseek_ret] are the code after the
    hypercall, shared with [Threads].  [freed] is ghost state: the inner
    allocations whose destructor ran, in order. *)

From stdpp Require Import base list gmap.
From Stdlib Require Import ZArith Lia.
From S2P Require Import Prelude Kernel Wire Transport HostFs.

Open Scope Z_scope.

(** ** [UhyveFileHandleInner] (lines 156-199) *)
Module UhyveFileHandleInner.
Section Ops.
Context `{Platform} `{Host}.
(** The virtual address of the request structure on the kernel stack. *)
Variable frame_va : Z.

(** What [read] does with the structure the host left: a non-negative
    result is the byte count; a negative one goes through
    [FromPrimitive::from_isize(..).unwrap()]. *)
Definition read_ret (sysread : SysRead.t) : St world (result Z IoError) :=
    if 0 <=? SysRead.ret sysread then mret (Ok (SysRead.ret sysread))
    else e ← unwrap (from_isize (SysRead.ret sysread)); mret (Err e).

(** [read(&mut self, buf)]. *)
Definition read (fd buf_ptr buf_len : Z) : St world (result Z IoError) :=
    sysread ← uhyve_send UHYVE_PORT_READ frame_va (SysRead.new fd buf_ptr buf_len);
    read_ret sysread.

(** [Ok(syswrite.len.try_into().unwrap())]. *)
Definition write_ret (syswrite : SysWrite.t) : St world (result Z IoError) :=
    n ← unwrap (try_into_s 64 (SysWrite.len syswrite));
    mret (Ok n).

(** [write(&mut self, buf)]. *)
Definition write (fd buf_ptr buf_len : Z) : St world (result Z IoError) :=
    syswrite ← uhyve_send UHYVE_PORT_WRITE frame_va (SysWrite.new fd buf_ptr buf_len);
    write_ret syswrite.

(** The host overwrites [offset]: a negative one is [EINVAL]. *)
Definition lseek_ret (syslseek : SysLseek.t) : St world (result Z IoError) :=
    if 0 <=? SysLseek.offset syslseek then mret (Ok (SysLseek.offset syslseek))
    else mret (Err EINVAL).

(** [lseek(&self, offset, whence)]. *)
Definition lseek (fd offset : Z) (whence : SeekWhence) : St world (result Z IoError) :=
    req ← SysLseek.new fd offset whence;
    syslseek ← uhyve_send UHYVE_PORT_LSEEK frame_va req;
    lseek_ret syslseek.

(** [impl Drop]: a [SysClose] whose result is discarded. *)
Definition drop (fd : Z) : St world unit :=
    _ ← uhyve_send UHYVE_PORT_CLOSE frame_va (SysClose.new fd);
    mret tt.
End Ops.
End UhyveFileHandleInner.

(** ** The heap of [Arc] allocations *)
Section Heap.
Context `{Host}.

Definition set_inners (m : gmap positive inner_cell) (w : world) : world :=
    mkWorld (mem w) (hst w) (trace w) m (handles w) (freed w).
Definition set_handles (m : gmap positive handle_cell) (w : world) : world :=
    mkWorld (mem w) (hst w) (trace w) (inners w) m (freed w).
Definition add_freed (p : positive) (fd : Z) (w : world) : world :=
  mkWorld (mem w) (hst w) (trace w) (inners w) (handles w) (freed w ++ [(p, fd)]).

(** Allocation identities are never reused. *)
Definition fresh_inner (w : world) : positive :=
    fresh (dom (inners w) ∪ list_to_set (freed w).*1).

Definition inner_at (p : positive) : St world inner_cell :=
    fun w => match inners w !! p with
             | Some c => Done (c, w)
             | None => Panic InvalidReference
             end.

Definition handle_at (o : positive) : St world handle_cell :=
    fun w => match handles w !! o with
             | Some c => Done (c, w)
             | None => Panic InvalidReference
             end.
End Heap.

(** ** [UhyveFileHandle] (lines 201-228): [Arc<SpinMutex<UhyveFileHandleInner>>] *)
Module UhyveFileHandle.
Section Ops.
Context `{Platform} `{Host}.
Variable frame_va : Z.

(** [new(fd)]: [Arc::new(SpinMutex::new(UhyveFileHandleInner::new(fd)))]. *)
Definition new (fd : Z) : St world positive :=
    fun w => let p := fresh_inner w in
             Done (p, set_inners (<[p := InnerCell fd 1]> (inners w)) w).

(** [clone]: [Arc::clone], one more strong reference. *)
Definition clone (p : positive) : St world unit :=
    c ← inner_at p;
    modify (fun w => set_inners (<[p := InnerCell (ic_fd c) (S (ic_strong c))]> (inners w)) w).

(** Dropping one strong reference; the last one runs the inner [Drop]
    and frees the allocation. *)
Definition drop (p : positive) : St world unit :=
    c ← inner_at p;
    if decide (ic_strong c <= 1)%nat then
      UhyveFileHandleInner.drop frame_va (ic_fd c);;
      modify (fun w => add_freed p (ic_fd c) (set_inners (delete p (inners w)) w))
    else
      modify (fun w => set_inners (<[p := InnerCell (ic_fd c) (pred (ic_strong c))]> (inners w)) w).

(** [ObjectInterface] (lines 210-222): [self.0.lock().op(..)]. *)
Definition read (p : positive) (buf_ptr buf_len : Z) : St world (result Z IoError) :=
    c ← inner_at p; UhyveFileHandleInner.read frame_va (ic_fd c) buf_ptr buf_len.
Definition write (p : positive) (buf_ptr buf_len : Z) : St world (result Z IoError) :=
    c ← inner_at p; UhyveFileHandleInner.write frame_va (ic_fd c) buf_ptr buf_len.
Definition lseek (p : positive) (offset : Z) (whence : SeekWhence) : St world (result Z IoError) :=
    c ← inner_at p; UhyveFileHandleInner.lseek frame_va (ic_fd c) offset whence.
End Ops.
End UhyveFileHandle.

(** ** [Arc<dyn ObjectInterface>] as the virtual file system holds it *)
Module Object.
Section Ops.
Context `{Platform} `{Host}.
Variable frame_va : Z.

(** [Arc::new(handle)]. *)
Definition new (p : positive) : St world positive :=
    fun w => let o := fresh (dom (handles w)) in
             Done (o, set_handles (<[o := HandleCell p 1]> (handles w)) w).

Definition clone (o : positive) : St world unit :=
    c ← handle_at o;
    modify (fun w => set_handles (<[o := HandleCell (hc_inner c) (S (hc_strong c))]> (handles w)) w).

(** [dyn_clone]: a new allocation holding a clone of the handle. *)
Definition dup (o : positive) : St world positive :=
    c ← handle_at o;
    UhyveFileHandle.clone (hc_inner c);;
    new (hc_inner c).

(** The last reference drops the [UhyveFileHandle] inside. *)
Definition drop (o : positive) : St world unit :=
    c ← handle_at o;
    if decide (hc_strong c <= 1)%nat then
      modify (fun w => set_handles (delete o (handles w)) w);;
      UhyveFileHandle.drop frame_va (hc_inner c)
    else
      modify (fun w => set_handles (<[o := HandleCell (hc_inner c) (pred (hc_strong c))]> (handles w)) w).

Definition read (o : positive) (buf_ptr buf_len : Z) : St world (result Z IoError) :=
    c ← handle_at o; UhyveFileHandle.read frame_va (hc_inner c) buf_ptr buf_len.
Definition write (o : positive) (buf_ptr buf_len : Z) : St world (result Z IoError) :=
    c ← handle_at o; UhyveFileHandle.write frame_va (hc_inner c) buf_ptr buf_len.
Definition lseek (o : positive) (offset : Z) (whence : SeekWhence) : St world (result Z IoError) :=
    c ← handle_at o; UhyveFileHandle.lseek frame_va (hc_inner c) offset whence.
End Ops.
End Object.

(** ** Behaviour of the inner operations on every branch *)
Section InnerFacts.
Context `{Platform} `{Host}.
Variables (frame_va frame_pa : Z).
Hypothesis Harch : arch <> RiscV64.
Hypothesis Hframe : virtual_to_physical frame_va = Some frame_pa.

(** C12: A non-negative result of the host is returned as [Ok] of the byte count, in the world the hypercall left. *)
Lemma read_ok fd buf len w s' w' :
    sent UHYVE_PORT_READ frame_pa (SysRead.new fd buf len) w = (s', w') ->
    0 <= SysRead.ret s' ->
    UhyveFileHandleInner.read frame_va fd buf len w = Done (Ok (SysRead.ret s'), w').
Proof.
  intros Hs Hr. unfold UhyveFileHandleInner.read, UhyveFileHandleInner.read_ret.
  rewrite (uhyve_send_bind _ _ frame_pa) by done. rewrite Hs. simpl.
  destruct (Z.leb_spec 0 (SysRead.ret s')); [reflexivity | lia].
Qed.

(** C4: Every negative result of the host is a panic, not an error: the
    derived [from_isize] has no variant for a negative number. *)
Lemma read_error_panics fd buf len w s' w' :
    sent UHYVE_PORT_READ frame_pa (SysRead.new fd buf len) w = (s', w') ->
    SysRead.ret s' < 0 ->
    UhyveFileHandleInner.read frame_va fd buf len w = Panic UnwrapNone.
Proof.
  intros Hs Hr. unfold UhyveFileHandleInner.read, UhyveFileHandleInner.read_ret.
  rewrite (uhyve_send_bind _ _ frame_pa) by done. rewrite Hs. simpl.
  destruct (Z.leb_spec 0 (SysRead.ret s')); [lia|].
  run. unfold from_isize. rewrite from_i64_nonpos by lia. reflexivity.
Qed.

Lemma write_result fd buf len w s' w' :
    sent UHYVE_PORT_WRITE frame_pa (SysWrite.new fd buf len) w = (s', w') ->
    UhyveFileHandleInner.write frame_va fd buf len w =
      if isize_ok (SysWrite.len s') then Done (Ok (SysWrite.len s'), w')
      else Panic UnwrapNone.
Proof.
  intros Hs. unfold UhyveFileHandleInner.write, UhyveFileHandleInner.write_ret.
  rewrite (uhyve_send_bind _ _ frame_pa) by done. rewrite Hs. simpl.
  unfold try_into_s. destruct (in_sint 64 _); reflexivity.
Qed.

(** [lseek] never panics on a mapped frame: the host's offset or EINVAL. *)
Lemma lseek_result fd off wh w s' w' :
    sent UHYVE_PORT_LSEEK frame_pa
      (SysLseek.mk fd off (match wh with Set_ => 0 | Cur => 1 | End_ => 2 end)) w = (s', w') ->
    UhyveFileHandleInner.lseek frame_va fd off wh w =
      Done (if 0 <=? SysLseek.offset s' then Ok (SysLseek.offset s') else Err EINVAL, w').
Proof.
  intros Hs. unfold UhyveFileHandleInner.lseek, UhyveFileHandleInner.lseek_ret, SysLseek.new.
  rewrite to_i32_total, unwrap_Some, !bind_ret.
  rewrite (uhyve_send_bind _ _ frame_pa) by done. rewrite Hs. simpl.
  destruct (0 <=? _); reflexivity.
Qed.

Lemma inner_drop_spec fd w :
    UhyveFileHandleInner.drop frame_va fd w =
      Done (tt, (sent UHYVE_PORT_CLOSE frame_pa (SysClose.new fd) w).2).
Proof.
  unfold UhyveFileHandleInner.drop.
  rewrite (uhyve_send_bind _ _ frame_pa) by done. reflexivity.
Qed.
End InnerFacts.

(** ** Against the uhyve host *)
Section UhyveInner.
Context `{Platform} `{HostFs}.
Variables (frame_va frame_pa : Z).
Hypothesis Harch : arch <> RiscV64.
Hypothesis Hframe : virtual_to_physical frame_va = Some frame_pa.
Hypothesis Hpv : port_value frame_pa = frame_pa.

(** C10: [read] hands the host the buffer's virtual address, which the
    host takes as a physical one: against the uhyve host, the bytes read
    land in guest physical memory at the buffer's virtual address,
    whatever [virtual_to_physical] maps the buffer to, and [read] returns
    the host's byte count.  The buffer reaches the data only where it is
    identity-mapped. *)
Theorem read_lands_at_virtual_address fd buf len (w : world) h' r data :
  i32_ok fd = true -> u64_ok buf = true -> u64_ok len = true ->
  buf + len <= frame_pa \/ frame_pa + Z.of_nat (wire_size SysRead.t) <= buf ->
  fs_serve (hst w) (ReqRead fd len) = (h', (r, data)) -> 0 <= r < 2 ^ 63 ->
  exists w', UhyveFileHandleInner.read frame_va fd buf len w = Done (Ok r, w') /\
    holds buf (take (Z.to_nat len) data) (mem w').
Proof.
  intros Hfd Hbuf Hlen Hd Hs Hr.
  assert (Hok : wire_ok (SysRead.new fd buf len) = true).
  { unfold wire_ok. cbn -[in_sint in_uint].
    change (8 * Z.of_nat 4) with 32. change (8 * Z.of_nat 8) with 64.
    rewrite Hfd, Hbuf, Hlen. apply andb_true_r. }
  pose proof (uhyve_sent_read frame_pa Hpv _ w Hok Hd) as Hsent.
  cbn [SysRead.fd SysRead.buf SysRead.len SysRead.new] in Hsent. cbv zeta in Hsent.
  match type of Hsent with context [fs_serve ?hh ?q] =>
    replace (fs_serve hh q) with (h', (r, data)) in Hsent by (symmetry; exact Hs) end.
  rewrite (wrap_s_small 64 r) in Hsent by lia.
  exists (sent UHYVE_PORT_READ frame_pa (SysRead.new fd buf len) w).2. rewrite Hsent. split.
  - unfold UhyveFileHandleInner.read, UhyveFileHandleInner.read_ret.
    rewrite (uhyve_send_bind _ _ frame_pa), Hsent by done. cbn [fst snd SysRead.ret].
    destruct (Z.leb_spec 0 r); [reflexivity|lia].
  - cbn [snd mem]. apply holds_store_out; [|apply holds_store].
    rewrite length_encode, length_take. apply in_uint_spec in Hlen. lia.
Qed.

(** C13: [write] reports the requested length whatever the host did: the
    structure has no result field and the host leaves it unchanged, so a
    partial or failed write is reported as complete. *)
Theorem write_reports_requested_len fd buf len w :
  i32_ok fd = true -> u64_ok buf = true -> 0 <= len < 2 ^ 63 ->
  UhyveFileHandleInner.write frame_va fd buf len w =
    Done (Ok len, (sent UHYVE_PORT_WRITE frame_pa (SysWrite.new fd buf len) w).2).
Proof.
  intros Hfd Hbuf Hlen.
  assert (Hok : wire_ok (SysWrite.new fd buf len) = true).
  { unfold wire_ok. cbn -[in_sint in_uint].
    change (8 * Z.of_nat 4) with 32. change (8 * Z.of_nat 8) with 64.
    rewrite Hfd, Hbuf, andb_true_r. apply in_uint_spec. lia. }
  rewrite (write_result frame_va frame_pa Harch Hframe fd buf len w
             (sent UHYVE_PORT_WRITE frame_pa (SysWrite.new fd buf len) w).1
             (sent UHYVE_PORT_WRITE frame_pa (SysWrite.new fd buf len) w).2)
    by apply surjective_pairing.
  rewrite (uhyve_sent_write frame_pa Hpv _ _ Hok).
  cbv zeta. match goal with |- context [fs_serve ?h ?q] => destruct (fs_serve h q) end. simpl.
  replace (in_sint 64 len) with true; [reflexivity|]. symmetry. apply in_sint_spec. lia.
Qed.

(** C14: [lseek] returns the offset the host computed for this request, not a
    position kept by the guest: a non-negative host result is the new
    offset, a negative one is [EINVAL]. *)
Theorem lseek_reports_host_offset fd off wh (w : world) :
  i32_ok fd = true -> isize_ok off = true ->
  let code := match wh with Set_ => 0 | Cur => 1 | End_ => 2 end in
  let r := (fs_serve (hst w) (ReqLseek fd off code)).2.1 in
  exists w', UhyveFileHandleInner.lseek frame_va fd off wh w =
    Done (if 0 <=? wrap_s 64 r then Ok (wrap_s 64 r) else Err EINVAL, w').
Proof.
  intros Hfd Hoff code r.
  assert (Hok : wire_ok (SysLseek.mk fd off code) = true).
  { unfold wire_ok. cbn -[in_sint in_uint].
    change (8 * Z.of_nat 4) with 32. change (8 * Z.of_nat 8) with 64.
    rewrite Hfd, Hoff. unfold code. destruct wh; reflexivity. }
  rewrite (lseek_result frame_va frame_pa Harch Hframe fd off wh w _ _ (surjective_pairing _)).
  rewrite (uhyve_sent_lseek frame_pa Hpv _ _ Hok). unfold r, code. cbv zeta. cbn [SysLseek.fd SysLseek.offset SysLseek.whence].
  match goal with |- context [fs_serve ?h ?q] => destruct (fs_serve h q) as [h' [r' d]] end.
  eexists. reflexivity.
Qed.
End UhyveInner.

(** The kernel's stack frame at 0x8000 on an identity-mapped x86_64; the
    host answers a read with -2 (ENOENT negated). *)
Lemma read_error_panics_witness :
  SysRead.ret (@sent x86_identity (@uhyve_host scripted_fs) _ _ UHYVE_PORT_READ 32768
                 (SysRead.new 3 65536 16) (empty_world [(-2, [])])).1 < 0 /\
  @UhyveFileHandleInner.read x86_identity (@uhyve_host scripted_fs) 32768 3 65536 16
    (empty_world [(-2, [])]) = Panic UnwrapNone.
Proof.
  split; [vm_compute; reflexivity|].
  eapply (@read_error_panics x86_identity (@uhyve_host scripted_fs) 32768 32768).
  - discriminate.
  - reflexivity.
  - apply surjective_pairing.
  - vm_compute. reflexivity.
Defined.
