(* ===== verification/Directory.v ===== *)
(** * The directory node [UhyveDirectory] (lines 230-305)

    The node is stateless.  [traverse_open] and [traverse_unlink] build an
    absolute path [String] from the remaining path components, let
    [SysOpen::new] / [SysUnlink::new] translate the address of its bytes,
    send the request and interpret the result; a positive descriptor from
    [open] becomes a [UhyveFileHandle] in a fresh [Arc<dyn
    ObjectInterface>].  The other operations of the [VfsNode] contract
    return [ENOSYS] without a hypercall.  The path [String]'s buffer lives
    at the virtual address [path_va] given by the allocator, the request
    structure at [frame_va] on the kernel stack. *)

From Stdlib Require Import Ascii String ZArith Lia.
From stdpp Require Import base list gmap.
From S2P Require Import Prelude Kernel Wire Transport HostFs Handle.

Open Scope Z_scope.

(** ** Path strings *)

(** The bytes of a string, as the [String]'s buffer holds them. *)
Definition bytes_of (s : string) : list Z :=
  map (fun c => Z.of_nat (nat_of_ascii c)) (list_ascii_of_string s).

Definition NUL : ascii := "000"%char.

(** [components.iter().map(|v| "/".to_owned() + v).collect()] *)
Fixpoint join_components (components : list string) : string :=
  match components with
  | [] => EmptyString
  | v :: vs => String.append (String "/"%char v) (join_components vs)
  end.

(** The path of [traverse_open]: ["/\0"] for no component. *)
Definition open_path (components : list string) : string :=
  match components with
  | [] => String "/"%char (String NUL EmptyString)
  | _ => join_components components
  end.

(** The path of [traverse_unlink]: ["/"] for no component. *)
Definition unlink_path (components : list string) : string :=
  match components with
  | [] => String "/"%char EmptyString
  | _ => join_components components
  end.

(** The host's reading of an absolute path: the byte strings between
    the slashes after the leading one (a reference parser). *)
Fixpoint split_at_slash (acc : list Z) (bs : list Z) : list (list Z) :=
  match bs with
  | [] => [rev acc]
  | b :: bs' => if b =? 47 then rev acc :: split_at_slash [] bs' else split_at_slash (b :: acc) bs'
  end.

Definition split_path (bs : list Z) : list (list Z) :=
  match bs with
  | b :: rest => if b =? 47 then split_at_slash [] rest else []
  | [] => []
  end.

Inductive NodeKind : Type := File | Directory.

Module UhyveDirectory.
Section Ops.
Context `{Platform} `{Host}.
Variables (frame_va path_va : Z).

(** The [String] is built in its heap buffer (physically contiguous). *)
Definition store_string (va : Z) (s : string) : St world unit :=
  modify (fun w => match virtual_to_physical va with
                   | Some pa => set_mem (store_bytes pa (bytes_of s) (mem w)) w
                   | None => w
                   end).

Definition get_kind : NodeKind := Directory.

Definition traverse_opendir (components : list string) : St world (result positive IoError) :=
  mret (Err ENOSYS).
Definition traverse_stat (components : list string) : St world (result unit IoError) :=
  mret (Err ENOSYS).
Definition traverse_lstat (components : list string) : St world (result unit IoError) :=
  mret (Err ENOSYS).
Definition traverse_rmdir (components : list string) : St world (result unit IoError) :=
  mret (Err ENOSYS).
Definition traverse_mkdir (components : list string) (mode : Z) : St world (result unit IoError) :=
  mret (Err ENOSYS).

(** [traverse_open] (lines 260-279); the result is the [Arc<dyn ObjectInterface>]. *)
Definition traverse_open (components : list string) (opt : OpenOption)
  : St world (result positive IoError) :=
  store_string path_va (open_path components);;
  req ← SysOpen.new path_va (bits opt) 0;
  sysopen ← uhyve_send UHYVE_PORT_OPEN frame_va req;
  if 0 <? SysOpen.ret sysopen then
    p ← UhyveFileHandle.new (SysOpen.ret sysopen);
    o ← Object.new p;
    mret (Ok o)
  else
    e ← unwrap (from_i32 (SysOpen.ret sysopen));
    mret (Err e).

(** [traverse_unlink] (lines 281-296). *)
Definition traverse_unlink (components : list string) : St world (result unit IoError) :=
  store_string path_va (unlink_path components);;
  req ← SysUnlink.new path_va;
  sysunlink ← uhyve_send UHYVE_PORT_UNLINK frame_va req;
  if SysUnlink.ret sysunlink =? 0 then mret (Ok tt)
  else
    e ← unwrap (from_i32 (SysUnlink.ret sysunlink));
    mret (Err e).
End Ops.
End UhyveDirectory.

(** ** Running [traverse_open] and [traverse_unlink] *)
Section DirectoryFacts.
Context `{Platform} `{Host}.
Variables (frame_va frame_pa path_va path_pa : Z).
Hypothesis Harch : arch <> RiscV64.
Hypothesis Hframe : virtual_to_physical frame_va = Some frame_pa.
Hypothesis Hpath : virtual_to_physical path_va = Some path_pa.

(** The world once the path [String] is in memory. *)
Definition with_path (s : string) (w : world) : world :=
  set_mem (store_bytes path_pa (bytes_of s) (mem w)) w.

Lemma traverse_open_sent components opt w :
  UhyveDirectory.traverse_open frame_va path_va components opt w =
    let '(s', w2) := sent UHYVE_PORT_OPEN frame_pa
                       (SysOpen.mk path_pa (bits opt) 0 (-1))
                       (with_path (open_path components) w) in
    (if 0 <? SysOpen.ret s' then
       p ← UhyveFileHandle.new (SysOpen.ret s');
       o ← Object.new p;
       mret (Ok o)
     else
       e ← unwrap (from_i32 (SysOpen.ret s'));
       mret (Err e)) w2.
Proof.
  unfold UhyveDirectory.traverse_open, UhyveDirectory.store_string, SysOpen.new.
  unfold mbind at 1, St_bind at 1. unfold modify. rewrite Hpath.
  unfold mbind at 1, St_bind at 1. simpl.
  rewrite (uhyve_send_bind _ _ frame_pa) by done.
  unfold with_path. destruct (sent _ _ _ _). reflexivity.
Qed.

(** C11: A positive descriptor becomes a fresh handle: a new [Arc<dyn
    ObjectInterface>] holding the only reference to a new inner
    allocation that owns the descriptor; no further port write. *)
Lemma traverse_open_success components opt w s' w2 :
  sent UHYVE_PORT_OPEN frame_pa (SysOpen.mk path_pa (bits opt) 0 (-1))
    (with_path (open_path components) w) = (s', w2) ->
  0 < SysOpen.ret s' ->
  exists o p w3,
    UhyveDirectory.traverse_open frame_va path_va components opt w = Done (Ok o, w3) /\
    handles w3 !! o = Some (HandleCell p 1) /\
    inners w3 !! p = Some (InnerCell (SysOpen.ret s') 1) /\
    handles w2 !! o = None /\ inners w2 !! p = None /\ (p ∉ (freed w2).*1) /\
    trace w3 = trace w2 /\ freed w3 = freed w2.
Proof.
  intros Hs Hr. rewrite traverse_open_sent, Hs.
  destruct (Z.ltb_spec 0 (SysOpen.ret s')); [|lia].
  set (p := fresh_inner w2).
  set (w3 := set_inners (<[p := InnerCell (SysOpen.ret s') 1]> (inners w2)) w2).
  set (o := fresh (dom (handles w3))).
  exists o, p, (set_handles (<[o := HandleCell p 1]> (handles w3)) w3).
  assert (Hp : p ∉ dom (inners w2) ∪ list_to_set (freed w2).*1) by apply is_fresh.
  assert (Ho : o ∉ dom (handles w3)) by apply is_fresh.
  split; [reflexivity|]. simpl.
  rewrite lookup_insert_eq, lookup_insert_eq.
  repeat split; try done.
  - by apply not_elem_of_dom.
  - apply not_elem_of_dom. set_solver.
  - set_solver.
Qed.

(** C5: Every failure the host reports for [open] panics: the error numbers
    are positive and [from_i32] of a non-positive result is [None]. *)
Lemma traverse_open_failure_panics components opt w s' w2 :
  sent UHYVE_PORT_OPEN frame_pa (SysOpen.mk path_pa (bits opt) 0 (-1))
    (with_path (open_path components) w) = (s', w2) ->
  SysOpen.ret s' <= 0 ->
  UhyveDirectory.traverse_open frame_va path_va components opt w = Panic UnwrapNone.
Proof.
  intros Hs Hr. rewrite traverse_open_sent, Hs.
  destruct (Z.ltb_spec 0 (SysOpen.ret s')); [lia|].
  unfold from_i32. rewrite from_i64_nonpos by done. reflexivity.
Qed.

Lemma traverse_unlink_sent components w :
  UhyveDirectory.traverse_unlink frame_va path_va components w =
    let '(s', w2) := sent UHYVE_PORT_UNLINK frame_pa (SysUnlink.mk path_pa (-1))
                       (with_path (unlink_path components) w) in
    (if SysUnlink.ret s' =? 0 then mret (Ok tt)
     else e ← unwrap (from_i32 (SysUnlink.ret s')); mret (Err e)) w2.
Proof.
  unfold UhyveDirectory.traverse_unlink, UhyveDirectory.store_string, SysUnlink.new.
  unfold mbind at 1, St_bind at 1. unfold modify. rewrite Hpath.
  unfold mbind at 1, St_bind at 1. simpl.
  rewrite (uhyve_send_bind _ _ frame_pa) by done.
  unfold with_path. destruct (sent _ _ _ _). reflexivity.
Qed.

(** [unlink]: 0 is success, any other result goes through
    [from_i32(..).unwrap()]. *)
Lemma traverse_unlink_result components w s' w2 :
  sent UHYVE_PORT_UNLINK frame_pa (SysUnlink.mk path_pa (-1))
    (with_path (unlink_path components) w) = (s', w2) ->
  UhyveDirectory.traverse_unlink frame_va path_va components w =
    if SysUnlink.ret s' =? 0 then Done (Ok tt, w2)
    else match from_i32 (SysUnlink.ret s') with
         | Some e => Done (Err e, w2)
         | None => Panic UnwrapNone
         end.
Proof.
  intros Hs. rewrite traverse_unlink_sent, Hs.
  destruct (_ =? 0); [reflexivity|]. run. destruct (from_i32 _); reflexivity.
Qed.

(** C6: Every failure the host reports for [unlink], a negated error
    number, panics instead of returning an [IoError]: the error numbers
    are positive and [from_i32] of a negative result is [None]. *)
Lemma traverse_unlink_error_panics components w s' w2 :
  sent UHYVE_PORT_UNLINK frame_pa (SysUnlink.mk path_pa (-1))
    (with_path (unlink_path components) w) = (s', w2) ->
  SysUnlink.ret s' < 0 ->
  UhyveDirectory.traverse_unlink frame_va path_va components w = Panic UnwrapNone.
Proof.
  intros Hs Hr. rewrite (traverse_unlink_result components w s' w2 Hs).
  destruct (Z.eqb_spec (SysUnlink.ret s') 0); [lia|].
  unfold from_i32. rewrite from_i64_nonpos by lia. reflexivity.
Qed.
End DirectoryFacts.


(** ** Path strings: bytes, joins and what the host reads *)

Lemma bytes_of_append s1 s2 :
  bytes_of (String.append s1 s2) = bytes_of s1 ++ bytes_of s2.
Proof. induction s1 as [|c s1 IH]; [done|]. unfold bytes_of in *. simpl. by rewrite IH. Qed.

Lemma bytes_of_all_bytes s : all_bytes (bytes_of s).
Proof.
  induction s as [|c s IH]; constructor; [|done].
  pose proof (nat_ascii_bounded c). unfold is_byte. apply andb_true_iff. lia.
Qed.

Lemma bytes_of_join v vs :
  bytes_of (join_components (v :: vs)) = 47 :: bytes_of v ++ bytes_of (join_components vs).
Proof. simpl. rewrite bytes_of_append. reflexivity. Qed.

Lemma join_no_nul components :
  Forall (fun v => 0 ∉ bytes_of v) components -> 0 ∉ bytes_of (join_components components).
Proof.
  induction 1 as [|v vs Hv _ IH]; [set_solver|].
  rewrite bytes_of_join. set_solver.
Qed.

Lemma split_at_slash_app acc cs rest :
  47 ∉ cs -> split_at_slash acc (cs ++ rest) = split_at_slash (rev cs ++ acc) rest.
Proof.
  revert acc. induction cs as [|c cs IH]; intros acc Hc; [done|].
  simpl. destruct (Z.eqb_spec c 47); [set_solver|].
  rewrite IH by set_solver. by rewrite <- app_assoc.
Qed.

Lemma split_at_slash_join acc components :
  Forall (fun v => 47 ∉ bytes_of v) components ->
  split_at_slash acc (bytes_of (join_components components)) = rev acc :: map bytes_of components.
Proof.
  revert acc. induction components as [|v vs IH]; intros acc Hf; [done|].
  apply Forall_cons in Hf as [Hv Hvs].
  rewrite bytes_of_join. simpl. rewrite split_at_slash_app, app_nil_r, IH by done.
  by rewrite rev_involutive.
Qed.

(** C20: Round trip: the components are recovered from the path [open] and
    [unlink] build, when no component contains a slash. *)
Theorem split_open_path components :
  components <> [] -> Forall (fun v => 47 ∉ bytes_of v) components ->
  split_path (bytes_of (open_path components)) = map bytes_of components.
Proof.
  intros Hne Hf. destruct components as [|v vs]; [done|]. unfold open_path.
  apply Forall_cons in Hf as [Hv Hvs].
  rewrite bytes_of_join. simpl.
  rewrite split_at_slash_app, app_nil_r, split_at_slash_join, rev_involutive by done.
  reflexivity.
Qed.

(** C7: For at least one component, the path has no NUL terminator: the host
    reads the path followed by the bytes after the [String]'s buffer, up
    to the first NUL. *)
Theorem open_path_host_read components pa m :
  components <> [] -> Forall (fun v => 0 ∉ bytes_of v) components ->
  (length (bytes_of (open_path components)) <= PATH_MAX)%nat ->
  load_cstr (store_bytes pa (bytes_of (open_path components)) m) pa PATH_MAX =
    bytes_of (open_path components) ++
    load_cstr m (pa + Z.of_nat (length (bytes_of (open_path components))))
      (PATH_MAX - length (bytes_of (open_path components))).
Proof.
  intros Hne Hf Hlen. destruct components as [|v vs]; [done|].
  apply load_cstr_store; [apply bytes_of_all_bytes | by apply join_no_nul | done].
Qed.

(** C28: The unlink path is never NUL-terminated, not even the root path
    ["/"] (open's is ["/\0"]): for every list of components without NUL,
    the host reads the path followed by the bytes after the [String]'s
    buffer, up to the first NUL. *)
Theorem unlink_path_host_read components pa m :
  Forall (fun v => 0 ∉ bytes_of v) components ->
  (length (bytes_of (unlink_path components)) <= PATH_MAX)%nat ->
  load_cstr (store_bytes pa (bytes_of (unlink_path components)) m) pa PATH_MAX =
    bytes_of (unlink_path components) ++
    load_cstr m (pa + Z.of_nat (length (bytes_of (unlink_path components))))
      (PATH_MAX - length (bytes_of (unlink_path components))).
Proof.
  intros Hf Hlen. apply load_cstr_store; [apply bytes_of_all_bytes| |done].
  destruct components as [|v vs]; [cbn; set_solver|by apply join_no_nul].
Qed.

(** With no component the path is ["/\0"] and the host reads ["/"]. *)
Lemma open_path_root_host_read pa m fuel :
  (2 <= fuel)%nat ->
  load_cstr (store_bytes pa (bytes_of (open_path [])) m) pa fuel = [47].
Proof.
  intros Hf. destruct fuel as [|[|f]]; [lia|lia|].
  cbn [open_path bytes_of list_ascii_of_string map nat_of_ascii].
  cbn [load_cstr]. rewrite load_store_head by reflexivity.
  replace (load _ (pa + 1)) with 0; [reflexivity|].
  unfold load. cbn [store_bytes]. rewrite lookup_insert_eq. reflexivity.
Qed.
