(* ===== verification/Lifecycle.v ===== *)
(** * Handle lifecycle: reference counts and close-exactly-once

    The virtual file system's view of this bridge: it holds references
    to [Arc<dyn ObjectInterface>] handles ([refs], a multiset of heap
    pointers), opens files through [UhyveDirectory.traverse_open], clones
    and duplicates handles, calls [read]/[write]/[lseek] and drops
    references.  [step] is the transition relation of these calls, each
    one a completed run of the sequential model.  The invariant [inv]
    ties the strong counts to the references that exist, and the ghost
    log of freed inner allocations to the [Close] requests in the trace;
    from it follow: no operation meets a dangling handle, every inner
    allocation sends [Close] at most once, and dropping all references
    closes every descriptor opened, each exactly once. *)

From Stdlib Require Import String ZArith Lia.
From stdpp Require Import base list gmap.
From S2P Require Import Prelude Kernel Wire Transport HostFs Handle Directory.

Open Scope Z_scope.

(** ** Computations that leave the heap, the log and the trace alone *)
Section Effects.
Context `{Platform} `{Host}.

Definition neutral {A} (m : St world A) : Prop :=
  forall w a w', m w = Done (a, w') ->
  inners w' = inners w /\ handles w' = handles w /\ freed w' = freed w /\ trace w' = trace w.

(** One port write to [port] and nothing else visible. *)
Definition io_step (port : Z) (w w' : world) : Prop :=
  inners w' = inners w /\ handles w' = handles w /\ freed w' = freed w /\
  exists v req, trace w' = trace w ++ [HC port v req].

Lemma neutral_ret {A} (a : A) : neutral (mret a).
Proof. intros w b w' [= _ <-]. done. Qed.

Lemma neutral_unwrap {A} (o : option A) : neutral (unwrap o).
Proof. destruct o; [apply neutral_ret | intros ???; discriminate]. Qed.

Lemma neutral_bind {A B} (m : St world A) (k : A -> St world B) :
  neutral m -> (forall a, neutral (k a)) -> neutral (m ≫= k).
Proof.
  intros Hm Hk w b w'' Hd. inv_bind Hd.
  destruct (Hm _ _ _ Hd0) as (? & ? & ? & ?). destruct (Hk _ _ _ _ Hd) as (? & ? & ? & ?).
  repeat split; congruence.
Qed.

Lemma neutral_inner_at p : neutral (inner_at p).
Proof. intros w c w' Hd. unfold inner_at in Hd. destruct (inners w !! p); by simplify_eq. Qed.

Lemma neutral_handle_at o : neutral (handle_at o).
Proof. intros w c w' Hd. unfold handle_at in Hd. destruct (handles w !! o); by simplify_eq. Qed.

Lemma neutral_store_string va s : neutral (UhyveDirectory.store_string va s).
Proof.
  intros w a w' Hd. unfold UhyveDirectory.store_string, modify in Hd.
  injection Hd as _ <-. destruct (virtual_to_physical va); done.
Qed.

Lemma neutral_lseek_new fd off wh : neutral (SysLseek.new fd off wh).
Proof. apply neutral_bind; [apply neutral_unwrap | intros; apply neutral_ret]. Qed.

Lemma neutral_open_new name flags mode : neutral (SysOpen.new name flags mode).
Proof. apply neutral_bind; [apply neutral_unwrap | intros; apply neutral_ret]. Qed.

Lemma neutral_unlink_new name : neutral (SysUnlink.new name).
Proof. apply neutral_bind; [apply neutral_unwrap | intros; apply neutral_ret]. Qed.

Lemma io_step_neutral_l port {A} (m : St world A) w a w1 w2 :
  neutral m -> m w = Done (a, w1) -> io_step port w1 w2 -> io_step port w w2.
Proof.
  intros Hm Hd (? & ? & ? & v & r & Ht). destruct (Hm _ _ _ Hd) as (? & ? & ? & ?).
  repeat split; try congruence. exists v, r. congruence.
Qed.

Lemma io_step_neutral_r port {A} (m : St world A) w a w1 w2 :
  io_step port w w1 -> neutral m -> m w1 = Done (a, w2) -> io_step port w w2.
Proof.
  intros (? & ? & ? & v & r & Ht) Hm Hd. destruct (Hm _ _ _ Hd) as (? & ? & ? & ?).
  repeat split; try congruence. exists v, r. congruence.
Qed.

(** [uhyve_send] followed by a neutral continuation is one port write. *)
Lemma send_io {T B} `{Wire T} port va (d : T) (k : T -> St world B) w b w' :
  (forall x, neutral (k x)) ->
  (uhyve_send port va d ≫= k) w = Done (b, w') -> io_step port w w'.
Proof.
  intros Hk Hd. inv_bind Hd.
  destruct (uhyve_send_Done _ _ _ _ _ _ Hd0) as (pa & _ & _ & Hs).
  destruct (sent_heap _ _ _ _ _ _ Hs) as (? & ? & ? & ?).
  eapply io_step_neutral_r; [|apply Hk|exact Hd].
  repeat split; try done. eauto.
Qed.
End Effects.

Ltac neutral_tac :=
  repeat first [ progress intros | apply neutral_ret | apply neutral_unwrap
               | apply neutral_bind | case_match
               | progress unfold UhyveFileHandleInner.read_ret, UhyveFileHandleInner.write_ret,
                   UhyveFileHandleInner.lseek_ret ].

Section OpEffects.
Context `{Platform} `{Host}.
Variable frame_va : Z.

Lemma inner_read_io fd b l w r w' :
  UhyveFileHandleInner.read frame_va fd b l w = Done (r, w') -> io_step UHYVE_PORT_READ w w'.
Proof. apply send_io. neutral_tac. Qed.

Lemma inner_write_io fd b l w r w' :
  UhyveFileHandleInner.write frame_va fd b l w = Done (r, w') -> io_step UHYVE_PORT_WRITE w w'.
Proof. apply send_io. neutral_tac. Qed.

Lemma inner_lseek_io fd off wh w r w' :
  UhyveFileHandleInner.lseek frame_va fd off wh w = Done (r, w') -> io_step UHYVE_PORT_LSEEK w w'.
Proof.
  intros Hd. unfold UhyveFileHandleInner.lseek, UhyveFileHandleInner.lseek_ret in Hd. inv_bind Hd.
  eapply io_step_neutral_l; [apply neutral_lseek_new|exact Hd0|].
  revert Hd. apply send_io. neutral_tac.
Qed.

(** The inner destructor: one [Close] port write carrying the descriptor. *)
Lemma inner_drop_close fd w w' :
  UhyveFileHandleInner.drop frame_va fd w = Done (tt, w') ->
  inners w' = inners w /\ handles w' = handles w /\ freed w' = freed w /\
  exists v, trace w' = trace w ++ [HC UHYVE_PORT_CLOSE v (encode (SysClose.new fd))].
Proof.
  intros Hd. unfold UhyveFileHandleInner.drop in Hd. inv_bind Hd.
  destruct (uhyve_send_Done _ _ _ _ _ _ Hd0) as (pa & _ & _ & Hs).
  destruct (sent_heap _ _ _ _ _ _ Hs) as (? & ? & ? & ?).
  injection Hd as <-. repeat split; try done. eauto.
Qed.

Lemma handle_op_io {A} port (op : Z -> St world A) o w r w' :
  (forall fd w1 r1 w1', op fd w1 = Done (r1, w1') -> io_step port w1 w1') ->
  (c ← handle_at o; c' ← inner_at (hc_inner c); op (ic_fd c')) w = Done (r, w') ->
  io_step port w w'.
Proof.
  intros Hop Hd. inv_bind Hd. eapply io_step_neutral_l; [apply neutral_handle_at|exact Hd0|].
  inv_bind Hd. eapply io_step_neutral_l; [apply neutral_inner_at|exact Hd1|]. eauto.
Qed.

Lemma object_read_io o b l w r w' :
  Object.read frame_va o b l w = Done (r, w') -> io_step UHYVE_PORT_READ w w'.
Proof.
  unfold Object.read, UhyveFileHandle.read.
  apply (handle_op_io _ (fun fd => UhyveFileHandleInner.read frame_va fd b l)).
  intros. by eapply inner_read_io.
Qed.

Lemma object_write_io o b l w r w' :
  Object.write frame_va o b l w = Done (r, w') -> io_step UHYVE_PORT_WRITE w w'.
Proof.
  unfold Object.write, UhyveFileHandle.write.
  apply (handle_op_io _ (fun fd => UhyveFileHandleInner.write frame_va fd b l)).
  intros. by eapply inner_write_io.
Qed.

Lemma object_lseek_io o off wh w r w' :
  Object.lseek frame_va o off wh w = Done (r, w') -> io_step UHYVE_PORT_LSEEK w w'.
Proof.
  unfold Object.lseek, UhyveFileHandle.lseek.
  apply (handle_op_io _ (fun fd => UhyveFileHandleInner.lseek frame_va fd off wh)).
  intros. by eapply inner_lseek_io.
Qed.
End OpEffects.

Section HeapEffects.
Context `{Platform} `{Host}.
Variables (frame_va path_va : Z).

Lemma object_clone_Done o w w' :
  Object.clone o w = Done (tt, w') ->
  exists c, handles w !! o = Some c /\
    w' = set_handles (<[o := HandleCell (hc_inner c) (S (hc_strong c))]> (handles w)) w.
Proof.
  unfold Object.clone, handle_at, mbind, St_bind, modify.
  destruct (handles w !! o) as [c|]; [|discriminate]. intros [= <-]. eauto.
Qed.

Lemma object_dup_Done o w o' w' :
  Object.dup o w = Done (o', w') ->
  exists c ic, handles w !! o = Some c /\ inners w !! hc_inner c = Some ic /\
    o' = fresh (dom (handles w)) /\
    w' = set_handles (<[o' := HandleCell (hc_inner c) 1]> (handles w))
           (set_inners (<[hc_inner c := InnerCell (ic_fd ic) (S (ic_strong ic))]> (inners w)) w).
Proof.
  unfold Object.dup, UhyveFileHandle.clone, Object.new, handle_at, inner_at,
    mbind, St_bind, modify.
  destruct (handles w !! o) as [c|] eqn:Ec; [|discriminate].
  destruct (inners w !! hc_inner c) as [ic|] eqn:Ei; [|discriminate].
  intros [= <- <-]. exists c, ic. done.
Qed.

Lemma handle_drop_Done p w w' :
  UhyveFileHandle.drop frame_va p w = Done (tt, w') ->
  exists ic, inners w !! p = Some ic /\
    if decide (ic_strong ic <= 1)%nat then
      inners w' = delete p (inners w) /\ handles w' = handles w /\
      freed w' = freed w ++ [(p, ic_fd ic)] /\
      exists v, trace w' = trace w ++ [HC UHYVE_PORT_CLOSE v (encode (SysClose.new (ic_fd ic)))]
    else w' = set_inners (<[p := InnerCell (ic_fd ic) (pred (ic_strong ic))]> (inners w)) w.
Proof.
  unfold UhyveFileHandle.drop. intros Hd. inv_bind Hd.
  unfold inner_at in Hd0. destruct (inners w !! p) as [ic|] eqn:E; [|discriminate].
  injection Hd0 as <- <-. exists ic. split; [done|].
  destruct (decide _).
  - inv_bind Hd. destruct a.
    destruct (inner_drop_close _ _ _ _ Hd0) as (Hi & Hh & Hf & v & Ht).
    unfold modify in Hd. injection Hd as <-. simpl.
    rewrite Hi, Hh, Hf. eauto.
  - unfold modify in Hd. by injection Hd as <-.
Qed.

Lemma object_drop_Done o w w' :
  Object.drop frame_va o w = Done (tt, w') ->
  exists c, handles w !! o = Some c /\
    if decide (hc_strong c <= 1)%nat then
      UhyveFileHandle.drop frame_va (hc_inner c) (set_handles (delete o (handles w)) w) = Done (tt, w')
    else w' = set_handles (<[o := HandleCell (hc_inner c) (pred (hc_strong c))]> (handles w)) w.
Proof.
  unfold Object.drop. intros Hd. inv_bind Hd.
  unfold handle_at in Hd0. destruct (handles w !! o) as [c|] eqn:E; [|discriminate].
  injection Hd0 as <- <-. exists c. split; [done|].
  destruct (decide _).
  - inv_bind Hd. unfold modify in Hd0. injection Hd0 as <- <-. exact Hd.
  - unfold modify in Hd. by injection Hd as <-.
Qed.

Lemma open_Ok_Done comps opt w o w' :
  UhyveDirectory.traverse_open frame_va path_va comps opt w = Done (Ok o, w') ->
  exists w1 r, io_step UHYVE_PORT_OPEN w w1 /\ o = fresh (dom (handles w1)) /\
    w' = set_handles (<[o := HandleCell (fresh_inner w1) 1]> (handles w1))
           (set_inners (<[fresh_inner w1 := InnerCell r 1]> (inners w1)) w1).
Proof.
  unfold UhyveDirectory.traverse_open. intros Hd.
  apply bind_Done_inv in Hd as (u & wa & Hst & Hd).
  apply bind_Done_inv in Hd as (req & wb & Hnew & Hd).
  apply bind_Done_inv in Hd as (so & wc & Hsend & Hd).
  destruct (uhyve_send_Done _ _ _ _ _ _ Hsend) as (pa & _ & _ & Hs).
  destruct (sent_heap _ _ _ _ _ _ Hs) as (Hi & Hh & Hf & Ht).
  destruct (0 <? SysOpen.ret so).
  2:{ apply bind_Done_inv in Hd as (e & wd & _ & Hd). discriminate. }
  unfold UhyveFileHandle.new, Object.new, mbind, St_bind in Hd.
  injection Hd as <- <-. exists wc, (SysOpen.ret so). split; [|done].
  eapply io_step_neutral_l; [apply neutral_store_string|exact Hst|].
  eapply io_step_neutral_l; [apply neutral_open_new|exact Hnew|].
  repeat split; try done. eauto.
Qed.

Lemma open_Err_io comps opt w e w' :
  UhyveDirectory.traverse_open frame_va path_va comps opt w = Done (Err e, w') ->
  io_step UHYVE_PORT_OPEN w w'.
Proof.
  unfold UhyveDirectory.traverse_open. intros Hd.
  apply bind_Done_inv in Hd as (u & wa & Hst & Hd).
  eapply io_step_neutral_l; [apply neutral_store_string|exact Hst|].
  apply bind_Done_inv in Hd as (req & wb & Hnew & Hd).
  eapply io_step_neutral_l; [apply neutral_open_new|exact Hnew|].
  apply bind_Done_inv in Hd as (so & wc & Hsend & Hd).
  destruct (uhyve_send_Done _ _ _ _ _ _ Hsend) as (pa & _ & _ & Hs).
  destruct (sent_heap _ _ _ _ _ _ Hs) as (Hi & Hh & Hf & Ht).
  destruct (0 <? SysOpen.ret so).
  - unfold UhyveFileHandle.new, Object.new, mbind, St_bind in Hd. discriminate.
  - apply bind_Done_inv in Hd as (e' & wd & Hu & Hd).
    destruct (neutral_unwrap _ _ _ _ Hu) as (? & ? & ? & ?).
    injection Hd as _ <-. repeat split; try congruence. exists (port_value pa), (encode req). congruence.
Qed.

Lemma unlink_io comps w r w' :
  UhyveDirectory.traverse_unlink frame_va path_va comps w = Done (r, w') ->
  io_step UHYVE_PORT_UNLINK w w'.
Proof.
  unfold UhyveDirectory.traverse_unlink. intros Hd.
  inv_bind Hd. eapply io_step_neutral_l; [apply neutral_store_string|exact Hd0|].
  inv_bind Hd. eapply io_step_neutral_l; [apply neutral_unlink_new|exact Hd1|].
  revert Hd. apply send_io. neutral_tac.
Qed.
End HeapEffects.

(** ** References, holders and the [Close] log *)

(** The VFS's references: a multiset of [Arc<dyn ObjectInterface>] pointers. *)
Record config `{Host} : Type := Cfg { cw : world; refs : list positive }.
Arguments config {_}.
Arguments Cfg {_} _ _.

Fixpoint remove_one (o : positive) (l : list positive) : list positive :=
  match l with
  | [] => []
  | x :: l' => if decide (x = o) then l' else x :: remove_one o l'
  end.

Definition occ (o : positive) (l : list positive) : nat := length (filter (fun x => x = o) l).

(** The handles that hold a reference to inner allocation [p]. *)
Definition holders `{Host} (w : world) (p : positive) : nat :=
  size (filter (fun kv : positive * handle_cell => hc_inner kv.2 = p) (handles w)).

(** The requests of the [Close] port writes, in order. *)
Definition closes (tr : list hcall) : list (list Z) :=
  hc_req <$> filter (fun e => hc_port e = UHYVE_PORT_CLOSE) tr.

Lemma occ_app_one o x l : occ o (l ++ [x]) = (occ o l + if decide (x = o) then 1 else 0)%nat.
Proof.
  unfold occ. rewrite filter_app, length_app, filter_cons, filter_nil.
  case_decide; simpl; lia.
Qed.

Lemma occ_cons o y l : occ o (y :: l) = ((if decide (y = o) then 1 else 0) + occ o l)%nat.
Proof. unfold occ. rewrite filter_cons. case_decide; simpl; lia. Qed.

Lemma occ_pos o l : o ∈ l -> (0 < occ o l)%nat.
Proof.
  induction l as [|y l IH]; intros Ho; [set_solver|]. rewrite occ_cons.
  case_decide; [lia|]. assert (o ∈ l) by set_solver. specialize (IH H0). lia.
Qed.

Lemma occ_remove_one o x l :
  x ∈ l -> occ o (remove_one x l) = (occ o l - if decide (x = o) then 1 else 0)%nat.
Proof.
  induction l as [|y l IH]; intros Hx; [set_solver|]. simpl remove_one.
  destruct (decide (y = x)) as [->|Hne].
  - rewrite occ_cons. case_decide; lia.
  - assert (Hl : x ∈ l) by set_solver. rewrite !occ_cons, IH by done.
    destruct (decide (x = o)) as [->|]; [pose proof (occ_pos o l Hl)|]; case_decide; lia.
Qed.

Lemma closes_app_other tr port v r :
  port <> UHYVE_PORT_CLOSE -> closes (tr ++ [HC port v r]) = closes tr.
Proof.
  intros Hp. unfold closes. rewrite filter_app, filter_cons, filter_nil.
  case_decide; [done|]. by rewrite app_nil_r.
Qed.

Lemma closes_app_close tr v r : closes (tr ++ [HC UHYVE_PORT_CLOSE v r]) = closes tr ++ [r].
Proof.
  unfold closes. rewrite filter_app, filter_cons, filter_nil, fmap_app.
  case_decide; [done|]. simpl in *. congruence.
Qed.

Section Holders.
Context `{Host}.

Lemma holders_insert_new w o p q s :
  handles w !! o = None ->
  holders (set_handles (<[o := HandleCell p s]> (handles w)) w) q =
    (holders w q + if decide (p = q) then 1 else 0)%nat.
Proof.
  intros Ho. unfold holders. simpl. case_decide as Hpq.
  - rewrite map_filter_insert_True by done. rewrite map_size_insert_None; [lia|].
    by apply map_lookup_filter_None_2; left.
  - rewrite map_filter_insert_False by done. rewrite delete_id by done. lia.
Qed.

Lemma holders_insert_same w o c s q :
  handles w !! o = Some c ->
  holders (set_handles (<[o := HandleCell (hc_inner c) s]> (handles w)) w) q = holders w q.
Proof.
  intros Ho. unfold holders. simpl. destruct (decide (hc_inner c = q)) as [Hq|Hq].
  - rewrite map_filter_insert_True by done. apply map_size_insert_Some.
    exists c. by apply map_lookup_filter_Some.
  - rewrite map_filter_insert_False by done. rewrite map_filter_delete.
    rewrite delete_id; [done|]. apply map_lookup_filter_None. right. naive_solver.
Qed.

Lemma holders_delete w o c q :
  handles w !! o = Some c ->
  holders (set_handles (delete o (handles w)) w) q =
    (holders w q - if decide (hc_inner c = q) then 1 else 0)%nat.
Proof.
  intros Ho. unfold holders. simpl. rewrite map_filter_delete. case_decide as Hq.
  - rewrite map_size_delete_Some; [lia|]. exists c. by apply map_lookup_filter_Some.
  - rewrite delete_id; [lia|]. apply map_lookup_filter_None. right. naive_solver.
Qed.

Lemma holders_set_inners w m q : holders (set_inners m w) q = holders w q.
Proof. reflexivity. Qed.
End Holders.

(** ** The VFS's calls as a transition relation *)
Section Steps.
Context `{Platform} `{Host}.
Variables (frame_va path_va : Z).

Inductive step : config -> config -> Prop :=
  | step_open c comps opt o w' :
      UhyveDirectory.traverse_open frame_va path_va comps opt (cw c) = Done (Ok o, w') ->
      step c (Cfg w' (refs c ++ [o]))
  | step_open_err c comps opt e w' :
      UhyveDirectory.traverse_open frame_va path_va comps opt (cw c) = Done (Err e, w') ->
      step c (Cfg w' (refs c))
  | step_unlink c comps r w' :
      UhyveDirectory.traverse_unlink frame_va path_va comps (cw c) = Done (r, w') ->
      step c (Cfg w' (refs c))
  | step_clone c o w' :
      o ∈ refs c -> Object.clone o (cw c) = Done (tt, w') -> step c (Cfg w' (refs c ++ [o]))
  | step_dup c o o' w' :
      o ∈ refs c -> Object.dup o (cw c) = Done (o', w') -> step c (Cfg w' (refs c ++ [o']))
  | step_drop c o w' :
      o ∈ refs c -> Object.drop frame_va o (cw c) = Done (tt, w') ->
      step c (Cfg w' (remove_one o (refs c)))
  | step_read c o b l r w' :
      o ∈ refs c -> Object.read frame_va o b l (cw c) = Done (r, w') -> step c (Cfg w' (refs c))
  | step_write c o b l r w' :
      o ∈ refs c -> Object.write frame_va o b l (cw c) = Done (r, w') -> step c (Cfg w' (refs c))
  | step_lseek c o off wh r w' :
      o ∈ refs c -> Object.lseek frame_va o off wh (cw c) = Done (r, w') -> step c (Cfg w' (refs c)).

(** A fresh kernel: no handle, nothing closed, no reference held. *)
Definition initial (c : config) : Prop :=
  inners (cw c) = ∅ /\ handles (cw c) = ∅ /\ freed (cw c) = [] /\
  closes (trace (cw c)) = [] /\ refs c = [].

Definition reachable (c : config) : Prop := exists c0, initial c0 /\ rtc step c0 c.
End Steps.

(** ** The invariant *)
Section Invariant.
Context `{Host}.

Definition close_req (pf : positive * Z) : list Z := encode (SysClose.new pf.2).

Record inv (c : config) : Prop := {
  inv_refs : forall o, occ o (refs c) =
    match handles (cw c) !! o with Some hc => hc_strong hc | None => O end;
  inv_handle_pos : forall o hc, handles (cw c) !! o = Some hc -> (0 < hc_strong hc)%nat;
  inv_inner : forall p, match inners (cw c) !! p with
    | Some ic => ic_strong ic = holders (cw c) p /\ (0 < ic_strong ic)%nat
    | None => holders (cw c) p = O
    end;
  inv_freed_nodup : NoDup (freed (cw c)).*1;
  inv_freed_dead : forall p, p ∈ (freed (cw c)).*1 -> inners (cw c) !! p = None;
  inv_closes : closes (trace (cw c)) = close_req <$> freed (cw c)
}.

Lemma inv_initial c : initial c -> inv c.
Proof.
  intros (Hi & Hh & Hf & Hc & Hr). split.
  - intros o. rewrite Hr, Hh. reflexivity.
  - intros o hc. rewrite Hh. done.
  - intros p. rewrite Hi. simpl. unfold holders. rewrite Hh. reflexivity.
  - rewrite Hf. constructor.
  - intros p. rewrite Hf. set_solver.
  - rewrite Hc, Hf. reflexivity.
Qed.

(** A port write other than [Close] keeps the invariant. *)
Lemma inv_io port w w' rs :
  io_step port w w' -> port <> UHYVE_PORT_CLOSE -> inv (Cfg w rs) -> inv (Cfg w' rs).
Proof.
  intros (Hi & Hh & Hf & v & r & Ht) Hp [I1 I2 I3 I4 I5 I6]. simpl in *. split; simpl.
  - intros o. rewrite Hh. apply I1.
  - intros o hc. rewrite Hh. apply I2.
  - intros p. unfold holders in *. rewrite Hi, Hh. apply I3.
  - by rewrite Hf.
  - intros p. rewrite Hf, Hi. apply I5.
  - rewrite Ht, closes_app_other, Hf; done.
Qed.
End Invariant.

Section Preservation.
Context `{Host}.

(** [traverse_open]'s allocations: a new inner allocation [p] with one
    strong reference, held by a new handle [o] with one reference. *)
Lemma inv_alloc w rs o p r :
  inv (Cfg w rs) -> p ∉ dom (inners w) ∪ list_to_set (freed w).*1 -> handles w !! o = None ->
  inv (Cfg (set_handles (<[o := HandleCell p 1]> (handles w))
              (set_inners (<[p := InnerCell r 1]> (inners w)) w)) (rs ++ [o])).
Proof.
  intros [I1 I2 I3 I4 I5 I6] Hp Ho. cbn [cw refs] in *.
  assert (Hpi : inners w !! p = None) by (apply not_elem_of_dom; set_solver).
  assert (Hpf : p ∉ (freed w).*1) by (intros ?; apply Hp; set_solver).
  split; simpl.
  - intros o'. rewrite occ_app_one, I1. destruct (decide (o = o')) as [<-|Hne].
    + rewrite Ho, lookup_insert_eq. reflexivity.
    + rewrite lookup_insert_ne by done. destruct (handles w !! o'); lia.
  - intros o' hc. destruct (decide (o = o')) as [<-|Hne].
    + rewrite lookup_insert_eq. intros [= <-]. simpl. lia.
    + rewrite lookup_insert_ne by done. apply I2.
  - intros q. rewrite (holders_insert_new (set_inners _ w)), holders_set_inners by done.
    specialize (I3 q). destruct (decide (p = q)) as [<-|Hne].
    + rewrite lookup_insert_eq, Hpi in *. simpl. lia.
    + rewrite lookup_insert_ne by done. destruct (inners w !! q); lia.
  - done.
  - intros q Hq. rewrite lookup_insert_ne by (intros ->; contradiction). by apply I5.
  - done.
Qed.
Lemma inv_clone w rs o c :
  inv (Cfg w rs) -> handles w !! o = Some c ->
  inv (Cfg (set_handles (<[o := HandleCell (hc_inner c) (S (hc_strong c))]> (handles w)) w) (rs ++ [o])).
Proof.
  intros [I1 I2 I3 I4 I5 I6] Ho. cbn [cw refs] in *. split; simpl.
  - intros o'. rewrite occ_app_one, I1. destruct (decide (o = o')) as [<-|Hne].
    + rewrite Ho, lookup_insert_eq. simpl. lia.
    + rewrite lookup_insert_ne by done. destruct (handles w !! o'); lia.
  - intros o' hc. destruct (decide (o = o')) as [<-|Hne].
    + rewrite lookup_insert_eq. intros [= <-]. simpl. lia.
    + rewrite lookup_insert_ne by done. apply I2.
  - intros q. rewrite holders_insert_same by done. apply I3.
  - done.
  - done.
  - done.
Qed.

(** A [dyn_clone]: one more strong reference to the inner allocation,
    held by a new handle. *)
Lemma inv_dup w rs o c ic :
  inv (Cfg w rs) -> handles w !! o = Some c -> inners w !! hc_inner c = Some ic ->
  inv (Cfg (set_handles (<[fresh (dom (handles w)) := HandleCell (hc_inner c) 1]> (handles w))
              (set_inners (<[hc_inner c := InnerCell (ic_fd ic) (S (ic_strong ic))]> (inners w)) w))
           (rs ++ [fresh (dom (handles w))])).
Proof.
  intros [I1 I2 I3 I4 I5 I6] Ho Hi. cbn [cw refs] in *.
  set (o' := fresh (dom (handles w))).
  assert (Ho' : handles w !! o' = None) by (apply not_elem_of_dom, is_fresh).
  split; simpl.
  - intros o''. rewrite occ_app_one, I1. destruct (decide (o' = o'')) as [<-|Hne].
    + rewrite Ho', lookup_insert_eq. reflexivity.
    + rewrite lookup_insert_ne by done. destruct (handles w !! o''); lia.
  - intros o'' hc. destruct (decide (o' = o'')) as [<-|Hne].
    + rewrite lookup_insert_eq. intros [= <-]. simpl. lia.
    + rewrite lookup_insert_ne by done. apply I2.
  - intros q. rewrite (holders_insert_new (set_inners _ w)), holders_set_inners by done.
    specialize (I3 q). destruct (decide (hc_inner c = q)) as [<-|Hne].
    + rewrite lookup_insert_eq, Hi in *. simpl. lia.
    + rewrite lookup_insert_ne by done. destruct (inners w !! q); lia.
  - done.
  - intros q Hq. rewrite lookup_insert_ne; [by apply I5|].
    intros E. subst q. specialize (I5 _ Hq). congruence.
  - done.
Qed.

(** Dropping a reference that is not the last one. *)
Lemma inv_drop_dec w rs o c :
  inv (Cfg w rs) -> o ∈ rs -> handles w !! o = Some c -> (1 < hc_strong c)%nat ->
  inv (Cfg (set_handles (<[o := HandleCell (hc_inner c) (pred (hc_strong c))]> (handles w)) w)
           (remove_one o rs)).
Proof.
  intros [I1 I2 I3 I4 I5 I6] Hin Ho Hs. cbn [cw refs] in *. split; simpl.
  - intros o'. rewrite occ_remove_one, I1 by done. destruct (decide (o = o')) as [<-|Hne].
    + rewrite Ho, lookup_insert_eq. simpl. lia.
    + rewrite lookup_insert_ne by done. destruct (handles w !! o'); lia.
  - intros o' hc. destruct (decide (o = o')) as [<-|Hne].
    + rewrite lookup_insert_eq. intros [= <-]. simpl. lia.
    + rewrite lookup_insert_ne by done. apply I2.
  - intros q. rewrite holders_insert_same by done. apply I3.
  - done.
  - done.
  - done.
Qed.
End Preservation.

Section DropLast.
Context `{Platform} `{Host}.
Variable frame_va : Z.

(** Dropping the last reference to a handle drops its [UhyveFileHandle]:
    the inner count goes down, and at zero the allocation is freed, its
    descriptor logged and one [Close] for it sent. *)
Lemma inv_drop_last w rs o c w' :
  inv (Cfg w rs) -> o ∈ rs -> handles w !! o = Some c -> (hc_strong c <= 1)%nat ->
  UhyveFileHandle.drop frame_va (hc_inner c) (set_handles (delete o (handles w)) w) = Done (tt, w') ->
  inv (Cfg w' (remove_one o rs)).
Proof.
  intros [I1 I2 I3 I4 I5 I6] Hin Ho Hs Hd. cbn [cw refs] in *.
  assert (Hs1 : hc_strong c = 1%nat) by (specialize (I2 _ _ Ho); lia).
  assert (Hocc : occ o rs = 1%nat) by (rewrite I1, Ho; done).
  set (p := hc_inner c) in *.
  destruct (handle_drop_Done frame_va _ _ _ Hd) as (ic & Hic & Hcase). simpl in Hic.
  pose proof (I3 p) as I3p. rewrite Hic in I3p. destruct I3p as [Hsp Hpos].
  assert (Hhp : holders (set_handles (delete o (handles w)) w) p = (holders w p - 1)%nat).
  { rewrite (holders_delete w o c) by done.
    destruct (decide (hc_inner c = p)) as [_|Hn]; [done|by destruct Hn]. }
  assert (Hhq : forall q, q <> p -> holders (set_handles (delete o (handles w)) w) q = holders w q).
  { intros q Hq. rewrite (holders_delete w o c) by done.
    destruct (decide (hc_inner c = q)) as [E|_]; [by destruct Hq|lia]. }
  assert (Hpf : p ∉ (freed w).*1) by (intros Hp; specialize (I5 _ Hp); congruence).
  assert (I1' : forall o', occ o' (remove_one o rs) =
            match delete o (handles w) !! o' with Some hc => hc_strong hc | None => O end).
  { intros o'. rewrite occ_remove_one, I1 by done. destruct (decide (o = o')) as [<-|Hne].
    - rewrite Ho, lookup_delete_eq. lia.
    - rewrite lookup_delete_ne by done. destruct (handles w !! o'); lia. }
  assert (I2' : forall o' hc, delete o (handles w) !! o' = Some hc -> (0 < hc_strong hc)%nat).
  { intros o' hc. rewrite lookup_delete_Some. intros [_ ?]. eauto. }
  case_decide as Hlast.
  - destruct Hcase as (Hi' & Hh' & Hf' & v & Ht').
    assert (Hw' : forall q, holders w' q = holders (set_handles (delete o (handles w)) w) q).
    { intros q. unfold holders. by rewrite Hh'. }
    split; cbn [cw refs]; rewrite ?Hi', ?Hh', ?Hf'.
    + exact I1'.
    + exact I2'.
    + intros q. rewrite Hw'. destruct (decide (p = q)) as [<-|Hne].
      * rewrite lookup_delete_eq, Hhp. lia.
      * rewrite lookup_delete_ne, Hhq by done. apply I3.
    + rewrite fmap_app. apply NoDup_app. split; [done|]. split; [|apply NoDup_singleton].
      intros x Hx. simpl. set_solver.
    + intros q. rewrite fmap_app, elem_of_app. simpl. intros [Hq|Hq].
      * rewrite lookup_delete_ne by (intros ->; contradiction). by apply I5.
      * assert (q = p) as -> by set_solver. apply lookup_delete_eq.
    + rewrite Ht'. simpl. rewrite closes_app_close, I6, fmap_app. reflexivity.
  - subst w'. split; simpl.
    + exact I1'.
    + exact I2'.
    + intros q. rewrite holders_set_inners. destruct (decide (p = q)) as [<-|Hne].
      * rewrite lookup_insert_eq, Hhp. simpl. lia.
      * rewrite lookup_insert_ne, Hhq by done. apply I3.
    + done.
    + intros q Hq. rewrite lookup_insert_ne by (intros ->; contradiction). by apply I5.
    + done.
Qed.
End DropLast.

(** ** The invariant holds in every reachable configuration *)
Section Reachable.
Context `{Platform} `{Host}.
Variables (frame_va path_va : Z).

Lemma port_ne_close port :
  port ∈ [UHYVE_PORT_OPEN; UHYVE_PORT_UNLINK; UHYVE_PORT_READ; UHYVE_PORT_WRITE; UHYVE_PORT_LSEEK] ->
  port <> UHYVE_PORT_CLOSE.
Proof. intros Hp ->. vm_compute in Hp. set_solver. Qed.

Lemma step_preserves_inv c c' : step frame_va path_va c c' -> inv c -> inv c'.
Proof.
  induction 1 as [c comps opt o w' Hd|c comps opt e w' Hd|c comps r w' Hd|c o w' Hin Hd
    |c o o' w' Hin Hd|c o w' Hin Hd|c o b l r w' Hin Hd|c o b l r w' Hin Hd|c o off wh r w' Hin Hd];
    destruct c as [w rs]; cbn [cw refs] in *; intros I.
  - destruct (open_Ok_Done _ _ _ _ _ _ _ Hd) as (w1 & r & Hio & -> & ->).
    apply inv_alloc; [|apply is_fresh|apply not_elem_of_dom, is_fresh].
    eapply inv_io; [exact Hio|apply port_ne_close; set_solver|exact I].
  - eapply inv_io; [eapply open_Err_io; exact Hd|apply port_ne_close; set_solver|exact I].
  - eapply inv_io; [eapply unlink_io; exact Hd|apply port_ne_close; set_solver|exact I].
  - destruct (object_clone_Done _ _ _ Hd) as (hc & Ho & ->). by apply inv_clone.
  - destruct (object_dup_Done _ _ _ _ Hd) as (hc & ic & Ho & Hi & -> & ->). by eapply inv_dup.
  - destruct (object_drop_Done frame_va _ _ _ Hd) as (hc & Ho & Hcase).
    case_decide.
    + by eapply inv_drop_last.
    + subst w'. apply inv_drop_dec; [done|done|done|lia].
  - eapply inv_io; [eapply object_read_io; exact Hd|apply port_ne_close; set_solver|exact I].
  - eapply inv_io; [eapply object_write_io; exact Hd|apply port_ne_close; set_solver|exact I].
  - eapply inv_io; [eapply object_lseek_io; exact Hd|apply port_ne_close; set_solver|exact I].
Qed.

(** C15: Every step of the lifecycle (open, unlink, clone, dup, drop, read, write, lseek by any reference) preserves the heap invariant [inv]. *)
Lemma step_inv c c' : step frame_va path_va c c' -> inv c -> inv c'.
Proof. apply step_preserves_inv. Qed.

Lemma reachable_inv c : reachable frame_va path_va c -> inv c.
Proof.
  intros (c0 & Hi & Hs). apply inv_initial in Hi.
  induction Hs as [|c1 c2 c3 H12 _ IH]; [done|]. apply IH. by eapply step_preserves_inv.
Qed.
End Reachable.

Section Consequences.
Context `{Platform} `{Host}.
Variables (frame_va path_va : Z).

Lemma holders_pos w o hc : handles w !! o = Some hc -> (0 < holders w (hc_inner hc))%nat.
Proof.
  intros Ho. unfold holders.
  destruct (decide (size (filter (fun kv : positive * handle_cell => hc_inner kv.2 = hc_inner hc)
                              (handles w)) = O)) as [E|E]; [|lia].
  apply map_size_empty_iff in E.
  assert (filter (fun kv : positive * handle_cell => hc_inner kv.2 = hc_inner hc) (handles w) !! o = Some hc)
    by (by apply map_lookup_filter_Some).
  rewrite E in H1. done.
Qed.

Lemma live_reference c o :
  reachable frame_va path_va c -> o ∈ refs c ->
  exists hc ic, handles (cw c) !! o = Some hc /\ inners (cw c) !! hc_inner hc = Some ic.
Proof.
  intros Hr Ho. destruct (reachable_inv _ _ _ Hr) as [I1 I2 I3 _ _ _].
  pose proof (occ_pos _ _ Ho) as Hpos. rewrite I1 in Hpos.
  destruct (handles (cw c) !! o) as [hc|] eqn:Eh; [|lia].
  pose proof (holders_pos _ _ _ Eh). specialize (I3 (hc_inner hc)).
  destruct (inners (cw c) !! hc_inner hc) as [ic|] eqn:Ei; [exists hc, ic; done|lia].
Qed.

(** C3: Every reference the VFS holds reaches a live handle and a live inner
    allocation: the [InvalidReference] panic never happens. *)
Theorem no_dangling_reference c o :
  reachable frame_va path_va c -> o ∈ refs c ->
  exists hc ic, handles (cw c) !! o = Some hc /\ inners (cw c) !! hc_inner hc = Some ic.
Proof. apply live_reference. Qed.

(** C2: The [Close] requests sent so far are exactly one per freed inner
    allocation, carrying its descriptor, in the order they were freed;
    no allocation is freed twice and a freed one is never live. *)
Theorem close_log_exact c :
  reachable frame_va path_va c ->
  closes (trace (cw c)) = close_req <$> freed (cw c) /\ NoDup (freed (cw c)).*1 /\
  (forall p, p ∈ (freed (cw c)).*1 -> inners (cw c) !! p = None).
Proof. intros Hr. destruct (reachable_inv _ _ _ Hr). done. Qed.

Lemma drop_held_completes c o pa :
  arch <> RiscV64 -> virtual_to_physical frame_va = Some pa ->
  reachable frame_va path_va c -> o ∈ refs c ->
  exists w', Object.drop frame_va o (cw c) = Done (tt, w').
Proof.
  intros Ha Hf Hr Ho. destruct (live_reference _ _ Hr Ho) as (hc & ic & Eh & Ei).
  unfold Object.drop, handle_at, mbind, St_bind. rewrite Eh. case_decide; [|eexists; done].
  unfold modify, UhyveFileHandle.drop, inner_at, mbind, St_bind. simpl. rewrite Ei.
  case_decide; [|eexists; done].
  rewrite (inner_drop_spec frame_va pa) by done. eexists; done.
Qed.

(** C16: With a mapped stack frame on a supported architecture, dropping any
    held reference completes. *)
Lemma drop_completes c o pa :
  arch <> RiscV64 -> virtual_to_physical frame_va = Some pa ->
  reachable frame_va path_va c -> o ∈ refs c ->
  exists w', Object.drop frame_va o (cw c) = Done (tt, w').
Proof. apply drop_held_completes. Qed.

(** A drop never loses track of an allocation: it stays live or is freed. *)
Lemma drop_tracked o w w' p :
  Object.drop frame_va o w = Done (tt, w') ->
  p ∈ dom (inners w) ∪ list_to_set (freed w).*1 ->
  p ∈ dom (inners w') ∪ list_to_set (freed w').*1.
Proof.
  intros Hd Hp. destruct (object_drop_Done frame_va _ _ _ Hd) as (hc & Eh & Hcase).
  case_decide; [|subst w'; done].
  destruct (handle_drop_Done frame_va _ _ _ Hcase) as (ic & Ei & Hc2). simpl in Ei.
  case_decide.
  - destruct Hc2 as (Hi & _ & Hf & _). rewrite Hi, Hf, fmap_app, list_to_set_app_L.
    simpl in Hp. rewrite dom_delete_L. destruct (decide (p = hc_inner hc)); set_solver.
  - subst w'. simpl in *. rewrite dom_insert_L. set_solver.
Qed.
End Consequences.

Section Liveness.
Context `{Platform} `{Host}.
Variables (frame_va path_va frame_pa : Z).
Hypothesis Harch : arch <> RiscV64.
Hypothesis Hframe : virtual_to_physical frame_va = Some frame_pa.

Lemma drop_all_steps n c :
  length (refs c) = n -> reachable frame_va path_va c ->
  exists c', rtc (step frame_va path_va) c c' /\ refs c' = [] /\
    forall p, p ∈ dom (inners (cw c)) ∪ list_to_set (freed (cw c)).*1 ->
              p ∈ dom (inners (cw c')) ∪ list_to_set (freed (cw c')).*1.
Proof.
  revert c. induction n as [|n IH]; intros c Hlen Hr.
  - exists c. split; [constructor|]. split; [by destruct (refs c)|done].
  - destruct (refs c) as [|o rest] eqn:Er; [discriminate|].
    assert (Ho : o ∈ refs c) by (rewrite Er; set_solver).
    destruct (drop_held_completes frame_va path_va c o frame_pa Harch Hframe Hr Ho) as [w' Hd].
    set (c1 := Cfg w' (remove_one o (refs c))).
    assert (Hs : step frame_va path_va c c1) by (by apply step_drop).
    assert (Hr1 : reachable frame_va path_va c1).
    { destruct Hr as (c0 & Hi & Hrtc). exists c0. split; [done|]. eapply rtc_r; eauto. }
    assert (Hl1 : length (refs c1) = n).
    { simpl. rewrite Er. simpl. rewrite decide_True by done. simpl in Hlen. lia. }
    destruct (IH c1 Hl1 Hr1) as (c' & Hrtc & Hnil & Htr).
    exists c'. split; [eapply rtc_l; eauto|]. split; [done|].
    intros p Hp. apply Htr. simpl. by eapply drop_tracked.
Qed.

(** C1: Liveness of close-exactly-once: from any reachable configuration,
    the VFS can drop every reference it holds; then no handle and no
    inner allocation is left, every allocation live before has been
    freed, no allocation was freed twice, and the [Close] requests sent
    are one per freed allocation with its descriptor. *)
Theorem drop_all_closes_once c :
  reachable frame_va path_va c ->
  exists c', rtc (step frame_va path_va) c c' /\ refs c' = [] /\
    handles (cw c') = ∅ /\ inners (cw c') = ∅ /\
    (forall p, p ∈ dom (inners (cw c)) -> p ∈ (freed (cw c')).*1) /\
    NoDup (freed (cw c')).*1 /\
    closes (trace (cw c')) = close_req <$> freed (cw c').
Proof.
  intros Hr. destruct (drop_all_steps _ c eq_refl Hr) as (c' & Hrtc & Hnil & Htr).
  assert (Hr' : reachable frame_va path_va c').
  { destruct Hr as (c0 & Hi0 & Hrt0). exists c0. split; [done|]. by eapply rtc_trans. }
  destruct (reachable_inv _ _ _ Hr') as [I1 I2 I3 I4 I5 I6].
  assert (Hh : handles (cw c') = ∅).
  { apply map_eq. intros o. rewrite lookup_empty. specialize (I1 o). rewrite Hnil in I1.
    destruct (handles (cw c') !! o) as [hc|] eqn:E; [|done].
    specialize (I2 _ _ E). simpl in I1. unfold occ in I1. simpl in I1. lia. }
  assert (Hi : inners (cw c') = ∅).
  { apply map_eq. intros p. rewrite lookup_empty. specialize (I3 p).
    destruct (inners (cw c') !! p) as [ic|]; [|done].
    unfold holders in I3. rewrite Hh, map_filter_empty, map_size_empty in I3. lia. }
  exists c'. split; [done|]. split; [done|]. split; [done|]. split; [done|].
  split; [|done]. intros p Hp.
  assert (Hp' := Htr p ltac:(set_solver)). rewrite Hi, dom_empty_L in Hp'.
  apply elem_of_union in Hp' as [Hp'|Hp']; [set_solver|].
  by apply elem_of_list_to_set in Hp'.
Qed.
End Liveness.
