(* ===== verification/Frames.v ===== *)
(** * Footprints: what a hypercall reads and writes in guest memory

    For the concurrent model of file handles ([Concurrency]), guest
    memory is shared by all threads while each thread's request
    structure sits in its own stack frame.  This file gives the memory
    facts that model needs: two memories [agree] on a set of addresses,
    a frame [holds] the bytes of a request ([Transport]), and the uhyve host's
    [read], [write] and [lseek] handlers read only their frame and the
    caller's buffer and write only there ([serve_*_holds] and the
    locality lemmas). *)

From stdpp Require Import base list gmap.
From Stdlib Require Import ZArith Lia.
From S2P Require Import Prelude Kernel Wire Transport HostFs.

Open Scope Z_scope.

(** ** Agreement of memories on a set of addresses *)

Definition agree (P : Z -> Prop) (m1 m2 : gmap Z Z) : Prop :=
  forall a, P a -> m1 !! a = m2 !! a.

(** The [n] addresses from [a]. *)
Definition range (a n x : Z) : Prop := a <= x < a + n.

Lemma agree_refl P m : agree P m m.
Proof. by intros a _. Qed.

Lemma agree_sym P m1 m2 : agree P m1 m2 -> agree P m2 m1.
Proof. intros H a Ha. symmetry. auto. Qed.

Lemma agree_trans P m1 m2 m3 : agree P m1 m2 -> agree P m2 m3 -> agree P m1 m3.
Proof. intros H1 H2 a Ha. rewrite H1 by done. auto. Qed.

Lemma agree_weaken (P Q : Z -> Prop) m1 m2 :
  (forall a, Q a -> P a) -> agree P m1 m2 -> agree Q m1 m2.
Proof. intros HPQ H a Ha. auto. Qed.

Lemma agree_insert P a b m1 m2 : agree P m1 m2 -> agree P (<[a := b]> m1) (<[a := b]> m2).
Proof.
  intros H x Hx. destruct (decide (a = x)) as [->|Hne].
  - by rewrite !lookup_insert_eq.
  - rewrite !lookup_insert_ne by done. auto.
Qed.

(** Storing the same bytes keeps two memories in agreement. *)
Lemma agree_store P a bs m1 m2 :
  agree P m1 m2 -> agree P (store_bytes a bs m1) (store_bytes a bs m2).
Proof.
  revert a m1 m2. induction bs as [|b bs IH]; intros a m1 m2 H; simpl; [done|].
  apply IH, agree_insert, H.
Qed.

(** A store elsewhere leaves the addresses of [P] alone. *)
Lemma agree_store_out (P : Z -> Prop) a bs m :
  (forall x, range a (Z.of_nat (length bs)) x -> ~ P x) -> agree P (store_bytes a bs m) m.
Proof.
  intros Hout x Hx. apply lookup_store_bytes_out.
  destruct (decide (range a (Z.of_nat (length bs)) x)) as [Hr|Hr].
  - by destruct (Hout x Hr).
  - unfold range in Hr. lia.
Qed.

Lemma agree_load a n m1 m2 :
  agree (range a (Z.of_nat n)) m1 m2 -> load_bytes m1 a n = load_bytes m2 a n.
Proof.
  revert a. induction n as [|n IH]; intros a H; simpl; [done|].
  unfold load at 1 2. rewrite H by (unfold range; lia).
  f_equal. apply IH. intros x Hx. apply H. unfold range in *. lia.
Qed.

(** ** Frames holding a request *)

Lemma holds_agree a bs m1 m2 :
  holds a bs m1 -> agree (range a (Z.of_nat (length bs))) m1 m2 -> holds a bs m2.
Proof.
  intros Hh Ha i b Hi. rewrite <- Ha; [by apply Hh|].
  apply lookup_lt_Some in Hi. unfold range. lia.
Qed.

Lemma length_take_le_range (data : list Z) (buf len : Z) x :
  0 <= len -> range buf (Z.of_nat (length (take (Z.to_nat len) data))) x -> range buf len x.
Proof. intros Hl. rewrite length_take. unfold range. lia. Qed.

(** ** The uhyve host on a frame that holds its request *)

Section UhyveFootprint.
Context `{HostFs}.

Ltac serve_port :=
  unfold uhyve_serve; cbv [UHYVE_PORT_OPEN UHYVE_PORT_CLOSE UHYVE_PORT_READ
    UHYVE_PORT_WRITE UHYVE_PORT_LSEEK UHYVE_PORT_UNLINK]; simpl Z.eqb; cbv iota.

Lemma serve_read_holds h pa (s : SysRead.t) m :
  wire_ok s = true -> holds pa (encode s) m ->
  uhyve_serve h UHYVE_PORT_READ pa m =
    let '(h', (r, data)) := fs_serve h (ReqRead (SysRead.fd s) (SysRead.len s)) in
    (h', put_field pa 20 (KI 8) r (store_bytes (SysRead.buf s) (take (Z.to_nat (SysRead.len s)) data) m)).
Proof. intros Hok Hh. serve_port. unfold serve_read. by host_reads s. Qed.

Lemma serve_write_holds h pa (s : SysWrite.t) m :
  wire_ok s = true -> holds pa (encode s) m ->
  uhyve_serve h UHYVE_PORT_WRITE pa m =
    ((fs_serve h (ReqWrite (SysWrite.fd s)
                   (load_bytes m (SysWrite.buf s) (Z.to_nat (SysWrite.len s))))).1, m).
Proof.
  intros Hok Hh. serve_port. unfold serve_write. host_reads s.
  by destruct (fs_serve _ _).
Qed.

Lemma serve_lseek_holds h pa (s : SysLseek.t) m :
  wire_ok s = true -> holds pa (encode s) m ->
  uhyve_serve h UHYVE_PORT_LSEEK pa m =
    let '(h', (r, _)) := fs_serve h (ReqLseek (SysLseek.fd s) (SysLseek.offset s) (SysLseek.whence s)) in
    (h', put_field pa 4 (KI 8) r m).
Proof. intros Hok Hh. serve_port. unfold serve_lseek. by host_reads s. Qed.

End UhyveFootprint.
