(* ===== verification/Threads.v ===== *)
(** * Threads sharing file handles through the [SpinMutex]

    [impl ObjectInterface for UhyveFileHandle] (lines 210-222) runs
    [self.0.lock().op(..)]: the calling thread spins until it owns the
    [SpinMutex] of the shared [UhyveFileHandleInner], reads the
    descriptor, builds the request structure in its own stack frame,
    writes the frame's physical address to the port, reads the result
    back and drops the guard.  Here each of these is one step of a
    thread ([cstep]), and the steps of different threads interleave in
    any order.  A thread runs one operation ([op]); its frame is at the
    physical address [fpa t].  [porder] records, as ghost state, the
    threads in the order of their port writes.  [cnext] and [crun] are
    an executable scheduler for the same steps.

    The theorems: the scheduler takes exactly the steps of [cstep]
    ([cnext_cstep]); the lock gives mutual exclusion per handle: at
    most one of the thread states is among the [holders] of a handle
    ([mutual_exclusion]); every interleaving terminates
    ([cstep_terminates]); and a configuration with an unfinished thread
    and no panicked one can always step ([no_deadlock]); and a thread
    that holds the lock after its port write made the last request on
    its handle, so requests on one handle reach the host in the order
    of lock acquisition ([port_order_follows_lock], with the ghost
    projection [handle_order]).  [Linearize]
    shows that a complete run computes what the calls run one after the
    other compute. *)

From stdpp Require Import base list gmap.
From Stdlib Require Import ZArith Lia.
From S2P Require Import Prelude Kernel Wire Transport Handle.

Open Scope Z_scope.

(** ** Operations of a thread on a shared handle *)

(** [read], [write] or [lseek] on the inner allocation [p]. *)
Inductive op : Type :=
  | ORead (p : positive) (buf len : Z)
  | OWrite (p : positive) (buf len : Z)
  | OLseek (p : positive) (off : Z) (wh : SeekWhence).

Definition op_handle (o : op) : positive :=
  match o with ORead p _ _ | OWrite p _ _ | OLseek p _ _ => p end.

(** [num::ToPrimitive::to_i32(&whence)], which is total. *)
Definition whence_code (wh : SeekWhence) : Z :=
  match wh with Set_ => 0 | Cur => 1 | End_ => 2 end.

Definition op_port (o : op) : Z :=
  match o with
  | ORead _ _ _ => UHYVE_PORT_READ
  | OWrite _ _ _ => UHYVE_PORT_WRITE
  | OLseek _ _ _ => UHYVE_PORT_LSEEK
  end.

(** The bytes of the request structure the operation builds. *)
Definition op_req (o : op) (fd : Z) : list Z :=
  match o with
  | ORead _ buf len => encode (SysRead.new fd buf len)
  | OWrite _ buf len => encode (SysWrite.new fd buf len)
  | OLseek _ off wh => encode (SysLseek.mk fd off (whence_code wh))
  end.

Definition op_size (o : op) : nat :=
  match o with
  | ORead _ _ _ => wire_size SysRead.t
  | OWrite _ _ _ => wire_size SysWrite.t
  | OLseek _ _ _ => wire_size SysLseek.t
  end.

Section Ops.
Context `{Platform} `{Host}.

(** What the operation does with the structure the host left. *)
Definition op_ret (o : op) (bs : list Z) : St world (result Z IoError) :=
  match o with
  | ORead _ _ _ => UhyveFileHandleInner.read_ret (decode SysRead.t bs)
  | OWrite _ _ _ => UhyveFileHandleInner.write_ret (decode SysWrite.t bs)
  | OLseek _ _ _ => UhyveFileHandleInner.lseek_ret (decode SysLseek.t bs)
  end.

(** The whole call, [self.0.lock().op(..)], as [Handle] models it. *)
Definition op_call (frame_va : Z) (o : op) : St world (result Z IoError) :=
  match o with
  | ORead p buf len => UhyveFileHandle.read frame_va p buf len
  | OWrite p buf len => UhyveFileHandle.write frame_va p buf len
  | OLseek p off wh => UhyveFileHandle.lseek frame_va p off wh
  end.
End Ops.

(** ** Threads *)

(** Where a thread is in its call: before [lock()], holding the lock
    with the descriptor read, with the request stored in its frame,
    after the port write, with the result read back, after the guard's
    drop, or panicked (a kernel panic does not release the lock). *)
Inductive tstate : Type :=
  | TIdle (o : op)
  | TLocked (o : op) (fd : Z)
  | TStored (o : op) (fd : Z)
  | TServed (o : op) (fd : Z)
  | TLoaded (o : op) (r : result Z IoError)
  | TDone (o : op) (r : result Z IoError)
  | TPanicked (o : op) (p : panic).

Definition t_op (s : tstate) : op :=
  match s with
  | TIdle o | TLocked o _ | TStored o _ | TServed o _ | TLoaded o _ | TDone o _
  | TPanicked o _ => o
  end.

(** Holding the lock. *)
Definition critical (s : tstate) : bool :=
  match s with TIdle _ | TDone _ _ => false | _ => true end.

Definition finished (s : tstate) : bool :=
  match s with TDone _ _ | TPanicked _ _ => true | _ => false end.

(** After the port write. *)
Definition ported (s : tstate) : bool :=
  match s with TServed _ _ | TLoaded _ _ | TDone _ _ | TPanicked _ _ => true | _ => false end.

(** The steps a thread has left. *)
Definition remaining (s : tstate) : nat :=
  match s with
  | TIdle _ => 5 | TLocked _ _ => 4 | TStored _ _ => 3 | TServed _ _ => 2
  | TLoaded _ _ => 1 | TDone _ _ | TPanicked _ _ => 0
  end.

(** The kernel's world, the owner of each locked [SpinMutex], the
    threads, and the ghost order of the port writes. *)
Record cconfig_of (HS : Type) : Type := CC {
  cworld : world_of HS; locks : gmap positive nat; threads : list tstate; porder : list nat }.
Arguments CC {_} _ _ _ _.
Arguments cworld {_} _.
Arguments locks {_} _.
Arguments threads {_} _.
Arguments porder {_} _.
Abbreviation cconfig := (cconfig_of host_state).

Section Steps.
Context `{Platform} `{Host}.
(** The physical address of thread [t]'s stack frame. *)
Variable fpa : nat -> Z.

Inductive cstep : cconfig -> cconfig -> Prop :=
  (** [lock()] succeeds on a free lock; [self.0] is read under it. *)
  | cs_acquire t o ic w L ts ord :
      ts !! t = Some (TIdle o) -> L !! op_handle o = None ->
      inners w !! op_handle o = Some ic ->
      cstep (CC w L ts ord) (CC w (<[op_handle o := t]> L) (<[t := TLocked o (ic_fd ic)]> ts) ord)
  (** [SysRead::new(..)] and the like, on the thread's stack. *)
  | cs_store t o fd w L ts ord :
      ts !! t = Some (TLocked o fd) ->
      cstep (CC w L ts ord)
        (CC (set_mem (store_bytes (fpa t) (op_req o fd) (mem w)) w) L (<[t := TStored o fd]> ts) ord)
  (** [outl] (or the MMIO store): the host serves the request. *)
  | cs_port t o fd w w' L ts ord :
      ts !! t = Some (TStored o fd) ->
      port_write (op_port o) (port_value (fpa t)) (op_req o fd) w = Done (tt, w') ->
      cstep (CC w L ts ord) (CC w' L (<[t := TServed o fd]> ts) (ord ++ [t]))
  (** Reading the result field back. *)
  | cs_load t o fd r w w' L ts ord :
      ts !! t = Some (TServed o fd) ->
      op_ret o (load_bytes (mem w) (fpa t) (op_size o)) w = Done (r, w') ->
      cstep (CC w L ts ord) (CC w' L (<[t := TLoaded o r]> ts) ord)
  | cs_panic t o fd p w L ts ord :
      ts !! t = Some (TServed o fd) ->
      op_ret o (load_bytes (mem w) (fpa t) (op_size o)) w = Panic p ->
      cstep (CC w L ts ord) (CC w L (<[t := TPanicked o p]> ts) ord)
  (** The guard's drop. *)
  | cs_release t o r w L ts ord :
      ts !! t = Some (TLoaded o r) ->
      cstep (CC w L ts ord) (CC w (delete (op_handle o) L) (<[t := TDone o r]> ts) ord).

Definition cinitial (ops : list op) (w : world) : cconfig := CC w ∅ (TIdle <$> ops) [].

Definition creachable (ops : list op) (w : world) (c : cconfig) : Prop :=
  rtc cstep (cinitial ops w) c.
End Steps.

(** ** An executable scheduler

    [cnext c t] is the step thread [t] takes in [c], if it can take one
    ([None] when it waits for the lock, has finished, or its handle is
    gone); [crun c sched] runs the threads in the order [sched] names. *)
Section Scheduler.
Context `{Platform} `{Host}.
Variable fpa : nat -> Z.

Definition cnext (c : cconfig) (t : nat) : option cconfig :=
  let '(CC w L ts ord) := c in
  match ts !! t with
  | Some (TIdle o) =>
      match L !! op_handle o, inners w !! op_handle o with
      | None, Some ic => Some (CC w (<[op_handle o := t]> L) (<[t := TLocked o (ic_fd ic)]> ts) ord)
      | _, _ => None
      end
  | Some (TLocked o fd) =>
      Some (CC (set_mem (store_bytes (fpa t) (op_req o fd) (mem w)) w) L (<[t := TStored o fd]> ts) ord)
  | Some (TStored o fd) =>
      match port_write (op_port o) (port_value (fpa t)) (op_req o fd) w with
      | Done (_, w') => Some (CC w' L (<[t := TServed o fd]> ts) (ord ++ [t]))
      | Panic _ => None
      end
  | Some (TServed o fd) =>
      match op_ret o (load_bytes (mem w) (fpa t) (op_size o)) w with
      | Done (r, w') => Some (CC w' L (<[t := TLoaded o r]> ts) ord)
      | Panic p => Some (CC w L (<[t := TPanicked o p]> ts) ord)
      end
  | Some (TLoaded o r) => Some (CC w (delete (op_handle o) L) (<[t := TDone o r]> ts) ord)
  | _ => None
  end.

Fixpoint crun (c : cconfig) (sched : list nat) : option cconfig :=
  match sched with
  | [] => Some c
  | t :: sched' => c' ← cnext c t; crun c' sched'
  end.
End Scheduler.

(** ** The lock table *)

(** [L] records exactly the owner of each locked [SpinMutex]. *)
Definition lock_ok (L : gmap positive nat) (ts : list tstate) : Prop :=
  forall p u, L !! p = Some u <->
    exists s, ts !! u = Some s /\ critical s = true /\ op_handle (t_op s) = p.

Lemma lock_ok_same L ts t s s' :
  lock_ok L ts -> ts !! t = Some s ->
  critical s' = critical s -> t_op s' = t_op s -> lock_ok L (<[t := s']> ts).
Proof.
  intros Hok Ht Hc Ho p u. red in Hok. rewrite Hok. setoid_rewrite list_lookup_insert_Some.
  split.
  - intros (s1 & Hs1 & Hc1 & Hp). destruct (decide (t = u)) as [<-|Hne].
    + exists s'. rewrite Hc, Ho. rewrite Ht in Hs1. injection Hs1 as <-.
      split; [left; split; [done|split; [done|by eapply lookup_lt_Some]]|done].
    + exists s1. split; [by right|done].
  - intros (s1 & [(<- & <- & _)|(Hne & Hs1)] & Hc1 & Hp).
    + exists s. rewrite <- Hc, <- Ho. done.
    + by exists s1.
Qed.

Lemma lock_ok_acquire L ts t o fd :
  lock_ok L ts -> ts !! t = Some (TIdle o) -> L !! op_handle o = None ->
  lock_ok (<[op_handle o := t]> L) (<[t := TLocked o fd]> ts).
Proof.
  intros Hok Ht Hfree p u. red in Hok. setoid_rewrite list_lookup_insert_Some.
  destruct (decide (op_handle o = p)) as [<-|Hne].
  - rewrite lookup_insert_eq. split.
    + intros [= <-]. exists (TLocked o fd). split; [left; split; [done|split; [done|by eapply lookup_lt_Some]]|done].
    + intros (s1 & [(<- & <- & _)|(Hne & Hs1)] & Hc1 & Hp); [done|].
      assert (L !! op_handle o = Some u) by (apply Hok; by exists s1). congruence.
  - rewrite lookup_insert_ne by done. rewrite Hok. split.
    + intros (s1 & Hs1 & Hc1 & Hp). exists s1. split; [|done].
      right. split; [|done]. intros <-. rewrite Ht in Hs1. by injection Hs1 as <-.
    + intros (s1 & [(<- & <- & _)|(Hne' & Hs1)] & Hc1 & Hp); [done|]. by exists s1.
Qed.

Lemma lock_ok_release L ts t o r :
  lock_ok L ts -> ts !! t = Some (TLoaded o r) ->
  lock_ok (delete (op_handle o) L) (<[t := TDone o r]> ts).
Proof.
  intros Hok Ht p u. red in Hok. setoid_rewrite list_lookup_insert_Some.
  assert (Hown : L !! op_handle o = Some t) by (apply Hok; by eexists).
  destruct (decide (op_handle o = p)) as [<-|Hne].
  - rewrite lookup_delete_eq. split; [done|].
    intros (s1 & [(<- & <- & _)|(Hne & Hs1)] & Hc1 & Hp); [done|].
    assert (L !! op_handle o = Some u) by (apply Hok; by exists s1). congruence.
  - rewrite lookup_delete_ne by done. rewrite Hok. split.
    + intros (s1 & Hs1 & Hc1 & Hp). exists s1. split; [|done].
      right. split; [|done]. intros <-. rewrite Ht in Hs1. injection Hs1 as <-. done.
    + intros (s1 & [(<- & <- & _)|(Hne' & Hs1)] & Hc1 & Hp); [done|]. by exists s1.
Qed.

(** ** The invariant of the threads *)

(** The descriptor a thread read under the lock. *)
Definition s_fd (s : tstate) : option Z :=
  match s with TLocked _ fd | TStored _ fd | TServed _ fd => Some fd | _ => None end.

Record cinv `{Host} (ops : list op) (w0 : world) (c : cconfig) : Prop := {
  ci_len : length (threads c) = length ops;
  ci_ops : forall t s, threads c !! t = Some s -> ops !! t = Some (t_op s);
  ci_lock : lock_ok (locks c) (threads c);
  ci_inners : inners (cworld c) = inners w0;
  ci_fd : forall t s fd, threads c !! t = Some s -> s_fd s = Some fd ->
    exists ic, inners w0 !! op_handle (t_op s) = Some ic /\ ic_fd ic = fd;
  ci_nodup : NoDup (porder c);
  ci_ported : forall t, t ∈ porder c <-> exists s, threads c !! t = Some s /\ ported s = true
}.

Lemma lookup_insert_cases (ts : list tstate) t s' u x :
  <[t := s']> ts !! u = Some x -> (u = t /\ x = s') \/ (u <> t /\ ts !! u = Some x).
Proof. rewrite list_lookup_insert_Some. intros [(-> & -> & _)|(Hne & Hx)]; auto. Qed.

Section ThreadFacts.
Context `{Platform} `{Host}.

Lemma op_ret_neutral o bs w r w' : op_ret o bs w = Done (r, w') -> w' = w.
Proof.
  destruct o; cbv [op_ret UhyveFileHandleInner.read_ret UhyveFileHandleInner.write_ret
    UhyveFileHandleInner.lseek_ret mbind mret St_bind St_ret unwrap abort];
    repeat case_match; congruence.
Qed.

Lemma port_write_inners port v req w w' :
  port_write port v req w = Done (tt, w') -> inners w' = inners w.
Proof. unfold port_write. destruct host_serve. by intros [= <-]. Qed.

(** A step of thread [t]: it keeps its operation, and it ports at most
    once, appending itself to the order. *)
Lemma cinv_update ops w0 w w' L L' ts ord ord' t s s' :
  cinv ops w0 (CC w L ts ord) -> ts !! t = Some s ->
  t_op s' = t_op s -> lock_ok L' (<[t := s']> ts) -> inners w' = inners w ->
  (forall fd, s_fd s' = Some fd ->
     exists ic, inners w0 !! op_handle (t_op s') = Some ic /\ ic_fd ic = fd) ->
  (ord' = ord /\ ported s' = ported s) \/ (ord' = ord ++ [t] /\ ported s = false /\ ported s' = true) ->
  cinv ops w0 (CC w' L' (<[t := s']> ts) ord').
Proof.
  intros [Hlen Hops Hlock Hin Hfd Hnd Hpo] Ht Ho Hlock' Hw Hs Hord.
  split; cbn [threads locks cworld porder] in *.
  - by rewrite length_insert.
  - intros u x Hx. apply lookup_insert_cases in Hx as [(-> & ->)|(_ & Hx)]; [|auto].
    rewrite Ho. auto.
  - done.
  - by rewrite Hw.
  - intros u x fd Hx Hf. apply lookup_insert_cases in Hx as [(-> & ->)|(_ & Hx)]; eauto.
  - destruct Hord as [(-> & _)|(-> & Hp & _)]; [done|].
    apply NoDup_app. split; [done|]. split; [|apply NoDup_singleton].
    intros x Hx ->%list_elem_of_singleton. apply Hpo in Hx as (y & Hy & Hpy). congruence.
  - intros u. assert (Hlt : (t < length ts)%nat) by (by eapply lookup_lt_Some).
    destruct Hord as [(-> & Hp)|(-> & Hp & Hp')].
    + rewrite Hpo. setoid_rewrite list_lookup_insert_Some. split.
      * intros (x & Hx & Hpx). destruct (decide (t = u)) as [<-|Hne].
        -- exists s'. rewrite Ht in Hx. injection Hx as <-. rewrite Hp. auto.
        -- exists x. auto.
      * intros (x & [(<- & <- & _)|(Hne & Hx)] & Hpx); [exists s; by rewrite <- Hp|eauto].
    + rewrite elem_of_app, list_elem_of_singleton, Hpo. setoid_rewrite list_lookup_insert_Some. split.
      * intros [(x & Hx & Hpx)| ->].
        -- exists x. split; [|done]. right. split; [|done]. intros <-. congruence.
        -- exists s'. auto.
      * intros (x & [(<- & <- & _)|(Hne & Hx)] & Hpx); [by right|left; eauto].
Qed.
End ThreadFacts.

Section Preservation.
Context `{Platform} `{Host}.
Variable fpa : nat -> Z.

Lemma cinv_initial ops w0 : cinv ops w0 (cinitial ops w0).
Proof.
  split; cbn [cinitial threads locks cworld porder].
  - by rewrite length_fmap.
  - intros t s. rewrite list_lookup_fmap. destruct (ops !! t); simpl; [|done].
    by intros [= <-].
  - intros p u. rewrite lookup_empty. split; [done|].
    intros (s & Hs & Hc & _). rewrite list_lookup_fmap in Hs.
    destruct (ops !! u); simpl in Hs; [|done]. by injection Hs as <-.
  - done.
  - intros t s fd Hs. rewrite list_lookup_fmap in Hs.
    destruct (ops !! t); simpl in Hs; [|done]. by injection Hs as <-.
  - constructor.
  - intros t. split; [by intros ?%not_elem_of_nil|].
    intros (s & Hs & Hp). rewrite list_lookup_fmap in Hs.
    destruct (ops !! t); simpl in Hs; [|done]. by injection Hs as <-.
Qed.

Lemma cstep_cinv ops w0 c c' : cstep fpa c c' -> cinv ops w0 c -> cinv ops w0 c'.
Proof.
  intros Hst I. pose proof (ci_lock _ _ _ I) as Hl. pose proof (ci_inners _ _ _ I) as Hin.
  destruct Hst as [t o ic w L ts ord Ht Hfree Hic|t o fd w L ts ord Ht|t o fd w w' L ts ord Ht Hp
    |t o fd r w w' L ts ord Ht Hr|t o fd p w L ts ord Ht Hr|t o r w L ts ord Ht];
    cbn [cworld locks threads porder] in *.
  - eapply cinv_update; [exact I|exact Ht|done|by apply lock_ok_acquire|done| |by left].
    intros fd [= <-]. exists ic. simpl. by rewrite <- Hin.
  - eapply cinv_update; [exact I|exact Ht|done|by eapply lock_ok_same|done| |by left].
    intros fd' [= <-]. by apply (ci_fd _ _ _ I t (TLocked o fd)).
  - eapply cinv_update; [exact I|exact Ht|done|by eapply lock_ok_same|by eapply port_write_inners| |by right].
    intros fd' [= <-]. by apply (ci_fd _ _ _ I t (TStored o fd)).
  - apply op_ret_neutral in Hr as ->.
    eapply cinv_update; [exact I|exact Ht|done|by eapply lock_ok_same|done|done|by left].
  - eapply cinv_update; [exact I|exact Ht|done|by eapply lock_ok_same|done|done|by left].
  - eapply cinv_update; [exact I|exact Ht|done|by apply lock_ok_release|done|done|by left].
Qed.

Lemma creachable_cinv ops w0 c : creachable fpa ops w0 c -> cinv ops w0 c.
Proof.
  unfold creachable. intros Hr. remember (cinitial ops w0) as c0 eqn:E.
  assert (I0 : cinv ops w0 c0) by (subst; apply cinv_initial).
  clear E. induction Hr as [|c1 c2 c3 H12 _ IH]; [done|]. apply IH. by eapply cstep_cinv.
Qed.
End Preservation.

(** ** Mutual exclusion, termination, progress *)

(** The steps all threads have left. *)
Fixpoint rem_sum (ts : list tstate) : nat :=
  match ts with [] => O | s :: ts' => (remaining s + rem_sum ts')%nat end.

Definition measure `{Host} (c : cconfig) : nat := rem_sum (threads c).

Lemma rem_sum_insert (ts : list tstate) t s s' :
  ts !! t = Some s ->
  (rem_sum (<[t := s']> ts) + remaining s = rem_sum ts + remaining s')%nat.
Proof.
  revert t. induction ts as [|x ts IH]; intros [|t] Ht; simpl in *; try done.
  - injection Ht as ->. lia.
  - specialize (IH t Ht). lia.
Qed.

Section Theorems.
Context `{Platform} `{Host}.
Variable fpa : nat -> Z.

Lemma cstep_measure c c' : cstep fpa c c' -> (measure c' < measure c)%nat.
Proof.
  unfold measure. destruct 1 as [t o ic w L ts ord Ht|t o fd w L ts ord Ht|t o fd w w' L ts ord Ht
    |t o fd r w w' L ts ord Ht|t o fd p w L ts ord Ht|t o r w L ts ord Ht];
    cbn [threads]; match goal with H : ts !! t = Some ?s |- context [<[t := ?s']> ts] =>
      pose proof (rem_sum_insert ts t s s' H) end; cbn [remaining] in *; lia.
Qed.

(** Every interleaving of the threads' steps is finite. *)
Theorem cstep_terminates c : Acc (fun c2 c1 => cstep fpa c1 c2) c.
Proof.
  induction c as [c IH] using (induction_ltof1 _ measure).
  constructor. intros c' Hs. apply IH. unfold ltof. by apply cstep_measure.
Qed.

(** Two threads holding the lock of one handle are the same thread. *)
Lemma lock_holder_unique ops w0 c t u s s' :
  creachable fpa ops w0 c ->
  threads c !! t = Some s -> threads c !! u = Some s' ->
  critical s = true -> critical s' = true -> op_handle (t_op s) = op_handle (t_op s') ->
  t = u.
Proof.
  intros Hr Ht Hu Hc Hc' Hp. pose proof (ci_lock _ _ _ (creachable_cinv fpa _ _ _ Hr)) as Hl.
  assert (E1 : locks c !! op_handle (t_op s) = Some t) by (apply Hl; eauto).
  assert (E2 : locks c !! op_handle (t_op s) = Some u) by (apply Hl; rewrite Hp; eauto).
  congruence.
Qed.

(** The threads between [lock()] and the guard's drop on handle [h]. *)
Definition holders (h : positive) (ts : list tstate) : list tstate :=
  filter (fun s => critical s = true /\ op_handle (t_op s) = h) ts.

(** C22: In every reachable interleaving of threads calling read, write
    and lseek, at most one thread is between [lock()] and the guard's
    drop on any handle. *)
Theorem mutual_exclusion ops w0 c h :
  creachable fpa ops w0 c -> (length (holders h (threads c)) <= 1)%nat.
Proof.
  intros Hr. apply length_filter_unique. intros t u s s' Ht Hu [Hc Hh] [Hc' Hh'].
  eapply lock_holder_unique; [exact Hr|exact Ht|exact Hu|done|done|congruence].
Qed.

Lemma port_write_Done port v req w : exists w', port_write port v req w = Done (tt, w').
Proof. unfold port_write. destruct host_serve. by eexists. Qed.

(** A thread holding the lock and not panicked can take its next step. *)
Lemma critical_steps c t s :
  threads c !! t = Some s -> critical s = true ->
  (forall p, s <> TPanicked (t_op s) p) -> exists c', cstep fpa c c'.
Proof.
  destruct c as [w L ts ord]. cbn [threads]. intros Ht Hc Hp.
  destruct s as [o|o fd|o fd|o fd|o r|o r|o p]; try done.
  - eexists. by eapply cs_store.
  - destruct (port_write_Done (op_port o) (port_value (fpa t)) (op_req o fd) w) as [w' Hw].
    eexists. by eapply cs_port.
  - destruct (op_ret o (load_bytes (mem w) (fpa t) (op_size o)) w) as [[r w']|p] eqn:E.
    + eexists. by eapply cs_load.
    + eexists. by eapply cs_panic.
  - eexists. by eapply cs_release.
  - by destruct (Hp p).
Qed.

(** C24: No deadlock: while some thread has not finished and none panicked
    while holding a lock, some thread can step, provided the handles the
    threads use are live. *)
Theorem no_deadlock ops w0 c :
  creachable fpa ops w0 c ->
  (forall o, o ∈ ops -> is_Some (inners w0 !! op_handle o)) ->
  (forall t o p, threads c !! t <> Some (TPanicked o p)) ->
  (exists t s, threads c !! t = Some s /\ finished s = false) ->
  exists c', cstep fpa c c'.
Proof.
  intros Hr Hlive Hnp (t & s & Ht & Hf). pose proof (creachable_cinv fpa _ _ _ Hr) as I.
  destruct (list_find (fun s => critical s = true) (threads c)) as [[u s']|] eqn:Hfind.
  - apply list_find_Some in Hfind as (Hu & Hc & _).
    apply (critical_steps c u s'); [done|done|]. intros p E. apply (Hnp u (t_op s') p). by rewrite <- E.
  - apply list_find_None in Hfind. rewrite Forall_lookup in Hfind.
    pose proof (Hfind t s Ht) as Hnc.
    destruct s as [o|o fd|o fd|o fd|o r|o r|o p]; simpl in Hnc, Hf; try done; try lia.
    destruct (Hlive o) as [ic Hic].
    { apply list_elem_of_lookup_2 with t. apply (ci_ops _ _ _ I t (TIdle o) Ht). }
    destruct c as [w L ts ord]. cbn [threads locks cworld] in *.
    destruct (L !! op_handle o) as [u|] eqn:HL.
    + apply (ci_lock _ _ _ I) in HL as (s' & Hs' & Hc' & _). by pose proof (Hfind u s' Hs').
    + eexists. eapply cs_acquire; [exact Ht|exact HL|]. pose proof (ci_inners _ _ _ I) as E.
      cbn [cworld] in E. rewrite E. exact Hic.
Qed.
(** A step the scheduler takes is a step of the relation. *)
Lemma cnext_sound c t c' : cnext fpa c t = Some c' -> cstep fpa c c'.
Proof.
  intros Hn. destruct c as [w L ts ord]. cbn [cnext] in Hn.
  destruct (ts !! t) as [[o|o fd|o fd|o fd|o r|o r|o p]|] eqn:Ht; try discriminate.
  - destruct (L !! op_handle o) eqn:HL; [discriminate|].
    destruct (inners w !! op_handle o) as [ic|] eqn:Hic; [|discriminate].
    injection Hn as <-. by eapply cs_acquire.
  - injection Hn as <-. by eapply cs_store.
  - destruct (port_write _ _ _ w) as [[[] w']|p] eqn:Hp; [|discriminate].
    injection Hn as <-. by eapply cs_port.
  - destruct (op_ret _ _ w) as [[r w']|p] eqn:Hr; injection Hn as <-.
    * by eapply cs_load.
    * by eapply cs_panic.
  - injection Hn as <-. by eapply cs_release.
Qed.

(** The scheduler takes exactly the steps of the step relation. *)
Theorem cnext_cstep c c' : cstep fpa c c' <-> exists t, cnext fpa c t = Some c'.
Proof.
  split.
  - intros Hs. destruct Hs as [t o ic w L ts ord Ht HL Hic|t o fd w L ts ord Ht
      |t o fd w w' L ts ord Ht Hp|t o fd r w w' L ts ord Ht Hr|t o fd p w L ts ord Ht Hr
      |t o r w L ts ord Ht]; exists t; cbn [cnext]; rewrite Ht; try done.
    + by rewrite HL, Hic.
    + by rewrite Hp.
    + by rewrite Hr.
    + by rewrite Hr.
  - intros [t Hn]. by eapply cnext_sound.
Qed.

Lemma crun_rtc c sched c' : crun fpa c sched = Some c' -> rtc (cstep fpa) c c'.
Proof.
  revert c. induction sched as [|t sched IH]; intros c Hr; cbn [crun] in Hr.
  - injection Hr as <-. constructor.
  - destruct (cnext fpa c t) as [c1|] eqn:Hn; [|discriminate]. cbn in Hr.
    eapply rtc_l; [by eapply cnext_sound|]. by apply IH.
Qed.

Lemma crun_creachable ops w sched c :
  crun fpa (cinitial ops w) sched = Some c -> creachable fpa ops w c.
Proof. apply crun_rtc. Qed.
End Theorems.

(** ** The order of the requests on one handle *)

(** The threads of [ord] whose operation is on handle [h], in order. *)
Definition handle_order (ops : list op) (h : positive) (ord : list nat) : list nat :=
  filter (fun u => op_handle <$> ops !! u = Some h) ord.

(** A thread that holds the lock of its handle after its port write
    made the last request on that handle. *)
Definition last_on_handle `{Host} (ops : list op) (c : cconfig) : Prop :=
  forall t s, threads c !! t = Some s -> critical s = true -> ported s = true ->
    last (handle_order ops (op_handle (t_op s)) (porder c)) = Some t.

Lemma handle_order_snoc ops h ord t o :
  ops !! t = Some o ->
  handle_order ops h (ord ++ [t]) =
    handle_order ops h ord ++ (if decide (op_handle o = h) then [t] else []).
Proof.
  intros Ho. unfold handle_order. rewrite filter_app, filter_cons, filter_nil, Ho. cbn.
  destruct (decide (op_handle o = h)) as [->|Hne]; [by rewrite decide_True|].
  rewrite decide_False by congruence. done.
Qed.

Section Ordering.
Context `{Platform} `{Host}.
Variable fpa : nat -> Z.

(** A step of one thread that keeps its operation, does not move the
    port order, and leaves it holding the lock after its port write only
    if it already did. *)
Lemma last_on_handle_same ops w w' L L' ts ord t s s' :
  last_on_handle ops (CC w L ts ord) -> ts !! t = Some s -> t_op s' = t_op s ->
  (critical s' = true -> ported s' = true -> critical s = true /\ ported s = true) ->
  last_on_handle ops (CC w' L' (<[t := s']> ts) ord).
Proof.
  intros Hl Ht Ho Hs u x Hx Hc Hp. cbn [threads porder] in *.
  apply lookup_insert_cases in Hx as [(-> & ->)|(_ & Hx)].
  - destruct (Hs Hc Hp). rewrite Ho. by apply (Hl _ s).
  - by apply (Hl u x).
Qed.

Lemma cstep_last_on_handle ops w0 c c' :
  cstep fpa c c' -> cinv ops w0 c -> last_on_handle ops c -> last_on_handle ops c'.
Proof.
  intros Hs I Hl. destruct Hs as [t o ic w L ts ord Ht _ _|t o fd w L ts ord Ht
      |t o fd w w' L ts ord Ht _|t o fd r w w' L ts ord Ht _|t o fd p w L ts ord Ht _
      |t o r w L ts ord Ht];
    try (eapply last_on_handle_same; [exact Hl|exact Ht|reflexivity|]; cbn; done).
  intros u x Hx Hc Hp. cbn [threads porder] in *.
  pose proof (ci_ops _ _ _ I t _ Ht) as Ho. cbn [t_op threads] in Ho.
  rewrite (handle_order_snoc ops _ ord t o Ho).
  apply lookup_insert_cases in Hx as [(-> & ->)|(Hne & Hx)].
  - cbn [t_op]. rewrite decide_True by done. apply last_snoc.
  - rewrite decide_False; [rewrite app_nil_r; by apply (Hl u x)|].
    intros Eh. apply Hne. pose proof (ci_lock _ _ _ I) as Hk. cbn [locks threads] in Hk.
    assert (E1 : L !! op_handle o = Some t) by (apply Hk; exists (TStored o fd); done).
    assert (E2 : L !! op_handle o = Some u) by (apply Hk; exists x; by rewrite Eh).
    congruence.
Qed.

Lemma creachable_last_on_handle ops w0 c : creachable fpa ops w0 c -> cinv ops w0 c /\ last_on_handle ops c.
Proof.
  unfold creachable. intros Hr. remember (cinitial ops w0) as c0 eqn:E.
  assert (I0 : cinv ops w0 c0 /\ last_on_handle ops c0).
  { subst. split; [apply cinv_initial|]. intros t s Hs Hc.
    cbn [threads cinitial] in Hs. rewrite list_lookup_fmap in Hs.
    destruct (ops !! t); cbn in Hs; [injection Hs as <-|]; done. }
  clear E. induction Hr as [|c1 c2 c3 H12 _ IH]; [done|]. apply IH.
  destruct I0 as [I Hl]. split; [by eapply cstep_cinv|by eapply cstep_last_on_handle].
Qed.

(** C21: Requests on one handle reach the host in the order in which the
    threads took its lock: in every reachable configuration, a thread
    holding the lock of a handle after its port write made the last
    request on that handle, so no other thread's request on the handle
    comes between its acquisition and its release. *)
Theorem port_order_follows_lock ops w0 c t s :
  creachable fpa ops w0 c -> threads c !! t = Some s -> critical s = true -> ported s = true ->
  last (handle_order ops (op_handle (t_op s)) (porder c)) = Some t.
Proof. intros Hr. apply (creachable_last_on_handle ops w0 c Hr). Qed.
End Ordering.
