(* ===== verification/Linearize.v ===== *)
(** * Interleaved calls are the calls one after the other

    Against the uhyve host, with every thread's frame in its own memory
    and the buffers outside all frames, a complete run of the threads
    of [Threads] ends in the world, and with the results, that running
    the [ObjectInterface] calls ([Threads.op_call]) one after the other,
    in the order of their port writes, gives ([linearizable]).  The
    proof relates the interleaved configuration to the sequential run
    of the threads that have written to the port ([seq_run]): the two
    agree on all of memory but the frames of the threads that stored
    their request and have not yet written to the port.  The lemma
    [op_call_steps] shows that a call is the composition of its steps. *)

From stdpp Require Import base list gmap.
From Stdlib Require Import ZArith Lia.
From S2P Require Import Prelude Kernel Wire Transport HostFs Handle Frames Threads.

Open Scope Z_scope.

(** The value of a completed computation, dropping its world. *)
Definition out_of {A S} (r : outcome (A * S)) : outcome A :=
  match r with Done (a, _) => Done a | Panic p => Panic p end.

(** The largest request structure, [SysRead]. *)
Definition FRAME_SIZE : Z := 28.

(** The buffer the host reads from or writes to. *)
Definition buf_range (o : op) (x : Z) : Prop :=
  match o with
  | ORead _ buf len | OWrite _ buf len => range buf len x
  | OLseek _ _ _ => False
  end.

(** The fields of the request are in range for their types. *)
Definition op_ok (o : op) : bool :=
  match o with
  | ORead _ buf len | OWrite _ buf len => u64_ok buf && u64_ok len
  | OLseek _ off _ => isize_ok off
  end.

Section Sequential.
Context `{Platform} `{Host}.
Variable fpa : nat -> Z.

(** The request [req] stored at [pa], then the port write. *)
Definition call_world (pa port : Z) (req : list Z) (w : world) : world :=
  let w1 := set_mem (store_bytes pa req (mem w)) w in
  match port_write port (port_value pa) req w1 with
  | Done (_, w2) => w2
  | Panic _ => w1
  end.

(** What a call does to the world. *)
Definition op_effect (t : nat) (o : op) (w : world) : world :=
  match inners w !! op_handle o with
  | None => w
  | Some ic => call_world (fpa t) (op_port o) (op_req o (ic_fd ic)) w
  end.

(** What a call returns: the result read back from the frame. *)
Definition op_outcome (t : nat) (o : op) (w : world) : outcome (result Z IoError) :=
  match inners w !! op_handle o with
  | None => Panic InvalidReference
  | Some _ => out_of (op_ret o (load_bytes (mem (op_effect t o w)) (fpa t) (op_size o)) (op_effect t o w))
  end.

Variable ops : list op.

(** The threads of [order] run one after the other: the world and the
    outcome of each. *)
Fixpoint seq_run (order : list nat) (w : world) (outs : gmap nat (outcome (result Z IoError)))
  : world * gmap nat (outcome (result Z IoError)) :=
  match order with
  | [] => (w, outs)
  | t :: order' =>
      match ops !! t with
      | Some o => seq_run order' (op_effect t o w) (<[t := op_outcome t o w]> outs)
      | None => seq_run order' w outs
      end
  end.

(** The calls of the threads of [order] one after the other. *)
Variable fva : nat -> Z.
Fixpoint run_calls (order : list nat) : St world (list (result Z IoError)) :=
  match order with
  | [] => mret []
  | t :: order' =>
      match ops !! t with
      | Some o => r ← op_call (fva t) o; rs ← run_calls order'; mret (r :: rs)
      | None => run_calls order'
      end
  end.
End Sequential.

(** ** A call is the composition of its steps *)

Section Decomposition.
Context `{Platform} `{Host}.

Lemma out_of_neutral o bs w :
  op_ret o bs w = match out_of (op_ret o bs w) with Done r => Done (r, w) | Panic p => Panic p end.
Proof.
  destruct (op_ret o bs w) as [[r w']|p] eqn:E; [|done].
  by apply op_ret_neutral in E as ->.
Qed.

Lemma sent_call_world {T} `{Wire T} port pa (d : T) w :
  sent port pa d w =
    (decode T (load_bytes (mem (call_world pa port (encode d) w)) pa (wire_size T)),
     call_world pa port (encode d) w).
Proof. unfold sent, call_world, port_write, frame_mem, set_mem. simpl. by destruct host_serve. Qed.

Lemma inner_at_bind {A} p (k : inner_cell -> St world A) w :
  (inner_at p ≫= k) w = match inners w !! p with Some c => k c w | None => Panic InvalidReference end.
Proof. unfold mbind, St_bind, inner_at. by destruct (inners w !! p). Qed.

Variables (fva fpa : nat -> Z).
Hypothesis Harch : arch <> RiscV64.

(** The [ObjectInterface] call of thread [t] is the port write of its
    request from its frame followed by the reading of the result. *)
Lemma op_call_steps t o w :
  virtual_to_physical (fva t) = Some (fpa t) ->
  op_call (fva t) o w =
    match op_outcome fpa t o w with Done r => Done (r, op_effect fpa t o w) | Panic p => Panic p end.
Proof.
  intros Hva. unfold op_outcome, op_effect.
  destruct o as [p buf len|p buf len|p off wh]; cbn [op_call op_handle];
    [unfold UhyveFileHandle.read, UhyveFileHandleInner.read
    |unfold UhyveFileHandle.write, UhyveFileHandleInner.write
    |unfold UhyveFileHandle.lseek, UhyveFileHandleInner.lseek, SysLseek.new];
    rewrite inner_at_bind; destruct (inners w !! p) as [ic|]; try done;
    try (rewrite to_i32_total, unwrap_Some, !bind_ret);
    rewrite (uhyve_send_bind _ _ (fpa t)), sent_call_world by auto;
    rewrite <- out_of_neutral; reflexivity.
Qed.
End Decomposition.

(** ** The uhyve host touches only the caller's frame and buffer *)

(** The frame at [pa] and the buffer of the operation. *)
Definition op_fp (pa : Z) (o : op) (x : Z) : Prop :=
  range pa (Z.of_nat (op_size o)) x \/ buf_range o x.

Lemma read_req_ok fd buf len :
  i32_ok fd = true -> u64_ok buf = true -> u64_ok len = true -> wire_ok (SysRead.new fd buf len) = true.
Proof.
  intros Hfd Hb Hl. unfold wire_ok. cbn -[in_sint in_uint].
  change (8 * Z.of_nat 4) with 32. change (8 * Z.of_nat 8) with 64.
  rewrite Hfd, Hb, Hl. reflexivity.
Qed.

Lemma write_req_ok fd buf len :
  i32_ok fd = true -> u64_ok buf = true -> u64_ok len = true -> wire_ok (SysWrite.new fd buf len) = true.
Proof.
  intros Hfd Hb Hl. unfold wire_ok. cbn -[in_sint in_uint].
  change (8 * Z.of_nat 4) with 32. change (8 * Z.of_nat 8) with 64.
  rewrite Hfd, Hb, Hl. reflexivity.
Qed.

Lemma lseek_req_ok fd off wh :
  i32_ok fd = true -> isize_ok off = true -> wire_ok (SysLseek.mk fd off (whence_code wh)) = true.
Proof.
  intros Hfd Ho. unfold wire_ok. cbn -[in_sint in_uint].
  change (8 * Z.of_nat 4) with 32. change (8 * Z.of_nat 8) with 64.
  rewrite Hfd, Ho. by destruct wh.
Qed.

Lemma u64_nonneg x : u64_ok x = true -> 0 <= x.
Proof. intros H%in_uint_spec. lia. Qed.

(** The host's result field lies in the request's frame. *)
Lemma result_in_frame (T : Type) `{Wire T} pa off k x y :
  (off + kind_size k <= wire_size T)%nat ->
  range (pa + Z.of_nat off) (Z.of_nat (length (encode_field k x))) y ->
  range pa (Z.of_nat (wire_size T)) y.
Proof. rewrite length_encode_field. unfold range. lia. Qed.

Section UhyveFootprint.
Context `{HostFs}.

Ltac serve_op Hh :=
  match type of Hh with
  | holds ?pa (encode (SysRead.new ?fd ?buf ?len)) ?m =>
      rewrite (serve_read_holds _ pa (SysRead.new fd buf len) m); [|apply read_req_ok; assumption|exact Hh]
  | holds ?pa (encode (SysWrite.new ?fd ?buf ?len)) ?m =>
      rewrite (serve_write_holds _ pa (SysWrite.new fd buf len) m); [|apply write_req_ok; assumption|exact Hh]
  | holds ?pa (encode (SysLseek.mk ?fd ?off ?wh)) ?m =>
      rewrite (serve_lseek_holds _ pa (SysLseek.mk fd off wh) m); [|apply lseek_req_ok; assumption|exact Hh]
  end.

(** The host writes only the frame and the buffer. *)
Lemma serve_op_only h pa o fd m :
  op_ok o = true -> i32_ok fd = true -> holds pa (op_req o fd) m ->
  agree (fun x => ~ op_fp pa o x) (uhyve_serve h (op_port o) pa m).2 m.
Proof.
  intros Hok Hfd Hh. unfold op_fp.
  destruct o as [p buf len|p buf len|p off wh]; cbn [op_port op_req op_ok buf_range op_size] in *;
    rewrite ?andb_true_iff in Hok; try (match type of Hok with _ /\ _ => destruct Hok as [Hok Hok2] end); serve_op Hh; cbn [SysRead.fd SysRead.buf SysRead.len SysRead.new
      SysWrite.fd SysWrite.buf SysWrite.len SysWrite.new SysLseek.fd SysLseek.offset SysLseek.whence].
  - destruct (fs_serve _ _) as [h' [r data]]. cbn [snd]. unfold put_field.
    eapply agree_trans; apply agree_store_out; intros x Hx Hn; apply Hn.
    + left. eapply (result_in_frame SysRead.t _ 20 (KI 8)); [compute; lia|exact Hx].
    + right. apply length_take_le_range in Hx; [done|]. by apply u64_nonneg.
  - apply agree_refl.
  - destruct (fs_serve _ _) as [h' [r data]]. cbn [snd]. unfold put_field.
    apply agree_store_out. intros x Hx Hn. apply Hn. left.
    eapply (result_in_frame SysLseek.t _ 4 (KI 8)); [compute; lia|exact Hx].
Qed.

(** On two memories that hold the request and agree on [P], which
    contains the buffer, the host answers alike and the memories it
    leaves agree on [P]. *)
Lemma serve_op_agree h pa o fd m1 m2 (P : Z -> Prop) :
  op_ok o = true -> i32_ok fd = true -> holds pa (op_req o fd) m1 -> holds pa (op_req o fd) m2 ->
  agree P m1 m2 -> (forall x, buf_range o x -> P x) ->
  (uhyve_serve h (op_port o) pa m1).1 = (uhyve_serve h (op_port o) pa m2).1 /\
  agree P (uhyve_serve h (op_port o) pa m1).2 (uhyve_serve h (op_port o) pa m2).2.
Proof.
  intros Hok Hfd Hh1 Hh2 Ha Hb.
  destruct o as [p buf len|p buf len|p off wh]; cbn [op_port op_req op_ok buf_range op_size] in *;
    rewrite ?andb_true_iff in Hok; try (match type of Hok with _ /\ _ => destruct Hok as [Hok Hok2] end); serve_op Hh1; serve_op Hh2; cbn [SysRead.fd SysRead.buf
      SysRead.len SysRead.new SysWrite.fd SysWrite.buf SysWrite.len SysWrite.new SysLseek.fd
      SysLseek.offset SysLseek.whence].
  - destruct (fs_serve _ _) as [h' [r data]]. split; [done|]. unfold put_field. by apply agree_store, agree_store.
  - rewrite (agree_load buf (Z.to_nat len) m1 m2); [done|].
    apply (agree_weaken P); [|done]. intros x Hx. apply Hb. apply u64_nonneg in Hok2.
    unfold range in *. lia.
  - destruct (fs_serve _ _) as [h' [r data]]. split; [done|]. unfold put_field. by apply agree_store.
Qed.
End UhyveFootprint.

(** ** The sequential run *)

Section SeqRun.
Context `{Platform} `{Host}.
Variables (fpa : nat -> Z) (ops : list op).

Lemma seq_run_app ord t w outs :
  seq_run fpa ops (ord ++ [t]) w outs =
    let '(wa, os) := seq_run fpa ops ord w outs in
    match ops !! t with
    | Some o => (op_effect fpa t o wa, <[t := op_outcome fpa t o wa]> os)
    | None => (wa, os)
    end.
Proof.
  revert w outs. induction ord as [|u ord IH]; intros w outs; simpl.
  - by destruct (ops !! t).
  - destruct (ops !! u); apply IH.
Qed.

Lemma out_of_op_ret_world o bs w1 w2 : out_of (op_ret o bs w1) = out_of (op_ret o bs w2).
Proof.
  destruct o; cbv [op_ret UhyveFileHandleInner.read_ret UhyveFileHandleInner.write_ret
    UhyveFileHandleInner.lseek_ret mbind mret St_bind St_ret unwrap abort out_of];
    repeat case_match; congruence.
Qed.
End SeqRun.

(** ** The simulation *)

Lemma op_size_le o : Z.of_nat (op_size o) <= FRAME_SIZE.
Proof. destruct o; cbv; discriminate. Qed.

Lemma holds_agree_both a bs m1 m2 :
  holds a bs m1 -> holds a bs m2 -> agree (range a (Z.of_nat (length bs))) m1 m2.
Proof.
  intros H1 H2 x Hx. unfold range in Hx.
  destruct (lookup_lt_is_Some_2 bs (Z.to_nat (x - a))) as [b Hb]; [lia|].
  pose proof (H1 _ _ Hb) as E1. pose proof (H2 _ _ Hb) as E2.
  rewrite Z2Nat.id in E1, E2 by lia. replace (a + (x - a)) with x in E1, E2 by lia. congruence.
Qed.

Lemma length_op_req o fd : length (op_req o fd) = op_size o.
Proof. destruct o; apply length_encode. Qed.

Section Simulation.
Context `{Platform} `{HostFs}.
Variables (fpa : nat -> Z) (ops : list op) (w0 : world).
Hypothesis Hpv : forall t, (t < length ops)%nat -> port_value (fpa t) = fpa t.
Hypothesis Hframes : forall t u x, (t < length ops)%nat -> (u < length ops)%nat -> t <> u ->
  range (fpa t) FRAME_SIZE x -> ~ range (fpa u) FRAME_SIZE x.
Hypothesis Hops_ok : forall t o, ops !! t = Some o -> op_ok o = true.
Hypothesis Hbufs : forall t o x u, ops !! t = Some o -> (u < length ops)%nat -> buf_range o x ->
  ~ range (fpa u) FRAME_SIZE x.
Hypothesis Hfds : forall p ic, inners w0 !! p = Some ic -> i32_ok (ic_fd ic) = true.

(** The frames of the threads that stored their request and have not
    yet written to the port. *)
Definition stored_at (c : cconfig) (x : Z) : Prop :=
  exists t o fd, threads c !! t = Some (TStored o fd) /\ range (fpa t) (Z.of_nat (op_size o)) x.

(** The outcome of a thread past its port write. *)
Definition st_out (w : world) (t : nat) (s : tstate) : outcome (result Z IoError) :=
  match s with
  | TServed o _ => out_of (op_ret o (load_bytes (mem w) (fpa t) (op_size o)) w)
  | TLoaded _ r | TDone _ r => Done r
  | TPanicked _ p => Panic p
  | _ => Panic Todo
  end.

Definition sworld (c : cconfig) : world := (seq_run fpa ops (porder c) w0 ∅).1.
Definition souts (c : cconfig) : gmap nat (outcome (result Z IoError)) := (seq_run fpa ops (porder c) w0 ∅).2.

Record linv (c : cconfig) : Prop := {
  li_cinv : cinv ops w0 c;
  li_hst : hst (cworld c) = hst (sworld c);
  li_trace : trace (cworld c) = trace (sworld c);
  li_inners : inners (sworld c) = inners w0;
  li_handles : handles (cworld c) = handles (sworld c);
  li_freed : freed (cworld c) = freed (sworld c);
  li_mem : agree (fun x => ~ stored_at c x) (mem (cworld c)) (mem (sworld c));
  li_held : forall t o fd, threads c !! t = Some (TStored o fd) ->
    holds (fpa t) (op_req o fd) (mem (cworld c));
  li_outs : forall t s, threads c !! t = Some s -> ported s = true ->
    souts c !! t = Some (st_out (cworld c) t s)
}.

Definition is_stored (s : tstate) : bool := match s with TStored _ _ => true | _ => false end.

(** A step of thread [t] that touches neither memory nor the order and
    moves [t] between states that hold no stored request. *)
Lemma linv_local w L L' ts ord t s s' :
  linv (CC w L ts ord) -> ts !! t = Some s -> cinv ops w0 (CC w L' (<[t := s']> ts) ord) ->
  is_stored s = false -> is_stored s' = false -> ported s' = ported s ->
  (ported s = true -> st_out w t s' = st_out w t s) ->
  linv (CC w L' (<[t := s']> ts) ord).
Proof.
  intros [I Hh Htr Hin Hha Hfr Hm Hheld Houts] Ht I' Hs Hs' Hp Ho.
  unfold sworld, souts in *. cbn [cworld threads porder] in *.
  split; cbn [cworld threads porder]; try done.
  - intros x Hx. apply Hm. intros Hx'. apply Hx. destruct Hx' as (u & o & fd & Hu & Hr).
    exists u, o, fd. cbn [threads] in *. split; [|done].
    rewrite list_lookup_insert_ne; [done|]. intros E. subst. rewrite Ht in Hu. injection Hu as ->. discriminate.
  - intros u o fd Hu. apply lookup_insert_cases in Hu as [(-> & <-)|(_ & Hu)]; [done|eauto].
  - intros u x Hu Hpu. apply lookup_insert_cases in Hu as [(-> & ->)|(_ & Hu)]; [|eauto].
    rewrite Ho by congruence. apply Houts; [done|congruence].
Qed.

Lemma lt_ops (ts : list tstate) t s : length ts = length ops -> ts !! t = Some s -> (t < length ops)%nat.
Proof. intros <-. apply lookup_lt_Some. Qed.

Lemma frames_disj t u o o' x :
  (t < length ops)%nat -> (u < length ops)%nat ->
  t <> u -> range (fpa t) (Z.of_nat (op_size o)) x -> ~ range (fpa u) (Z.of_nat (op_size o')) x.
Proof.
  intros Htl Hul Htu Ht Hu. pose proof (op_size_le o). pose proof (op_size_le o').
  apply (Hframes t u x Htl Hul Htu); unfold range in *; lia.
Qed.

Lemma st_out_mem w1 w2 u s :
  agree (range (fpa u) (Z.of_nat (op_size (t_op s)))) (mem w1) (mem w2) -> st_out w1 u s = st_out w2 u s.
Proof.
  intros Ha. destruct s as [o|o fd|o fd|o fd|o r|o r|o p]; try reflexivity. cbn [st_out t_op] in *.
  rewrite (agree_load _ _ _ _ Ha). apply out_of_op_ret_world.
Qed.

(** [SysRead::new(..)]: the request is stored in the thread's frame. *)
Lemma linv_store w L ts ord t o fd :
  linv (CC w L ts ord) -> ts !! t = Some (TLocked o fd) ->
  cinv ops w0 (CC (set_mem (store_bytes (fpa t) (op_req o fd) (mem w)) w) L (<[t := TStored o fd]> ts) ord) ->
  linv (CC (set_mem (store_bytes (fpa t) (op_req o fd) (mem w)) w) L (<[t := TStored o fd]> ts) ord).
Proof.
  intros [I Hh Htr Hin Hha Hfr Hm Hheld Houts] Ht I'.
  unfold sworld, souts in *. cbn [cworld threads porder] in *.
  pose proof (ci_len _ _ _ I) as Hlen. cbn [threads] in Hlen.
  assert (Hout : forall u o' x, (u < length ops)%nat -> u <> t -> range (fpa u) (Z.of_nat (op_size o')) x ->
            store_bytes (fpa t) (op_req o fd) (mem w) !! x = mem w !! x).
  { intros u o' x Hul Hut Hx.
    refine (agree_store_out (range (fpa u) (Z.of_nat (op_size o'))) _ _ _ _ x Hx).
    rewrite length_op_req. intros y Hy Hy'.
    by apply (frames_disj t u o o' y (lt_ops _ _ _ Hlen Ht) Hul). }
  split; cbn [cworld threads porder set_mem mem hst trace inners handles freed]; try done.
  - intros x Hx.
    assert (Hxt : ~ range (fpa t) (Z.of_nat (op_size o)) x).
    { intros Hr. apply Hx. exists t, o, fd. split; [|done].
      cbn [threads]. apply list_lookup_insert_eq. by eapply lookup_lt_Some. }
    rewrite (agree_store_out (fun y => ~ range (fpa t) (Z.of_nat (op_size o)) y) (fpa t) (op_req o fd)
      (mem w) ltac:(rewrite length_op_req; by intros y Hy Hy') x Hxt).
    apply Hm. intros (u & o' & fd' & Hu & Hr). apply Hx. exists u, o', fd'. split; [|done].
    cbn [threads]. rewrite list_lookup_insert_ne; [done|]. intros ->. cbn [threads] in Hu. congruence.
  - intros u o' fd' Hu. apply lookup_insert_cases in Hu as [(-> & [= <- <-])|(Hut & Hu)].
    + apply holds_store.
    + eapply holds_agree; [by apply Hheld|]. intros x Hx. symmetry.
      apply (Hout u o'); [exact (lt_ops _ _ _ Hlen Hu)|done|].
      by rewrite length_op_req in Hx.
  - intros u x Hu Hpu. apply lookup_insert_cases in Hu as [(-> & ->)|(Hut & Hu)]; [done|].
    rewrite (st_out_mem _ w); [by apply Houts|]. intros y Hy.
    by apply (Hout u (t_op x)); [exact (lt_ops _ _ _ Hlen Hu)|..].
Qed.

Lemma port_write_serve port v req (w : world) :
  port_write port v req w =
    Done (tt, mkWorld (uhyve_serve (hst w) port v (mem w)).2 (uhyve_serve (hst w) port v (mem w)).1
                (trace w ++ [HC port v req]) (inners w) (handles w) (freed w)).
Proof. unfold port_write. cbn [host_serve uhyve_host]. by destruct (uhyve_serve _ _ _ _). Qed.

(** Thread [t]'s footprint misses the frame of every other thread. *)
Lemma fp_disj t u o o' x :
  ops !! t = Some o -> (u < length ops)%nat -> t <> u ->
  op_fp (fpa t) o x -> ~ range (fpa u) (Z.of_nat (op_size o')) x.
Proof.
  intros Ho Hul Htu [Hx|Hx] Hu; [by apply (frames_disj t u o o' x (lookup_lt_Some _ _ _ Ho) Hul)|].
  apply (Hbufs t o x u Ho Hul Hx). pose proof (op_size_le o'). unfold range in *. lia.
Qed.

(** The port write: the interleaved world and the sequential one, which
    now runs [t]'s call, still agree. *)
Lemma linv_port w w' L ts ord t o fd :
  linv (CC w L ts ord) -> ts !! t = Some (TStored o fd) ->
  port_write (op_port o) (port_value (fpa t)) (op_req o fd) w = Done (tt, w') ->
  cinv ops w0 (CC w' L (<[t := TServed o fd]> ts) (ord ++ [t])) ->
  linv (CC w' L (<[t := TServed o fd]> ts) (ord ++ [t])).
Proof.
  intros [I Hh Htr Hin Hha Hfr Hm Hheld Houts] Ht Hp I'.
  unfold sworld, souts in *. cbn [cworld threads porder] in *.
  pose proof (ci_ops _ _ _ I t _ Ht) as Ho. cbn [t_op] in Ho.
  destruct (ci_fd _ _ _ I t _ fd Ht eq_refl) as (ic & Hic & <-). cbn [t_op] in Hic.
  pose proof (Hfds _ _ Hic) as Hfd. pose proof (Hops_ok _ _ Ho) as Hok.
  pose proof (lookup_lt_Some _ _ _ Ho) as Htl.
  assert (Hlen' : length (<[t := TServed o (ic_fd ic)]> ts) = length ops)
    by (rewrite length_insert; apply (ci_len _ _ _ I)).
  destruct (seq_run fpa ops ord w0 ∅) as [wa os] eqn:Eseq. cbn [fst snd] in *.
  assert (Hseq : seq_run fpa ops (ord ++ [t]) w0 ∅ =
     (call_world (fpa t) (op_port o) (op_req o (ic_fd ic)) wa,
      <[t := out_of (op_ret o (load_bytes (mem (call_world (fpa t) (op_port o) (op_req o (ic_fd ic)) wa))
               (fpa t) (op_size o)) (call_world (fpa t) (op_port o) (op_req o (ic_fd ic)) wa))]> os)).
  { rewrite seq_run_app, Eseq, Ho. unfold op_outcome, op_effect. by rewrite Hin, Hic. }
  set (P := fun x => ~ stored_at (CC w' L (<[t := TServed o (ic_fd ic)]> ts) (ord ++ [t])) x).
  rewrite port_write_serve, (Hpv t Htl) in Hp. injection Hp as Ew'. subst w'.
  set (m2 := store_bytes (fpa t) (op_req o (ic_fd ic)) (mem wa)).
  assert (Hlt : (t < length ts)%nat) by (by eapply lookup_lt_Some).
  assert (HP : forall x, ~ range (fpa t) (Z.of_nat (op_size o)) x -> P x ->
                 ~ stored_at (CC w L ts ord) x).
  { intros x Hx HPx (u & o' & fd' & Hu & Hr). cbn [threads] in Hu.
    destruct (decide (u = t)) as [->|Hut]; [rewrite Ht in Hu; injection Hu as <- <-; done|].
    apply HPx. exists u, o', fd'. split; [|done]. cbn [threads]. by rewrite list_lookup_insert_ne. }
  assert (HPt : forall x, range (fpa t) (Z.of_nat (op_size o)) x -> P x).
  { intros x Hx (u & o' & fd' & Hu & Hr). cbn [threads] in Hu.
    apply lookup_insert_cases in Hu as [(-> & [=])|(Hut & Hu)].
    by apply (frames_disj t u o o' x Htl (lt_ops _ _ _ (ci_len _ _ _ I) Hu) (not_eq_sym Hut)). }
  assert (Hheldt := Hheld t o (ic_fd ic) Ht).
  assert (Hagree : agree P (mem w) m2).
  { intros x HPx. destruct (decide (range (fpa t) (Z.of_nat (op_size o)) x)) as [Hx|Hx].
    - apply (holds_agree_both (fpa t) (op_req o (ic_fd ic))); [done|apply holds_store|by rewrite length_op_req].
    - rewrite Hm by (by apply HP). symmetry. apply lookup_store_bytes_out.
      unfold range in Hx. rewrite length_op_req. lia. }
  assert (Hbuf : forall x, buf_range o x -> P x).
  { intros x Hx (u & o' & fd' & Hu & Hr). apply (Hbufs t o x u Ho (lt_ops _ _ _ Hlen' Hu) Hx).
    pose proof (op_size_le o'). unfold range in *. lia. }
  destruct (serve_op_agree (hst w) (fpa t) o (ic_fd ic) (mem w) m2 P Hok Hfd Hheldt (holds_store _ _ _)
              Hagree Hbuf) as [Hh' Hm'].
  pose proof (serve_op_only (hst w) (fpa t) o (ic_fd ic) (mem w) Hok Hfd Hheldt) as Honly.
  assert (Hframe_u : forall u o', (u < length ops)%nat -> u <> t ->
            agree (range (fpa u) (Z.of_nat (op_size o')))
              (uhyve_serve (hst w) (op_port o) (fpa t) (mem w)).2 (mem w)).
  { intros u o' Hul Hut x Hx. apply Honly. intros Hfp. by apply (fp_disj t u o o' x Ho Hul (not_eq_sym Hut)). }
  assert (Hcw : call_world (fpa t) (op_port o) (op_req o (ic_fd ic)) wa =
     mkWorld (uhyve_serve (hst wa) (op_port o) (fpa t) m2).2 (uhyve_serve (hst wa) (op_port o) (fpa t) m2).1
       (trace wa ++ [HC (op_port o) (fpa t) (op_req o (ic_fd ic))]) (inners wa) (handles wa) (freed wa)).
  { unfold call_world, set_mem. by rewrite port_write_serve, (Hpv t Htl). }
  split; unfold sworld, souts; cbn [cworld threads porder]; rewrite ?Hseq; cbn [fst snd];
    rewrite ?Hcw; cbn [mem hst trace inners handles freed]; try done.
  - rewrite <- Hh. exact Hh'.
  - f_equal. exact Htr.
  - rewrite <- Hh. exact Hm'.
  - intros u o' fd' Hu. apply lookup_insert_cases in Hu as [(-> & [=])|(Hut & Hu)].
    eapply holds_agree; [by apply Hheld|]. rewrite length_op_req.
    apply agree_sym, Hframe_u; [exact (lt_ops _ _ _ (ci_len _ _ _ I) Hu)|exact Hut].
  - intros u x Hu Hpu. apply lookup_insert_cases in Hu as [(-> & ->)|(Hut & Hu)].
    + rewrite lookup_insert_eq. cbn [st_out]. f_equal.
      rewrite (out_of_op_ret_world o _ _ w). symmetry. rewrite (out_of_op_ret_world o _ _ w).
      cbn [mem]. rewrite <- Hh. do 2 f_equal.
      apply agree_load. apply (agree_weaken P); [exact HPt|exact Hm'].
    + rewrite lookup_insert_ne by congruence. rewrite (Houts u x) by done.
      f_equal. apply (st_out_mem w _ u x).
      apply agree_sym, Hframe_u; [exact (lt_ops _ _ _ (ci_len _ _ _ I) Hu)|exact Hut].
Qed.

Lemma linv_initial : linv (cinitial ops w0).
Proof.
  split; unfold sworld, souts; cbn [cinitial cworld threads porder seq_run fst snd]; try done.
  - apply cinv_initial.
  - intros t o fd. rewrite list_lookup_fmap. destruct (ops !! t); simpl; [|done]. by intros [=].
  - intros t s. rewrite list_lookup_fmap. destruct (ops !! t); simpl; [|done]. by intros [= <-].
Qed.

Lemma linv_step c c' : cstep fpa c c' -> linv c -> linv c'.
Proof.
  intros Hs Il. pose proof (cstep_cinv fpa ops w0 c c' Hs (li_cinv c Il)) as I'.
  destruct Hs as [t o ic w L ts ord Ht Hfree Hic|t o fd w L ts ord Ht|t o fd w w' L ts ord Ht Hp
    |t o fd r w w' L ts ord Ht Hr|t o fd p w L ts ord Ht Hr|t o r w L ts ord Ht].
  - by eapply linv_local.
  - by eapply linv_store.
  - by eapply linv_port.
  - pose proof (op_ret_neutral _ _ _ _ _ Hr) as ->.
    eapply linv_local; [exact Il|exact Ht|exact I'|done|done|done|].
    intros _. cbn [st_out]. by rewrite Hr.
  - eapply linv_local; [exact Il|exact Ht|exact I'|done|done|done|].
    intros _. cbn [st_out]. by rewrite Hr.
  - by eapply linv_local.
Qed.

Lemma creachable_linv c : creachable fpa ops w0 c -> linv c.
Proof.
  unfold creachable. intros Hr. remember (cinitial ops w0) as c0 eqn:E.
  assert (I0 : linv c0) by (subst; apply linv_initial).
  clear E. induction Hr as [|c1 c2 c3 H12 _ IH]; [done|]. apply IH. by eapply linv_step.
Qed.
End Simulation.

(** ** Complete runs *)

Section RunCalls.
Context `{Platform} `{Host}.
Variables (fva fpa : nat -> Z) (ops : list op).
Hypothesis Harch : arch <> RiscV64.
Hypothesis Hmap : forall t, (t < length ops)%nat -> virtual_to_physical (fva t) = Some (fpa t).

Lemma seq_run_outs_notin ord w outs t :
  t ∉ ord -> (seq_run fpa ops ord w outs).2 !! t = outs !! t.
Proof.
  revert w outs. induction ord as [|u ord IH]; intros w outs Ht; [done|].
  apply not_elem_of_cons in Ht as [Htu Ht]. simpl.
  destruct (ops !! u); rewrite IH by done; [|done]. by rewrite lookup_insert_ne.
Qed.

(** When every thread of [order] completed, running their calls one
    after the other gives their outcomes and the same world. *)
Lemma run_calls_seq ord w outs :
  NoDup ord ->
  (forall t, t ∈ ord -> is_Some (ops !! t) /\
     exists r, (seq_run fpa ops ord w outs).2 !! t = Some (Done r)) ->
  exists rs, run_calls ops fva ord w = Done (rs, (seq_run fpa ops ord w outs).1) /\
    Forall2 (fun t r => (seq_run fpa ops ord w outs).2 !! t = Some (Done r)) ord rs.
Proof.
  revert w outs. induction ord as [|t ord IH]; intros w outs Hnd Hall.
  - exists []. split; [done|constructor].
  - apply NoDup_cons in Hnd as [Ht Hnd].
    destruct (Hall t (list_elem_of_here _ _)) as [[o Ho] [r Hr]].
    cbn [seq_run run_calls] in *. rewrite Ho in Hr |- *.
    rewrite seq_run_outs_notin, lookup_insert_eq in Hr by done. injection Hr as Hr.
    destruct (IH (op_effect fpa t o w) (<[t := op_outcome fpa t o w]> outs)) as (rs & Hrun & Hf).
    { done. }
    { intros u Hu. destruct (Hall u (list_elem_of_further _ _ _ Hu)) as [Hs Hd].
      rewrite Ho in Hd. split; [done|exact Hd]. }
    rewrite Hr in Hrun, Hf. exists (r :: rs). split.
    + unfold mbind at 1, St_bind at 1. rewrite (op_call_steps fva fpa Harch t o w (Hmap t (lookup_lt_Some _ _ _ Ho))), Hr.
      unfold mbind, St_bind. rewrite Hrun. reflexivity.
    + rewrite Hr. constructor; [|done]. by rewrite seq_run_outs_notin, lookup_insert_eq by done.
Qed.
End RunCalls.

Section Linearizable.
Context `{Platform} `{HostFs}.
Variables (fva fpa : nat -> Z) (ops : list op) (w0 : world).
Hypothesis Harch : arch <> RiscV64.
Hypothesis Hmap : forall t, (t < length ops)%nat -> virtual_to_physical (fva t) = Some (fpa t).
Hypothesis Hpv : forall t, (t < length ops)%nat -> port_value (fpa t) = fpa t.
Hypothesis Hframes : forall t u x, (t < length ops)%nat -> (u < length ops)%nat -> t <> u ->
  range (fpa t) FRAME_SIZE x -> ~ range (fpa u) FRAME_SIZE x.
Hypothesis Hops_ok : forall t o, ops !! t = Some o -> op_ok o = true.
Hypothesis Hbufs : forall t o x u, ops !! t = Some o -> (u < length ops)%nat -> buf_range o x ->
  ~ range (fpa u) FRAME_SIZE x.
Hypothesis Hfds : forall p ic, inners w0 !! p = Some ic -> i32_ok (ic_fd ic) = true.

Lemma Forall2_impl_in {A B} (P Q : A -> B -> Prop) l k :
  Forall2 P l k -> (forall x y, x ∈ l -> P x y -> Q x y) -> Forall2 Q l k.
Proof.
  intros HP HQ. induction HP as [|x y l k Hxy _ IH]; constructor.
  - apply HQ; [apply list_elem_of_here|done].
  - apply IH. intros x' y' Hx. apply HQ. by apply list_elem_of_further.
Qed.

Lemma world_eq (w1 w2 : world) :
  mem w1 = mem w2 -> hst w1 = hst w2 -> trace w1 = trace w2 -> inners w1 = inners w2 ->
  handles w1 = handles w2 -> freed w1 = freed w2 -> w1 = w2.
Proof. destruct w1, w2; simpl. intros -> -> -> -> -> ->. reflexivity. Qed.

(** C23: Every complete run of the threads, in whatever order their steps
    interleave, ends where running their [ObjectInterface] calls one
    after the other in the order of their port writes ends: same world,
    same results; and every thread wrote to the port exactly once. *)
Theorem linearizable c :
  creachable fpa ops w0 c ->
  (forall t s, threads c !! t = Some s -> exists r, s = TDone (t_op s) r) ->
  porder c ≡ₚ seq 0 (length ops) /\
  exists rs, run_calls ops fva (porder c) w0 = Done (rs, cworld c) /\
    Forall2 (fun t r => exists o, threads c !! t = Some (TDone o r)) (porder c) rs.
Proof.
  intros Hr Hdone.
  destruct (creachable_linv fpa ops w0 Hpv Hframes Hops_ok Hbufs Hfds c Hr)
    as [I Hh Htr Hin Hha Hfr Hm Hheld Houts].
  pose proof (ci_len _ _ _ I) as Hlen. pose proof (ci_ported _ _ _ I) as Hpo.
  assert (Hdone' : forall t, t ∈ porder c <-> (t < length ops)%nat).
  { intros t. rewrite Hpo. split.
    - intros (s & Hs & _). rewrite <- Hlen. by eapply lookup_lt_Some.
    - intros Ht. rewrite <- Hlen in Ht. destruct (lookup_lt_is_Some_2 _ _ Ht) as [s Hs].
      exists s. split; [done|]. by destruct (Hdone t s Hs) as [r ->]. }
  split.
  { apply NoDup_Permutation; [apply (ci_nodup _ _ _ I)|apply NoDup_seq|].
    intros t. rewrite Hdone', elem_of_seq. lia. }
  assert (Hw : cworld c = sworld fpa ops w0 c).
  { apply world_eq; try done; [|by rewrite Hin, (ci_inners _ _ _ I)].
    apply map_eq. intros x. apply Hm. intros (t & o & fd & Ht & _).
    destruct (Hdone t _ Ht) as [r Er]. discriminate. }
  destruct (run_calls_seq fva fpa ops Harch Hmap (porder c) w0 ∅ (ci_nodup _ _ _ I)) as (rs & Hrun & Hf).
  { intros t Ht. apply Hpo in Ht as (s & Hs & Hps). split.
    - eexists. apply (ci_ops _ _ _ I t s Hs).
    - destruct (Hdone t s Hs) as [r Es]. exists r. pose proof (Houts t _ Hs Hps) as E.
      rewrite Es in E. exact E. }
  exists rs. split.
  - rewrite Hrun. unfold sworld in Hw. by rewrite Hw.
  - eapply Forall2_impl_in; [exact Hf|]. intros t r Ht Hsr.
    apply Hpo in Ht as (s & Hs & Hps). pose proof (Houts t s Hs Hps) as Ho'.
    destruct (Hdone t s Hs) as [r' Es]. rewrite Es in Ho'. cbn [st_out] in Ho'.
    unfold souts in Ho'. rewrite Hsr in Ho'. injection Ho' as <-.
    exists (t_op s). by rewrite Hs, Es at 1.
Qed.
End Linearizable.
