(* ===== verification/Sharing.v ===== *)
(** * Threads sharing handles through their [Arc]s

    A [UhyveFileHandle] is an [Arc<SpinMutex<UhyveFileHandleInner>>]:
    threads own clones of it ([impl Clone], lines 224-228), call [read],
    [write] and [lseek] through it (lines 210-222) and drop their clones;
    the last drop runs [UhyveFileHandleInner::drop] (lines 194-199),
    which sends [SysClose], and then frees the allocation.  Each thread
    runs a program of such actions on the references it owns ([act]).

    [Arc::clone] and the decrement of [Arc::drop] are single atomic
    read-modify-writes of the strong count, so each is one step; the
    last decrement leaves the count at 0 and the thread that saw it goes
    on to the inner destructor (one step: its port write) and to the
    deallocation (one step).  A [read], [write] or [lseek] is one step:
    [Linearize] shows that the steps of such calls interleave as if each
    were indivisible.  A kernel panic stops every thread ([shalt]).

    The theorems: no thread reaches a freed allocation ([no_use_after_free]);
    each allocation is closed at most once, with its descriptor
    ([close_at_most_once]); a configuration where no thread can step has
    every program done ([stuck_is_done]), and then every allocation is
    freed and closed exactly once ([complete_closes_all]); and the three
    steps of a last drop compose to [UhyveFileHandle.drop]
    ([drop_decomposes]). *)

From stdpp Require Import base list gmap.
From Stdlib Require Import ZArith Lia.
From S2P Require Import Prelude Kernel Wire Transport HostFs Handle Lifecycle Threads.

Open Scope Z_scope.

(** ** The two halves of [Arc::drop] *)

Section ArcOps.
Context `{Platform} `{Host}.

(** [strong.fetch_sub(1, Release)]: [Some fd] when this was the last
    reference; the count is left at 0. *)
Definition arc_release (p : positive) : St world (option Z) :=
    c ← inner_at p;
    if decide (ic_strong c <= 1)%nat then
      modify (fun w => set_inners (<[p := InnerCell (ic_fd c) 0]> (inners w)) w);;
      mret (Some (ic_fd c))
    else
      modify (fun w => set_inners (<[p := InnerCell (ic_fd c) (pred (ic_strong c))]> (inners w)) w);;
      mret None.

(** The deallocation after [drop_in_place]. *)
Definition arc_free (p : positive) (fd : Z) : St world unit :=
    modify (fun w => add_freed p fd (set_inners (delete p (inners w)) w)).
End ArcOps.

(** ** Threads and their programs *)

Inductive act : Type :=
  | AClone (p : positive)
  | ADrop (p : positive)
  | AUse (o : op).

(** Where a thread is: running its program, or between the last
    decrement and the inner destructor, or between the destructor and
    the deallocation. *)
Inductive phase : Type :=
  | PRun
  | PClosing (p : positive) (fd : Z)
  | PFreeing (p : positive) (fd : Z).

Record sthread : Type := ST {
  own : list positive; prog : list act; phase_of : phase; outs : list (result Z IoError) }.

Record sconfig_of (HS : Type) : Type := SC {
  sw : world_of HS; sts : list sthread; shalt : option panic }.
Arguments SC {_} _ _ _.
Arguments sw {_} _.
Arguments sts {_} _.
Arguments shalt {_} _.
Abbreviation sconfig := (sconfig_of host_state).

(** The references a program uses are ones the thread owns at that point. *)
Fixpoint prog_ok (own : list positive) (k : list act) : bool :=
  match k with
  | [] => true
  | AClone p :: k' => bool_decide (p ∈ own) && prog_ok (p :: own) k'
  | ADrop p :: k' => bool_decide (p ∈ own) && prog_ok (remove_one p own) k'
  | AUse o :: k' => bool_decide (op_handle o ∈ own) && prog_ok own k'
  end.

Section Step.
Context `{Platform} `{Host}.
(** The virtual address of thread [t]'s stack frame. *)
Variable fva : nat -> Z.

Definition sset (w : world) (ts : list sthread) (t : nat) (th : sthread) : sconfig :=
  SC w (<[t := th]> ts) None.

(** The step thread [t] takes, if it can take one. *)
Definition snext (c : sconfig) (t : nat) : option sconfig :=
  let '(SC w ts h) := c in
  match h, ts !! t with
  | None, Some (ST own k ph rs) =>
      match ph, k with
      | PRun, AClone p :: k' =>
          if decide (p ∈ own) then
            match UhyveFileHandle.clone p w with
            | Done (_, w') => Some (sset w' ts t (ST (p :: own) k' PRun rs))
            | Panic e => Some (SC w ts (Some e))
            end
          else None
      | PRun, ADrop p :: k' =>
          if decide (p ∈ own) then
            match arc_release p w with
            | Done (None, w') => Some (sset w' ts t (ST (remove_one p own) k' PRun rs))
            | Done (Some fd, w') => Some (sset w' ts t (ST (remove_one p own) k' (PClosing p fd) rs))
            | Panic e => Some (SC w ts (Some e))
            end
          else None
      | PRun, AUse o :: k' =>
          if decide (op_handle o ∈ own) then
            match op_call (fva t) o w with
            | Done (r, w') => Some (sset w' ts t (ST own k' PRun (rs ++ [r])))
            | Panic e => Some (SC w ts (Some e))
            end
          else None
      | PRun, [] => None
      | PClosing p fd, _ =>
          match UhyveFileHandleInner.drop (fva t) fd w with
          | Done (_, w') => Some (sset w' ts t (ST own k (PFreeing p fd) rs))
          | Panic e => Some (SC w ts (Some e))
          end
      | PFreeing p fd, _ =>
          match arc_free p fd w with
          | Done (_, w') => Some (sset w' ts t (ST own k PRun rs))
          | Panic e => Some (SC w ts (Some e))
          end
      end
  | _, _ => None
  end.

Definition sstep (c c' : sconfig) : Prop := exists t, snext c t = Some c'.

Definition sinitial (w : world) (ts : list sthread) : sconfig := SC w ts None.

Definition sreach (w0 : world) (ts0 : list sthread) (c : sconfig) : Prop :=
  rtc sstep (sinitial w0 ts0) c.

(** The schedule [sched] run from [c]. *)
Fixpoint srun (c : sconfig) (sched : list nat) : option sconfig :=
  match sched with
  | [] => Some c
  | t :: sched' => c' ← snext c t; srun c' sched'
  end.
End Step.

(** ** Accounting *)

(** What every thread contributes, gathered. *)
Definition gather {A} (f : sthread -> list A) (ts : list sthread) : list A := ts ≫= f.

Definition closing_of (th : sthread) : list (positive * Z) :=
  match phase_of th with PRun => [] | PClosing p fd | PFreeing p fd => [(p, fd)] end.

Definition freeing_of (th : sthread) : list (positive * Z) :=
  match phase_of th with PFreeing p fd => [(p, fd)] | _ => [] end.

Definition is_done (th : sthread) : bool :=
  match phase_of th, prog th with PRun, [] => true | _, _ => false end.

(** A well-formed start: counts are the references the threads own,
    every thread is at the start of a program that uses only what it owns. *)
Definition sinit_ok `{Host} (w : world) (ts : list sthread) : Prop :=
  map_Forall (fun p ic => ic_strong ic = occ p (gather own ts) /\ (0 < ic_strong ic)%nat) (inners w) /\
  Forall (fun th => phase_of th = PRun /\ Forall (fun p => is_Some (inners w !! p)) (own th) /\
                    prog_ok (own th) (prog th) = true) ts.

#[export] Instance phase_eq_dec : EqDecision phase.
Proof. solve_decision. Defined.

(** ** Lemmas on the accounting *)

Lemma gather_cons {A} (f : sthread -> list A) x ts : gather f (x :: ts) = f x ++ gather f ts.
Proof. reflexivity. Qed.

Lemma gather_insert {A} (f : sthread -> list A) ts t th th' :
  ts !! t = Some th -> gather f (<[t := th']> ts) ++ f th ≡ₚ gather f ts ++ f th'.
Proof.
  unfold gather. revert t. induction ts as [|x ts IH]; intros [|t] Ht; try discriminate.
  - injection Ht as ->. cbn. solve_Permutation.
  - cbn in Ht |- *. rewrite <- !(assoc_L (++)). apply Permutation_app_head. by apply IH.
Qed.

(** [gather_insert] for a thread whose contribution is at most one item. *)
Ltac gather_step f ts t th' Ht :=
  let E := fresh "E" in
  pose proof (gather_insert f ts t _ th' Ht) as E;
  cbn [freeing_of closing_of phase_of] in E; rewrite ?app_nil_r in E; exact E.

Lemma gather_same {A} (f : sthread -> list A) ts t th th' :
  ts !! t = Some th -> f th' = f th -> gather f (<[t := th']> ts) ≡ₚ gather f ts.
Proof.
  intros Ht Hf. apply (Permutation_app_inv_r (f th)). rewrite (gather_insert f ts t th th' Ht), Hf. done.
Qed.

Lemma gather_elem {A} (f : sthread -> list A) ts t th x :
  ts !! t = Some th -> x ∈ f th -> x ∈ gather f ts.
Proof. intros Ht Hx. unfold gather. apply list_elem_of_bind. exists th. split; [done|]. by eapply list_elem_of_lookup_2. Qed.

Lemma gather_insert_elem {A} (f : sthread -> list A) ts t th th' x :
  ts !! t = Some th -> x ∈ gather f (<[t := th']> ts) -> x ∈ gather f ts \/ x ∈ f th'.
Proof.
  intros Ht Hx. assert (Hx' : x ∈ gather f ts ++ f th').
  { rewrite <- (gather_insert f ts t th th' Ht). set_solver. }
  set_solver.
Qed.

Lemma gather_insert_elem_r {A} (f : sthread -> list A) ts t th th' x :
  ts !! t = Some th -> x ∈ gather f ts -> x ∈ gather f (<[t := th']> ts) \/ x ∈ f th.
Proof.
  intros Ht Hx. assert (Hx' : x ∈ gather f (<[t := th']> ts) ++ f th).
  { rewrite (gather_insert f ts t th th' Ht). set_solver. }
  set_solver.
Qed.

Lemma occ_perm o l1 l2 : l1 ≡ₚ l2 -> occ o l1 = occ o l2.
Proof. intros Hp. unfold occ. by rewrite Hp. Qed.

Lemma occ_app o l1 l2 : occ o (l1 ++ l2) = (occ o l1 + occ o l2)%nat.
Proof. unfold occ. by rewrite filter_app, length_app. Qed.

(** How one thread's change of ownership moves the counts. *)
Lemma occ_gather_insert ts t th th' q :
  ts !! t = Some th ->
  (occ q (gather own (<[t := th']> ts)) + occ q (own th) = occ q (gather own ts) + occ q (own th'))%nat.
Proof. intros Ht. rewrite <- (occ_app q (gather own _)), <- (occ_app q (gather own ts)). apply occ_perm, gather_insert, Ht. Qed.

Lemma occ_gather_ge ts t th q : ts !! t = Some th -> (occ q (own th) <= occ q (gather own ts))%nat.
Proof.
  revert t. induction ts as [|x ts IH]; intros [|t] Ht; try discriminate; rewrite gather_cons, occ_app.
  - injection Ht as ->. lia.
  - cbn in Ht. specialize (IH t Ht). lia.
Qed.

Lemma occ_zero_notin o l : occ o l = 0%nat -> o ∉ l.
Proof. intros H0 Hin. pose proof (occ_pos o l Hin). lia. Qed.

Lemma elem_of_remove_one x o l : x ∈ remove_one o l -> x ∈ l.
Proof.
  induction l as [|y l IH]; simpl; [done|]. case_decide; [set_solver|].
  rewrite !elem_of_cons. intros [->|Hx]; auto.
Qed.

Lemma occ_remove_one_self o l : o ∈ l -> occ o (remove_one o l) = pred (occ o l).
Proof. intros Ho. rewrite occ_remove_one by done. rewrite decide_True by done. lia. Qed.

(** ** What each step does to the world *)

Lemma bind_Panic_inv {S A B} (m : St S A) (k : A -> St S B) s e :
  (m ≫= k) s = Panic e -> m s = Panic e \/ exists a s', m s = Done (a, s') /\ k a s' = Panic e.
Proof. unfold mbind, St_bind. destruct (m s) as [[a s']|e']; intros E; [right; eauto|left; congruence]. Qed.

Section Effects.
Context `{Platform} `{Host}.

(** The computations that cannot reach a freed allocation. *)
Definition no_invalid {A} (m : St world A) : Prop := forall w, m w <> Panic InvalidReference.

Lemma no_invalid_ret {A} (a : A) : no_invalid (mret a).
Proof. by intros w. Qed.

Lemma no_invalid_unwrap {A} (o : option A) : no_invalid (unwrap o).
Proof. intros w. destruct o; by cbv. Qed.

Lemma no_invalid_bind {A B} (m : St world A) (k : A -> St world B) :
  no_invalid m -> (forall a, no_invalid (k a)) -> no_invalid (m ≫= k).
Proof. intros Hm Hk w E. apply bind_Panic_inv in E as [E|(a & w' & _ & E)]; [by apply (Hm w)|by apply (Hk a w')]. Qed.

Lemma no_invalid_send {T} `{Wire T} port va (d : T) : no_invalid (uhyve_send port va d).
Proof.
  intros w. destruct (decide (arch = RiscV64)) as [E|E].
  - unfold uhyve_send. rewrite E. discriminate.
  - destruct (virtual_to_physical va) as [pa|] eqn:Hva.
    + rewrite (uhyve_send_sent port va pa d w E Hva). discriminate.
    + unfold uhyve_send. destruct arch; try congruence; run; rewrite Hva; discriminate.
Qed.

Ltac no_invalid_tac :=
  repeat first [ progress intros | apply no_invalid_ret | apply no_invalid_unwrap | apply no_invalid_send
               | apply no_invalid_bind | case_match
               | progress unfold UhyveFileHandleInner.read, UhyveFileHandleInner.write,
                   UhyveFileHandleInner.lseek, UhyveFileHandleInner.drop, SysLseek.new,
                   UhyveFileHandleInner.read_ret, UhyveFileHandleInner.write_ret,
                   UhyveFileHandleInner.lseek_ret ].

Lemma inner_drop_no_invalid va fd : no_invalid (UhyveFileHandleInner.drop va fd).
Proof. no_invalid_tac. Qed.

Lemma inner_read_no_invalid va fd b l : no_invalid (UhyveFileHandleInner.read va fd b l).
Proof. no_invalid_tac. Qed.

Lemma inner_write_no_invalid va fd b l : no_invalid (UhyveFileHandleInner.write va fd b l).
Proof. no_invalid_tac. Qed.

Lemma inner_lseek_no_invalid va fd off wh : no_invalid (UhyveFileHandleInner.lseek va fd off wh).
Proof. no_invalid_tac. Qed.

(** A call panics with [InvalidReference] only on a freed allocation. *)
Lemma op_call_invalid va o w : op_call va o w = Panic InvalidReference -> inners w !! op_handle o = None.
Proof.
  destruct o; cbn [op_call op_handle];
    unfold UhyveFileHandle.read, UhyveFileHandle.write, UhyveFileHandle.lseek;
    intros E; apply bind_Panic_inv in E as [E|(c & w' & _ & E)];
    try (unfold inner_at in E; by destruct (inners w !! _)); exfalso.
  - exact (inner_read_no_invalid _ _ _ _ w' E).
  - exact (inner_write_no_invalid _ _ _ _ w' E).
  - exact (inner_lseek_no_invalid _ _ _ _ w' E).
Qed.

Lemma clone_Done p w u w' :
  UhyveFileHandle.clone p w = Done (u, w') ->
  exists c, inners w !! p = Some c /\
    w' = set_inners (<[p := InnerCell (ic_fd c) (S (ic_strong c))]> (inners w)) w.
Proof.
  unfold UhyveFileHandle.clone, inner_at. intros E. run.
  destruct (inners w !! p) as [c|]; [|discriminate]. injection E as _ <-. eauto.
Qed.

Lemma clone_Panic p w e : UhyveFileHandle.clone p w = Panic e -> inners w !! p = None.
Proof. unfold UhyveFileHandle.clone, inner_at. intros E. run. by destruct (inners w !! p). Qed.

Lemma release_Done p w r w' :
  arc_release p w = Done (r, w') ->
  exists c, inners w !! p = Some c /\
    ((ic_strong c <= 1)%nat /\ r = Some (ic_fd c) /\
       w' = set_inners (<[p := InnerCell (ic_fd c) 0]> (inners w)) w \/
     (1 < ic_strong c)%nat /\ r = None /\
       w' = set_inners (<[p := InnerCell (ic_fd c) (pred (ic_strong c))]> (inners w)) w).
Proof.
  unfold arc_release, inner_at. intros E. run.
  destruct (inners w !! p) as [c|]; [|discriminate]. exists c. split; [done|].
  case_decide; injection E as <- <-; [left|right]; repeat split; lia.
Qed.

Lemma release_Panic p w e : arc_release p w = Panic e -> inners w !! p = None.
Proof. unfold arc_release, inner_at. intros E. run. destruct (inners w !! p); [case_decide; discriminate|done]. Qed.

(** A call is one port write to its port. *)
Lemma op_call_io va o w r w' : op_call va o w = Done (r, w') -> io_step (op_port o) w w'.
Proof.
  destruct o; cbn [op_call op_port];
    unfold UhyveFileHandle.read, UhyveFileHandle.write, UhyveFileHandle.lseek; intros E; inv_bind E;
    (eapply io_step_neutral_l; [apply neutral_inner_at|exact E0|]).
  - by eapply inner_read_io.
  - by eapply inner_write_io.
  - by eapply inner_lseek_io.
Qed.

Lemma op_port_ne_close o : op_port o <> UHYVE_PORT_CLOSE.
Proof. destruct o; apply port_ne_close; cbn; set_solver. Qed.
End Effects.

(** ** The invariant *)

Section Invariant.
Context `{Host}.
(** The world the threads start from. *)
Variable w0 : world.

(** The descriptors of live allocations are the ones they started with. *)
Definition fds_ok (w : world) : Prop :=
  forall p ic, inners w !! p = Some ic -> ic_fd <$> inners w0 !! p = Some (ic_fd ic).

(** The allocations freed since the start, [fr], each once, each with
    its descriptor; the [Close] requests sent since the start are one per
    allocation freed or past its destructor. *)
Definition hist (w : world) (ts : list sthread) : Prop :=
  exists fr, freed w = freed w0 ++ fr /\ NoDup fr.*1 /\
    (forall p, p ∈ fr.*1 <-> is_Some (inners w0 !! p) /\ inners w !! p = None) /\
    Forall (fun pf => ic_fd <$> inners w0 !! pf.1 = Some pf.2) fr /\
    closes (trace w) ≡ₚ closes (trace w0) ++ (close_req <$> (fr ++ gather freeing_of ts)).

Record sinv (w : world) (ts : list sthread) : Prop := {
  si_strong : forall p ic, inners w !! p = Some ic -> ic_strong ic = occ p (gather own ts);
  si_owned : forall p, p ∈ gather own ts -> is_Some (inners w !! p);
  si_closing : forall p fd, (p, fd) ∈ gather closing_of ts ->
    exists ic, inners w !! p = Some ic /\ ic_fd ic = fd /\ ic_strong ic = O;
  si_zero : forall p ic, inners w !! p = Some ic -> ic_strong ic = O -> p ∈ (gather closing_of ts).*1;
  si_nodup : NoDup (gather closing_of ts).*1;
  si_prog : Forall (fun th => prog_ok (own th) (prog th) = true) ts;
  si_fds : fds_ok w;
  si_hist : hist w ts
}.

(** A live allocation some thread owns a reference to has a positive count. *)
Lemma sinv_owned_pos w ts t th p :
  sinv w ts -> ts !! t = Some th -> p ∈ own th ->
  exists ic, inners w !! p = Some ic /\ (0 < ic_strong ic)%nat.
Proof.
  intros I Ht Hp. destruct (si_owned _ _ I p (gather_elem own ts t th p Ht Hp)) as [ic Hic].
  exists ic. split; [done|]. rewrite (si_strong _ _ I p ic Hic).
  pose proof (occ_pos p _ Hp). pose proof (occ_gather_ge ts t th p Ht). lia.
Qed.

(** An allocation past its last decrement has no references left. *)
Lemma sinv_closing_zero w ts p fd :
  sinv w ts -> (p, fd) ∈ gather closing_of ts ->
  exists ic, inners w !! p = Some ic /\ ic_fd ic = fd /\ ic_strong ic = O /\ occ p (gather own ts) = O.
Proof.
  intros I Hc. destruct (si_closing _ _ I p fd Hc) as (ic & Hic & Hfd & Hs).
  exists ic. rewrite <- (si_strong _ _ I p ic Hic). done.
Qed.

(** ** Each step keeps the invariant *)

(** A change of one count leaves the descriptors and the history. *)
Lemma fds_count w p c n :
  inners w !! p = Some c -> fds_ok w -> fds_ok (set_inners (<[p := InnerCell (ic_fd c) n]> (inners w)) w).
Proof.
  intros Hc Hf q ic. cbn [inners set_inners]. rewrite lookup_insert_Some.
  intros [(<- & <-)|(_ & Hq)]; [apply (Hf p c Hc)|apply (Hf q ic Hq)].
Qed.

Lemma hist_count w ts ts' p c n :
  inners w !! p = Some c -> gather freeing_of ts' ≡ₚ gather freeing_of ts -> hist w ts ->
  hist (set_inners (<[p := InnerCell (ic_fd c) n]> (inners w)) w) ts'.
Proof.
  intros Hc Hfr (fr & Hfd & Hnd & Hin & Hfds & Hcl). exists fr. cbn [freed inners trace set_inners].
  split; [done|]. split; [done|]. split; [|split; [done|by rewrite Hfr]].
  intros q. rewrite Hin. destruct (decide (p = q)) as [<-|Hne].
  - rewrite lookup_insert_eq, Hc. naive_solver.
  - by rewrite lookup_insert_ne.
Qed.

(** A step that leaves the heap's allocations, the ownership and the
    closing threads alone. *)
Lemma sinv_keep w w' ts t th th' :
  sinv w ts -> ts !! t = Some th ->
  inners w' = inners w -> own th' = own th -> closing_of th' = closing_of th ->
  prog_ok (own th') (prog th') = true -> hist w' (<[t := th']> ts) ->
  sinv w' (<[t := th']> ts).
Proof.
  intros I Ht Hi Ho Hcl Hok Hh.
  assert (Eo : gather own (<[t := th']> ts) ≡ₚ gather own ts) by (apply (gather_same _ _ t th); congruence).
  assert (Ec : gather closing_of (<[t := th']> ts) ≡ₚ gather closing_of ts) by (apply (gather_same _ _ t th); congruence).
  destruct I as [Is Iw Icl Iz Ind Ip If Ih]. split.
  - intros q ic Hq. rewrite (occ_perm q _ _ Eo). apply Is. by rewrite <- Hi.
  - intros q Hq. rewrite Hi. apply Iw. by rewrite <- Eo.
  - intros q fd Hq. rewrite Hi. apply Icl. by rewrite <- Ec.
  - intros q ic Hq Hz. rewrite Ec. apply (Iz q ic); [by rewrite <- Hi|done].
  - by rewrite Ec.
  - by apply Forall_insert.
  - intros q ic Hq. apply If. by rewrite <- Hi.
  - exact Hh.
Qed.

(** A step that leaves the heap, the ownership and the phases alone. *)
Lemma sinv_same_heap w w' ts t th th' :
  sinv w ts -> ts !! t = Some th ->
  inners w' = inners w -> freed w' = freed w -> closes (trace w') = closes (trace w) ->
  own th' = own th -> phase_of th' = phase_of th -> prog_ok (own th') (prog th') = true ->
  sinv w' (<[t := th']> ts).
Proof.
  intros I Ht Hi Hf Hc Ho Hph Hok. apply (sinv_keep w w' ts t th th'); try done.
  - unfold closing_of. by rewrite Hph.
  - assert (Ef : gather freeing_of (<[t := th']> ts) ≡ₚ gather freeing_of ts)
      by (apply (gather_same _ _ t th); [done|unfold freeing_of; by rewrite Hph]).
    destruct (si_hist _ _ I) as (fr & Hfd & Hnd & Hin & Hfds & Hcl). exists fr. rewrite Hf, Hi, Hc, Ef. done.
Qed.

(** The destructor's port write: one more [Close], for the allocation
    the thread is closing. *)
Lemma sinv_close w w' ts t os k p fd rs v :
  sinv w ts -> ts !! t = Some (ST os k (PClosing p fd) rs) ->
  inners w' = inners w -> freed w' = freed w ->
  trace w' = trace w ++ [HC UHYVE_PORT_CLOSE v (encode (SysClose.new fd))] ->
  sinv w' (<[t := ST os k (PFreeing p fd) rs]> ts).
Proof.
  intros I Ht Hi Hf Htr. pose proof (Forall_lookup_1 _ _ _ _ (si_prog _ _ I) Ht) as Hok.
  apply (sinv_keep w w' ts t _ _ I Ht Hi); try done.
  assert (Ef : gather freeing_of (<[t := ST os k (PFreeing p fd) rs]> ts) ≡ₚ gather freeing_of ts ++ [(p, fd)]).
  { gather_step freeing_of ts t (ST os k (PFreeing p fd) rs) Ht. }
  destruct (si_hist _ _ I) as (fr & Hfd & Hnd & Hin & Hfds & Hcl). exists fr.
  rewrite Hf, Hi, Htr, closes_app_close, Ef, Hcl. do 4 (split; [done|]).
  change (encode (SysClose.new fd)) with (close_req (p, fd)). rewrite !fmap_app, <- !(assoc_L (++)). done.
Qed.

(** The deallocation. *)
Lemma sinv_free w ts t os k p fd rs :
  sinv w ts -> ts !! t = Some (ST os k (PFreeing p fd) rs) ->
  sinv (add_freed p fd (set_inners (delete p (inners w)) w)) (<[t := ST os k PRun rs]> ts).
Proof.
  intros I Ht. set (th' := ST os k PRun rs).
  pose proof (Forall_lookup_1 _ _ _ _ (si_prog _ _ I) Ht) as Hok.
  assert (Hcp : (p, fd) ∈ gather closing_of ts) by (eapply (gather_elem closing_of ts t); [exact Ht|cbn; set_solver]).
  destruct (sinv_closing_zero w ts p fd I Hcp) as (ic & Hic & Hfd & Hz & Ho).
  assert (Eo : gather own (<[t := th']> ts) ≡ₚ gather own ts) by (apply (gather_same _ _ t _ _ Ht); reflexivity).
  assert (Ec : gather closing_of (<[t := th']> ts) ++ [(p, fd)] ≡ₚ gather closing_of ts)
    by gather_step closing_of ts t th' Ht.
  assert (Ef : gather freeing_of (<[t := th']> ts) ++ [(p, fd)] ≡ₚ gather freeing_of ts)
    by gather_step freeing_of ts t th' Ht.
  pose proof (si_nodup _ _ I) as Hnd. rewrite <- Ec, fmap_app in Hnd.
  apply NoDup_app in Hnd as (Hnd & Hnp & _). cbn in Hnp.
  assert (Hp' : p ∉ (gather closing_of (<[t := th']> ts)).*1) by (intros Hx; by apply (Hnp p Hx), list_elem_of_singleton).
  pose proof (occ_zero_notin p _ Ho) as Hpo.
  pose proof I as [Is Iw Icl Iz Ind Ip If Ih]. split; cbn [inners set_inners add_freed].
  - intros q ic'. rewrite lookup_delete_Some, (occ_perm q _ _ Eo). intros [_ Hq]. by apply Is.
  - intros q Hq. rewrite Eo in Hq. rewrite lookup_delete_ne by (intros ->; done). by apply Iw.
  - intros q fd' Hq. assert (Hq' : (q, fd') ∈ gather closing_of ts) by (rewrite <- Ec; set_solver).
    destruct (Icl q fd' Hq') as (ic' & Hq'' & ?). exists ic'. rewrite lookup_delete_ne; [done|].
    intros <-. apply Hp', list_elem_of_fmap. by exists (p, fd').
  - intros q ic'. rewrite lookup_delete_Some. intros [Hne Hq] Hz'.
    pose proof (Iz q ic' Hq Hz') as Hx. rewrite <- Ec, fmap_app, elem_of_app in Hx.
    destruct Hx as [?|Hx]; [done|]. cbn in Hx. set_solver.
  - exact Hnd.
  - by apply Forall_insert.
  - intros q ic' Hq. cbn [inners add_freed set_inners] in Hq. apply lookup_delete_Some in Hq as [_ Hq]. by apply If.
  - destruct Ih as (fr & Hfr & Hnf & Hin & Hfds & Hcl). exists (fr ++ [(p, fd)]).
    assert (Hpn : p ∉ fr.*1) by (rewrite Hin; intros [_ Hn]; congruence).
    cbn [freed inners trace add_freed set_inners]. split; [rewrite Hfr; by rewrite (assoc_L (++))|]. split; [|split; [|split]].
    + rewrite fmap_app. apply NoDup_app. split; [done|]. split; [|apply NoDup_singleton].
      intros x Hx. cbn. rewrite list_elem_of_singleton. by intros ->.
    + intros q. rewrite fmap_app, elem_of_app, Hin. cbn. rewrite list_elem_of_singleton.
      destruct (decide (q = p)) as [->|Hne].
      * rewrite lookup_delete_eq. split; [|by right]. intros _. split; [|done].
        pose proof (If p ic Hic) as E. destruct (inners w0 !! p); [by eexists|discriminate].
      * rewrite lookup_delete_ne by congruence. naive_solver.
    + apply Forall_app. split; [done|]. apply Forall_singleton. cbn. rewrite <- Hfd. apply (If p ic Hic).
    + rewrite Hcl, <- Ef, !fmap_app, <- !(assoc_L (++)). solve_Permutation.
Qed.

Lemma prog_ok_head os a k :
  prog_ok os (a :: k) = true ->
  match a with
  | AClone p => p ∈ os /\ prog_ok (p :: os) k = true
  | ADrop p => p ∈ os /\ prog_ok (remove_one p os) k = true
  | AUse o => op_handle o ∈ os /\ prog_ok os k = true
  end.
Proof. destruct a; cbn [prog_ok]; rewrite andb_true_iff, bool_decide_eq_true; done. Qed.

(** A step that changes the count of [p] to a positive [n], the number
    of references left, and nothing else of the heap. *)
Lemma sinv_count w ts t th th' p c n :
  sinv w ts -> ts !! t = Some th -> inners w !! p = Some c -> p ∈ own th ->
  (forall q, q <> p -> occ q (own th') = occ q (own th)) ->
  (forall q, q ∈ own th' -> q ∈ own th \/ q = p) ->
  n = occ p (gather own (<[t := th']> ts)) -> n <> O ->
  phase_of th' = phase_of th -> prog_ok (own th') (prog th') = true ->
  sinv (set_inners (<[p := InnerCell (ic_fd c) n]> (inners w)) w) (<[t := th']> ts).
Proof.
  intros I Ht Hc Hp Hocc Hown Hn Hn0 Hph Hok.
  assert (Ec : gather closing_of (<[t := th']> ts) ≡ₚ gather closing_of ts)
    by (apply (gather_same _ _ t th); [done|unfold closing_of; by rewrite Hph]).
  assert (Ef : gather freeing_of (<[t := th']> ts) ≡ₚ gather freeing_of ts)
    by (apply (gather_same _ _ t th); [done|unfold freeing_of; by rewrite Hph]).
  destruct (sinv_owned_pos w ts t th p I Ht Hp) as (c' & Hc' & Hpos). rewrite Hc in Hc'. injection Hc' as <-.
  pose proof I as [Is Iw Icl Iz Ind Ip If Ih]. split; cbn [inners set_inners].
  - intros q ic. rewrite lookup_insert_Some. intros [(<- & <-)|(Hne & Hq)]; [exact Hn|].
    pose proof (occ_gather_insert ts t th th' q Ht). rewrite (Hocc q) in * by congruence.
    rewrite (Is q ic Hq). lia.
  - intros q Hq. destruct (decide (p = q)) as [<-|Hne]; [rewrite lookup_insert_eq; eauto|].
    rewrite lookup_insert_ne by done. apply Iw.
    destruct (gather_insert_elem own ts t th th' q Ht Hq) as [?|Hq']; [done|].
    destruct (Hown q Hq') as [?|?]; [by eapply gather_elem|congruence].
  - intros q fd Hq. rewrite Ec in Hq. destruct (Icl q fd Hq) as (ic & Hq' & Hfd & Hz). exists ic.
    rewrite lookup_insert_ne; [done|]. intros <-. rewrite Hc in Hq'. injection Hq' as <-. lia.
  - intros q ic. rewrite lookup_insert_Some, Ec. intros [(<- & <-)|(Hne & Hq)] Hz; [by cbn in Hz|].
    by apply (Iz q ic).
  - by rewrite Ec.
  - by apply Forall_insert.
  - by apply fds_count.
  - apply (hist_count w ts); [done|by rewrite Ef|done].
Qed.

(** The last decrement: the count drops to 0 and the thread goes on
    to the destructor. *)
Lemma sinv_release_last w ts t os p k rs c :
  sinv w ts -> ts !! t = Some (ST os (ADrop p :: k) PRun rs) -> inners w !! p = Some c ->
  (ic_strong c <= 1)%nat ->
  sinv (set_inners (<[p := InnerCell (ic_fd c) 0]> (inners w)) w)
    (<[t := ST (remove_one p os) k (PClosing p (ic_fd c)) rs]> ts).
Proof.
  intros I Ht Hc Hle. set (th' := ST (remove_one p os) k (PClosing p (ic_fd c)) rs).
  pose proof (Forall_lookup_1 _ _ _ _ (si_prog _ _ I) Ht) as Hok.
  apply prog_ok_head in Hok as [Hp Hok]. cbn [own] in Hp.
  destruct (sinv_owned_pos w ts t _ p I Ht Hp) as (c' & Hc' & Hpos). rewrite Hc in Hc'. injection Hc' as <-.
  assert (Ec : gather closing_of (<[t := th']> ts) ≡ₚ gather closing_of ts ++ [(p, ic_fd c)]).
  { gather_step closing_of ts t th' Ht. }
  assert (Ef : gather freeing_of (<[t := th']> ts) ≡ₚ gather freeing_of ts).
  { apply (gather_same _ _ t _ _ Ht). reflexivity. }
  assert (Hnc : p ∉ (gather closing_of ts).*1).
  { intros Hx. apply list_elem_of_fmap in Hx as ((p', fd) & Ep & Hin). cbn in Ep. subst p'.
    destruct (si_closing _ _ I _ _ Hin) as (ic & Hic & _ & Hz). rewrite Hc in Hic. injection Hic as <-. lia. }
  assert (Hocc : forall q, occ q (gather own (<[t := th']> ts)) =
            (occ q (gather own ts) - if decide (p = q) then 1 else 0)%nat).
  { intros q. pose proof (occ_gather_insert ts t _ th' q Ht) as E. cbn [own th'] in E.
    rewrite occ_remove_one in E by done. pose proof (occ_gather_ge ts t _ q Ht). cbn [own] in *.
    destruct (decide (p = q)) as [<-|]; [pose proof (occ_pos p os Hp)|]; lia. }
  pose proof I as [Is Iw Icl Iz Ind Ip If Ih]. split; cbn [inners set_inners].
  - intros q ic. rewrite lookup_insert_Some, Hocc. intros [(<- & <-)|(Hne & Hq)].
    + rewrite decide_True by done. rewrite <- (Is p c Hc). cbn. lia.
    + rewrite decide_False by done. rewrite (Is q ic Hq). lia.
  - intros q Hq. destruct (decide (p = q)) as [<-|Hne]; [rewrite lookup_insert_eq; eauto|].
    rewrite lookup_insert_ne by done. apply Iw.
    destruct (gather_insert_elem own ts t _ th' q Ht Hq) as [?|Hq']; [done|].
    apply elem_of_remove_one in Hq'. by eapply (gather_elem own ts t).
  - intros q fd. rewrite Ec, elem_of_app, list_elem_of_singleton. intros [Hq|[= <- <-]].
    + destruct (Icl q fd Hq) as (ic & Hq' & Hfd & Hz). exists ic. rewrite lookup_insert_ne; [done|].
      intros <-. apply Hnc. apply list_elem_of_fmap. by exists (p, fd).
    + rewrite lookup_insert_eq. by eexists.
  - intros q ic. rewrite lookup_insert_Some, Ec, fmap_app, elem_of_app.
    intros [(<- & <-)|(Hne & Hq)] Hz; [right; cbn; set_solver|left; by apply (Iz q ic)].
  - rewrite Ec, fmap_app. apply NoDup_app. split; [done|]. split; [|apply NoDup_singleton].
    intros x Hx. cbn. rewrite list_elem_of_singleton. intros ->. done.
  - apply Forall_insert; [done|]. exact Hok.
  - by apply fds_count.
  - apply (hist_count w ts); [done|by rewrite Ef|done].
Qed.

End Invariant.

Section Preservation.
Context `{Platform} `{Host}.
Variables (fva : nat -> Z) (w0 : world).

(** A reference the thread owns is live, so [inner_at] cannot fail on it. *)
Lemma owned_not_freed w ts t th p :
  sinv w0 w ts -> ts !! t = Some th -> p ∈ own th -> inners w !! p <> None.
Proof. intros I Ht Hp. destruct (sinv_owned_pos w0 w ts t th p I Ht Hp) as (ic & -> & _). done. Qed.

(** Every step keeps the invariant, and no step panics with
    [InvalidReference]: no thread reaches a freed allocation. *)
Lemma snext_sinv c t c' :
  sinv w0 (sw c) (sts c) -> snext fva c t = Some c' ->
  sinv w0 (sw c') (sts c') /\ shalt c' <> Some InvalidReference.
Proof.
  intros I Hn. destruct c as [w ts [e0|]]; cbn [snext sw sts] in *; [discriminate|].
  destruct (ts !! t) as [[os k ph rs]|] eqn:Ht; [|discriminate].
  pose proof (Forall_lookup_1 _ _ _ _ (si_prog _ _ _ I) Ht) as Hok. cbn [own prog] in Hok.
  destruct ph as [|p fd|p fd]; [destruct k as [|[p|p|o] k]|..].
  - discriminate.
  - apply prog_ok_head in Hok as [Hp Hok]. rewrite decide_True in Hn by done.
    destruct (UhyveFileHandle.clone p w) as [[u w']|e] eqn:E; injection Hn as <-; cbn [sw sts shalt].
    + destruct (clone_Done _ _ _ _ E) as (c & Hc & ->). split; [|done].
      apply (sinv_count w0 w ts t (ST os (AClone p :: k) PRun rs) (ST (p :: os) k PRun rs) p c); try done.
      * intros q Hq. cbn [own]. rewrite occ_cons, decide_False by congruence. done.
      * intros q. cbn [own]. rewrite elem_of_cons. naive_solver.
      * pose proof (occ_gather_insert ts t (ST os _ PRun rs) (ST (p :: os) k PRun rs) p Ht) as E'.
        cbn [own] in E'. rewrite occ_cons, decide_True in E' by done.
        rewrite (si_strong _ _ _ I p c Hc). lia.
    + split; [done|]. intros [= ->]. apply (owned_not_freed w ts t (ST os _ PRun rs) p I Ht Hp). exact (clone_Panic _ _ _ E).
  - apply prog_ok_head in Hok as [Hp Hok]. rewrite decide_True in Hn by done.
    destruct (arc_release p w) as [[r w']|e] eqn:E; [|injection Hn as <-; cbn [sw sts shalt]].
    + destruct (release_Done _ _ _ _ E) as (c & Hc & [(Hle & -> & ->)|(Hlt & -> & ->)]);
        injection Hn as <-; cbn [sw sts shalt]; split; try done.
      * exact (sinv_release_last w0 w ts t os p k rs c I Ht Hc Hle).
      * apply (sinv_count w0 w ts t (ST os (ADrop p :: k) PRun rs) (ST (remove_one p os) k PRun rs) p c); try done.
        -- intros q Hq. cbn [own]. rewrite occ_remove_one, decide_False by done. lia.
        -- intros q Hq. left. by apply elem_of_remove_one in Hq.
        -- pose proof (occ_gather_insert ts t (ST os _ PRun rs) (ST (remove_one p os) k PRun rs) p Ht) as E'.
           cbn [own] in E'. rewrite occ_remove_one_self in E' by done. pose proof (occ_pos p os Hp).
           rewrite (si_strong _ _ _ I p c Hc). lia.
        -- lia.
    + split; [done|]. intros [= ->]. apply (owned_not_freed w ts t (ST os _ PRun rs) p I Ht Hp). exact (release_Panic _ _ _ E).
  - apply prog_ok_head in Hok as [Hp Hok]. rewrite decide_True in Hn by done.
    destruct (op_call (fva t) o w) as [[r w']|e] eqn:E; injection Hn as <-; cbn [sw sts shalt].
    + destruct (op_call_io _ _ _ _ _ E) as (Hi & _ & Hf & v & req & Htr). split; [|done].
      apply (sinv_same_heap w0 w w' ts t (ST os (AUse o :: k) PRun rs) (ST os k PRun (rs ++ [r])) I Ht Hi Hf); try done.
      rewrite Htr. apply closes_app_other, op_port_ne_close.
    + split; [done|]. intros [= ->]. apply (owned_not_freed w ts t (ST os _ PRun rs) (op_handle o) I Ht Hp).
      exact (op_call_invalid _ _ _ E).
  - destruct (UhyveFileHandleInner.drop (fva t) fd w) as [[[] w']|e] eqn:E; injection Hn as <-; cbn [sw sts shalt].
    + destruct (inner_drop_close _ _ _ _ E) as (Hi & _ & Hf & v & Htr). split; [|done].
      exact (sinv_close w0 w w' ts t os k p fd rs v I Ht Hi Hf Htr).
    + split; [done|]. intros [= ->]. exact (inner_drop_no_invalid _ _ w E).
  - unfold arc_free, modify in Hn. injection Hn as <-. cbn [sw sts shalt]. split; [|done].
    exact (sinv_free w0 w ts t os k p fd rs I Ht).
Qed.
End Preservation.

(** ** The start and the runs *)

Lemma gather_run_nil {A} (f : sthread -> list A) ts :
  (forall th, th ∈ ts -> phase_of th = PRun -> f th = []) ->
  Forall (fun th => phase_of th = PRun) ts -> gather f ts = [].
Proof.
  intros Hf. induction ts as [|th ts IH]; intros Hts; [done|].
  apply Forall_cons in Hts as [Hth Hts]. rewrite gather_cons, Hf, IH; [done| |done|set_solver|done].
  intros th' ? ?. apply Hf; [set_solver|done].
Qed.

Lemma gather_freeing_closing ts : gather freeing_of ts `sublist_of` gather closing_of ts.
Proof.
  induction ts as [|th ts IH]; [done|]. rewrite !gather_cons. apply sublist_app; [|done].
  unfold freeing_of, closing_of. destruct (phase_of th); [done|apply sublist_nil_l|done].
Qed.

Lemma gather_nil_own ts : Forall (fun th => own th = []) ts -> gather own ts = [].
Proof. induction 1 as [|th ts Hth _ IH]; [done|]. by rewrite gather_cons, Hth, IH. Qed.

Section Runs.
Context `{Platform} `{Host}.
Variables (fva : nat -> Z) (w0 : world) (ts0 : list sthread).
Hypothesis Hinit : sinit_ok w0 ts0.

Lemma sinv_initial : sinv w0 w0 ts0.
Proof.
  destruct Hinit as [Hc Hts].
  assert (Hrun : Forall (fun th => phase_of th = PRun) ts0) by (eapply Forall_impl; [exact Hts|naive_solver]).
  assert (Ecl : gather closing_of ts0 = []) by (apply gather_run_nil; [|done]; intros th _ E; unfold closing_of; by rewrite E).
  assert (Efr : gather freeing_of ts0 = []) by (apply gather_run_nil; [|done]; intros th _ E; unfold freeing_of; by rewrite E).
  split; rewrite ?Ecl.
  - intros p ic Hp. exact (proj1 (Hc p ic Hp)).
  - intros p Hp. unfold gather in Hp. apply list_elem_of_bind in Hp as (th & Hp & Hth).
    rewrite Forall_forall in Hts. destruct (Hts th Hth) as (_ & Hown & _). rewrite Forall_forall in Hown. auto.
  - intros p fd Hp. set_solver.
  - intros p ic Hp Hz. pose proof (proj2 (Hc p ic Hp)). lia.
  - constructor.
  - eapply Forall_impl; [exact Hts|naive_solver].
  - intros p ic Hp. by rewrite Hp.
  - exists []. rewrite app_nil_r, Efr. cbn. split; [done|]. split; [constructor|].
    split; [|split; [constructor|by rewrite app_nil_r]].
    intros p. split; [set_solver|]. intros [[ic Hp] Hn]. congruence.
Qed.

Lemma srun_sreach sched c : srun fva (sinitial w0 ts0) sched = Some c -> sreach fva w0 ts0 c.
Proof.
  unfold sreach. generalize (sinitial w0 ts0) as c0. induction sched as [|t sched IH]; intros c0 Hr; cbn [srun] in Hr.
  - injection Hr as <-. constructor.
  - destruct (snext fva c0 t) as [c1|] eqn:Hn; [|discriminate]. cbn in Hr.
    eapply rtc_l; [by exists t|]. by apply IH.
Qed.

(** What every reachable configuration satisfies. *)
Lemma sreach_sinv c : sreach fva w0 ts0 c -> sinv w0 (sw c) (sts c) /\ shalt c <> Some InvalidReference.
Proof.
  unfold sreach. revert c. apply rtc_ind_r; [split; [apply sinv_initial|done]|].
  intros c1 c2 _ [t Hs] [I _]. exact (snext_sinv fva w0 c1 t c2 I Hs).
Qed.
(** C25: No thread reaches a freed allocation: in every reachable
    configuration no [Arc] operation or call panicked with
    [InvalidReference], and every reference a thread owns is to a live
    allocation with a positive strong count. *)
Theorem no_use_after_free c :
  sreach fva w0 ts0 c ->
  shalt c <> Some InvalidReference /\
  forall t th p, sts c !! t = Some th -> p ∈ own th ->
    exists ic, inners (sw c) !! p = Some ic /\ (0 < ic_strong ic)%nat.
Proof.
  intros Hr. destruct (sreach_sinv c Hr) as [I Hh]. split; [done|].
  intros t th p Ht Hp. exact (sinv_owned_pos w0 _ _ t th p I Ht Hp).
Qed.

(** C26: Each allocation is closed at most once, with its descriptor:
    the [Close] requests sent since the start are, up to order, one per
    allocation freed since the start or past its destructor, no
    allocation among them twice, each with the descriptor it held. *)
Theorem close_at_most_once c :
  sreach fva w0 ts0 c ->
  exists fr, freed (sw c) = freed w0 ++ fr /\
    NoDup (fr ++ gather freeing_of (sts c)).*1 /\
    Forall (fun pf => ic_fd <$> inners w0 !! pf.1 = Some pf.2) (fr ++ gather freeing_of (sts c)) /\
    closes (trace (sw c)) ≡ₚ closes (trace w0) ++ (close_req <$> (fr ++ gather freeing_of (sts c))).
Proof.
  intros Hr. destruct (sreach_sinv c Hr) as [I _].
  destruct (si_hist _ _ _ I) as (fr & Hfd & Hnd & Hin & Hfds & Hcl).
  assert (Hsub : forall pf, pf ∈ gather freeing_of (sts c) -> pf ∈ gather closing_of (sts c)).
  { intros pf Hpf. eapply elem_of_submseteq; [exact Hpf|]. apply sublist_submseteq, gather_freeing_closing. }
  exists fr. split; [done|]. split; [|split; [|done]].
  - rewrite fmap_app. apply NoDup_app. split; [done|]. split.
    + intros p Hp Hp'. apply Hin in Hp as [_ Hn].
      apply list_elem_of_fmap in Hp' as ((p', fd) & Ep & Hpf). cbn in Ep. subst p'.
      destruct (si_closing _ _ _ I p fd (Hsub _ Hpf)) as (ic & Hic & _). congruence.
    + eapply sublist_NoDup; [exact (si_nodup _ _ _ I)|]. apply fmap_sublist, gather_freeing_closing.
  - apply Forall_app. split; [done|]. apply Forall_forall. intros [p fd] Hpf.
    destruct (si_closing _ _ _ I p fd (Hsub _ Hpf)) as (ic & Hic & <- & _). exact (si_fds _ _ _ I p ic Hic).
Qed.

(** No thread waits forever: a reachable configuration that has not
    panicked and in which no thread can take a step has every thread at
    the end of its program. *)
Theorem stuck_is_done c :
  sreach fva w0 ts0 c -> shalt c = None -> (forall t, snext fva c t = None) ->
  Forall (fun th => is_done th = true) (sts c).
Proof.
  intros Hr Hh Hstuck. destruct (sreach_sinv c Hr) as [I _]. destruct c as [w ts h]. cbn [shalt sw sts] in *. subst h.
  apply Forall_lookup_2. intros t [os k ph rs] Ht. specialize (Hstuck t). cbn [snext] in Hstuck. rewrite Ht in Hstuck.
  pose proof (Forall_lookup_1 _ _ _ _ (si_prog _ _ _ I) Ht) as Hok. cbn [own prog] in Hok.
  destruct ph as [|p fd|p fd]; [destruct k as [|[p|p|o] k]|..]; cbn [is_done phase_of prog]; try done;
    try (apply prog_ok_head in Hok as [Hp _]; rewrite decide_True in Hstuck by done).
  - by destruct (UhyveFileHandle.clone p w) as [[]|].
  - by destruct (arc_release p w) as [[[]]|].
  - by destruct (op_call (fva t) o w) as [[]|].
  - by destruct (UhyveFileHandleInner.drop (fva t) fd w) as [[]|].
Qed.

(** C27: When every thread is back at the running phase with no
    reference left, every allocation live at the start has been freed
    exactly once and closed exactly once, with its descriptor. *)
Theorem complete_closes_all c :
  sreach fva w0 ts0 c -> Forall (fun th => phase_of th = PRun /\ own th = []) (sts c) ->
  inners (sw c) = ∅ /\
  exists fr, freed (sw c) = freed w0 ++ fr /\ fr.*1 ≡ₚ elements (dom (inners w0)) /\
    closes (trace (sw c)) ≡ₚ closes (trace w0) ++ (close_req <$> fr).
Proof.
  intros Hr Hdone. destruct (sreach_sinv c Hr) as [I _].
  assert (Hrun : Forall (fun th => phase_of th = PRun) (sts c)) by (eapply Forall_impl; [exact Hdone|naive_solver]).
  assert (Eo : gather own (sts c) = []) by (apply gather_nil_own; eapply Forall_impl; [exact Hdone|naive_solver]).
  assert (Ecl : gather closing_of (sts c) = [])
    by (apply gather_run_nil; [|done]; intros th _ E; unfold closing_of; by rewrite E).
  assert (Efr : gather freeing_of (sts c) = [])
    by (apply gather_run_nil; [|done]; intros th _ E; unfold freeing_of; by rewrite E).
  assert (He : inners (sw c) = ∅).
  { apply map_empty. intros p. destruct (inners (sw c) !! p) as [ic|] eqn:Hp; [|done]. exfalso.
    pose proof (si_strong _ _ _ I p ic Hp) as Hs. rewrite Eo in Hs.
    pose proof (si_zero _ _ _ I p ic Hp Hs) as Hz. rewrite Ecl in Hz. set_solver. }
  split; [done|]. destruct (si_hist _ _ _ I) as (fr & Hfd & Hnd & Hin & Hfds & Hcl).
  exists fr. split; [done|]. split.
  - apply NoDup_Permutation; [done|apply NoDup_elements|]. intros p.
    rewrite Hin, elem_of_elements, elem_of_dom, He, lookup_empty. naive_solver.
  - by rewrite Hcl, Efr, app_nil_r.
Qed.
End Runs.

(** ** The last drop is its three steps *)

Section DropSteps.
Context `{Platform} `{Host}.

Lemma sent_set_inners {T} `{Wire T} port pa (d : T) m w :
  sent port pa d (set_inners m w) = ((sent port pa d w).1, set_inners m (sent port pa d w).2).
Proof. unfold sent, frame_mem, set_inners. cbn. by destruct host_serve. Qed.

(** The destructor does not look at the heap of allocations. *)
Lemma inner_drop_set_inners va fd m w :
  UhyveFileHandleInner.drop va fd (set_inners m w) =
    match UhyveFileHandleInner.drop va fd w with
    | Done (x, w') => Done (x, set_inners m w')
    | Panic e => Panic e
    end.
Proof.
  unfold UhyveFileHandleInner.drop. destruct (decide (arch = RiscV64)) as [E|E].
  - unfold uhyve_send. rewrite E. reflexivity.
  - destruct (virtual_to_physical va) as [pa|] eqn:Hva.
    + rewrite !(uhyve_send_bind _ va pa) by done. by rewrite sent_set_inners.
    + unfold uhyve_send. destruct arch; try congruence; run; by rewrite Hva.
Qed.

(** [UhyveFileHandle::drop] is the three steps the threads take: the
    atomic decrement, then, for the last reference, the inner destructor
    and the deallocation. *)
Theorem drop_decomposes va p w :
  UhyveFileHandle.drop va p w =
    (r ← arc_release p;
     match r with
     | Some fd => UhyveFileHandleInner.drop va fd;; arc_free p fd
     | None => mret tt
     end) w.
Proof.
  unfold UhyveFileHandle.drop, arc_release, arc_free, inner_at. run.
  destruct (inners w !! p) as [c|] eqn:Hc; [|reflexivity]. case_decide; [|reflexivity].
  rewrite inner_drop_set_inners.
  destruct (UhyveFileHandleInner.drop va (ic_fd c) w) as [[[] w']|e] eqn:E; [|reflexivity].
  destruct (inner_drop_close va _ _ _ E) as (Hi & _). cbn. rewrite delete_insert_eq, Hi. reflexivity.
Qed.
End DropSteps.

(** ** Every run is finite *)

(** The steps a thread has left: three per action at most, and the
    destructor and the deallocation after a last decrement. *)
Definition weight (th : sthread) : nat :=
  3 * length (prog th) + match phase_of th with PRun => 0 | PClosing _ _ => 2 | PFreeing _ _ => 1 end.

Fixpoint wsum (ts : list sthread) : nat :=
  match ts with [] => 0 | th :: ts' => weight th + wsum ts' end.

Definition smeasure `{Host} (c : sconfig) : nat :=
  match shalt c with Some _ => 0 | None => wsum (sts c) end.

Lemma wsum_insert ts t th th' :
  ts !! t = Some th -> (wsum (<[t := th']> ts) + weight th = wsum ts + weight th')%nat.
Proof.
  revert t. induction ts as [|x ts IH]; intros [|t] Ht; try discriminate.
  - injection Ht as ->. cbn [wsum]. change (<[0%nat := th']> (th :: ts)) with (th' :: ts). cbn [wsum]. lia.
  - change (<[S t := th']> (x :: ts)) with (x :: <[t := th']> ts). cbn [wsum]. cbn in Ht.
    specialize (IH t Ht). lia.
Qed.

Lemma wsum_ge ts t th : ts !! t = Some th -> (weight th <= wsum ts)%nat.
Proof.
  revert t. induction ts as [|x ts IH]; intros [|t] Ht; try discriminate; cbn [wsum] in *; cbn in Ht.
  - injection Ht as ->. lia.
  - specialize (IH t Ht). lia.
Qed.

Section Termination.
Context `{Platform} `{Host}.
Variable fva : nat -> Z.

Lemma wsum_lt ts t th th' :
  ts !! t = Some th -> (weight th' < weight th)%nat -> (wsum (<[t := th']> ts) < wsum ts)%nat.
Proof. intros Ht Hw. pose proof (wsum_insert ts t th th' Ht). lia. Qed.

Lemma snext_measure c t c' : snext fva c t = Some c' -> (smeasure c' < smeasure c)%nat.
Proof.
  intros Hn. destruct c as [w ts [e0|]]; cbn [snext] in Hn; [discriminate|].
  destruct (ts !! t) as [[os k ph rs]|] eqn:Ht; [|discriminate].
  pose proof (wsum_ge ts t _ Ht) as Hge. unfold weight in Hge; cbn [prog phase_of length] in Hge.
  destruct ph as [|p fd|p fd]; [destruct k as [|[p|p|o] k]|..]; try discriminate;
    repeat (case_decide || case_match); try discriminate; injection Hn as <-;
    unfold smeasure, sset; cbn [shalt sts];
    first [apply (wsum_lt ts t _ _ Ht); unfold weight; cbn [prog phase_of length]; lia
          | cbn [prog phase_of length] in Hge; lia].
Qed.

(** Every interleaving of the threads' steps is finite. *)
Lemma sstep_terminates c : Acc (fun c2 c1 => sstep fva c1 c2) c.
Proof.
  induction c as [c IH] using (induction_ltof1 _ smeasure).
  constructor. intros c' [t Hs]. apply IH. unfold ltof. by apply (snext_measure c t).
Qed.
End Termination.
