(* ===== verification/Mount.v ===== *)
(** * The mount initializer [init] (lines 307-318)

    [init] asks [crate::env::is_uhyve]; under uhyve it takes the global
    [fs::FILESYSTEM] ([OnceCell<Filesystem>], [get().unwrap()]) and mounts
    a fresh [UhyveDirectory] at ["/host"], [expect]ing the mount to
    succeed.  The filesystem registry is a collaborator outside this file:
    its contract is the class [Vfs] (a mount at a free path succeeds and
    records the node, a mount at a taken path is refused), and the
    theorems about [init] are proved against that contract alone.  The
    instance [mem_vfs], a mount table as a [gmap], discharges it. *)

From stdpp Require Import base list gmap strings.
From Stdlib Require Import ZArith.
From S2P Require Import Prelude Kernel.

Open Scope Z_scope.

(** [pub(crate) struct UhyveDirectory;] is a unit struct: [UhyveDirectory::new()]
    is its only value. *)
Inductive dir_node : Type := UhyveDirectoryNew.

(** The contract of the VFS mount table, as [init] relies on it. *)
Class Vfs (Node : Type) : Type := {
  vfs_t : Type;
  vfs_mount : vfs_t -> string -> Node -> result vfs_t IoError;
  vfs_lookup : vfs_t -> string -> option Node;
  vfs_mount_fresh v p n :
    vfs_lookup v p = None ->
    exists v', vfs_mount v p n = Ok v' /\ vfs_lookup v' p = Some n /\
      forall q, q <> p -> vfs_lookup v' q = vfs_lookup v q;
  vfs_mount_taken v p n :
    vfs_lookup v p <> None -> exists e, vfs_mount v p n = Err e
}.
Arguments vfs_t Node {_}.

Definition MOUNT_POINT : string := "/host".
Definition MOUNT_FAILED : string := "Mount failed. Duplicate mount_point?".

Section Init.
Context `{Platform} `{Vfs dir_node}.

(** [init]: the state is the [OnceCell] [fs::FILESYSTEM]. *)
Definition init : St (option (vfs_t dir_node)) unit :=
  if is_uhyve then
    cell ← get;
    fs ← unwrap cell;
    match vfs_mount fs MOUNT_POINT UhyveDirectoryNew with
    | Ok fs' => modify (fun _ => Some fs')
    | Err _ => abort (ExpectFailed MOUNT_FAILED)
    end
  else mret tt.

End Init.

(** ** A mount table as a finite map *)

Definition mem_mount {N} (v : gmap string N) (p : string) (n : N) : result (gmap string N) IoError :=
  match v !! p with
  | Some _ => Err EEXIST
  | None => Ok (<[p := n]> v)
  end.

#[export] Program Instance mem_vfs {N} : Vfs N := {|
  vfs_t := gmap string N;
  vfs_mount := mem_mount;
  vfs_lookup v p := v !! p
|}.
Next Obligation.
  intros N v p n Hp. unfold mem_mount. rewrite Hp. eexists. split; [done|].
  split; [by rewrite lookup_insert_eq|]. intros q Hq. by rewrite lookup_insert_ne.
Qed.
Next Obligation.
  intros N v p n Hp. unfold mem_mount. destruct (v !! p) eqn:E; [by eexists|]. simpl in Hp. rewrite E in Hp. congruence.
Qed.

(** ** What [init] does *)

Section InitFacts.
Context `{Platform} `{Vfs dir_node}.

Lemma init_not_uhyve c : is_uhyve = false -> init c = Done (tt, c).
Proof. intros Hu. unfold init. rewrite Hu. reflexivity. Qed.

Lemma init_unset_panics : is_uhyve = true -> init None = Panic UnwrapNone.
Proof. intros Hu. unfold init. rewrite Hu. reflexivity. Qed.

Lemma init_mount v :
  is_uhyve = true ->
  init (Some v) =
    match vfs_mount v MOUNT_POINT UhyveDirectoryNew with
    | Ok v' => Done (tt, Some v')
    | Err _ => Panic (ExpectFailed MOUNT_FAILED)
    end.
Proof.
  intros Hu. unfold init. rewrite Hu. cbv [mbind mret St_bind St_ret get unwrap modify abort].
  destruct (vfs_mount v MOUNT_POINT UhyveDirectoryNew); reflexivity.
Qed.

(** C17: Under uhyve, with a free [/host], [init] completes and mounts a [UhyveDirectory] at [/host], leaving every other mount point as it was. *)
Theorem init_mounts v :
  is_uhyve = true -> vfs_lookup v MOUNT_POINT = None ->
  exists v', init (Some v) = Done (tt, Some v') /\
    vfs_lookup v' MOUNT_POINT = Some UhyveDirectoryNew /\
    forall q, q <> MOUNT_POINT -> vfs_lookup v' q = vfs_lookup v q.
Proof.
  intros Hu Hfree. destruct (vfs_mount_fresh v MOUNT_POINT UhyveDirectoryNew Hfree)
    as (v' & Hm & Hl & Hq).
  exists v'. rewrite init_mount, Hm by done. auto.
Qed.

Lemma init_taken_panics v :
  is_uhyve = true -> vfs_lookup v MOUNT_POINT <> None ->
  init (Some v) = Panic (ExpectFailed MOUNT_FAILED).
Proof.
  intros Hu Htaken. destruct (vfs_mount_taken v MOUNT_POINT UhyveDirectoryNew Htaken)
    as (e & He).
  rewrite init_mount, He by done. reflexivity.
Qed.

(** C19: Under uhyve, when [/host] is already taken, [init] panics with [Mount failed. Duplicate mount_point?]. *)
Theorem init_duplicate_panics v :
  is_uhyve = true -> vfs_lookup v MOUNT_POINT <> None ->
  init (Some v) = Panic (ExpectFailed MOUNT_FAILED).
Proof. apply init_taken_panics. Qed.

(** C18: Running [init] a second time after a completed run panics with the [expect] message (or does nothing when not under uhyve): the double mount is fatal. *)
Theorem init_twice_panics c c' :
  init c = Done (tt, c') -> init c' = Panic (ExpectFailed MOUNT_FAILED) \/ is_uhyve = false.
Proof.
  destruct is_uhyve eqn:Hu; [|by right]. intros Hc. left.
  destruct c as [v|]; [|by rewrite init_unset_panics in Hc].
  rewrite init_mount in Hc by done.
  destruct (vfs_mount v MOUNT_POINT UhyveDirectoryNew) as [v'|] eqn:Hm; [|discriminate].
  injection Hc as <-. apply init_taken_panics; [done|].
  destruct (decide (vfs_lookup v MOUNT_POINT = None)) as [Hf|Ht].
  - destruct (vfs_mount_fresh v MOUNT_POINT UhyveDirectoryNew Hf) as (v'' & Hm' & Hl & _).
    rewrite Hm in Hm'. injection Hm' as <-. by rewrite Hl.
  - destruct (vfs_mount_taken v MOUNT_POINT UhyveDirectoryNew Ht) as (e & He). congruence.
Qed.

End InitFacts.
