(* ===== verification/Scenarios.v ===== *)
(** * Concrete scenarios and witnesses

    Runs of the model on an identity-mapped x86_64 kernel whose request
    structure sits at 0x8000 and whose path buffer sits at 0x10000,
    against the uhyve host dispatch over a scripted host file system
    ([HostFs.scripted_fs]).  The examples replay the scenarios of the
    specification; the witnesses apply the development's theorems at
    these inputs. *)

From Stdlib Require Import String ZArith Lia.
From stdpp Require Import base list gmap.
From S2P Require Import Prelude Kernel Wire Transport HostFs Handle Directory Lifecycle Mount.

Open Scope Z_scope.

#[local] Existing Instance x86_identity.
#[local] Existing Instance scripted_fs.

Definition FRAME : Z := 32768.
Definition PATH : Z := 65536.
Definition BUF : Z := 131072.

(** The world reached by a completed run, or [w] when it panics. *)
Definition after {A} (r : outcome (A * world)) (w : world) : world :=
  match r with Done (_, w') => w' | Panic _ => w end.

(** The value of a completed run. *)
Definition result_of {A} (r : outcome (A * world)) : option A :=
  match r with Done (a, _) => Some a | Panic _ => None end.

(** The requests the scripted host received. *)
Definition host_log (w : world) : list request := (hst w).2.

Definition create_write : OpenOption := mkOpenOption (Z.lor O_CREAT O_WRONLY).

Definition w_start : world := empty_world [(3, []); (0, []); (0, [])].
Definition w_opened : world :=
  after (UhyveDirectory.traverse_open FRAME PATH ["tmp"; "x"]%string create_write w_start) w_start.
Definition w_written : world := after (Object.write FRAME 1 BUF 2 w_opened) w_opened.
Definition w_closed : world := after (Object.drop FRAME 1 w_written) w_written.

Definition c_start : config := Cfg w_start [].
Definition c_opened : config := Cfg w_opened [1%positive].
Definition c_written : config := Cfg w_written [1%positive].
Definition c_closed : config := Cfg w_closed [].

Lemma step_start_opened : step FRAME PATH c_start c_opened.
Proof.
  change c_opened with (Cfg w_opened (refs c_start ++ [1%positive])).
  apply (step_open _ _ _ ["tmp"; "x"]%string create_write). vm_compute. reflexivity.
Qed.

Lemma step_opened_written : step FRAME PATH c_opened c_written.
Proof.
  change c_written with (Cfg w_written (refs c_opened)).
  apply (step_write _ _ _ 1%positive BUF 2 (Ok 2)); [cbv [refs c_opened]; left|vm_compute; reflexivity].
Qed.

Lemma step_written_closed : step FRAME PATH c_written c_closed.
Proof.
  change c_closed with (Cfg w_closed (remove_one 1%positive (refs c_written))).
  apply (step_drop _ _ _ 1%positive); [cbv [refs c_written]; left|vm_compute; reflexivity].
Qed.

Lemma initial_start : initial c_start.
Proof.
  unfold initial. repeat match goal with |- _ /\ _ => split end; vm_compute; reflexivity.
Qed.

Lemma reachable_opened : reachable FRAME PATH c_opened.
Proof. exists c_start. split; [apply initial_start|]. apply rtc_once, step_start_opened. Qed.

Lemma reachable_closed : reachable FRAME PATH c_closed.
Proof.
  exists c_start. split; [apply initial_start|].
  eapply rtc_l; [apply step_start_opened|]. eapply rtc_l; [apply step_opened_written|].
  apply rtc_once, step_written_closed.
Qed.

(** [open(["tmp","x"], CREATE|WRITE)] → the host returns descriptor 3 →
    [write(b"hi")] reports 2 bytes → dropping the last reference sends
    exactly one [Close(3)]. *)
Example scenario_open_write_drop :
  rtc (step FRAME PATH) c_start c_closed /\
  Object.write FRAME 1 BUF 2 w_opened = Done (Ok 2, w_written) /\
  host_log w_closed = [ReqOpen (bytes_of "/tmp/x") 65 0; ReqWrite 3 [0; 0]; ReqClose 3] /\
  closes (trace w_closed) = [encode (SysClose.new 3)] /\
  inners w_closed = ∅ /\ handles w_closed = ∅.
Proof.
  split.
  { eapply rtc_l; [apply step_start_opened|]. eapply rtc_l; [apply step_opened_written|].
    apply rtc_once, step_written_closed. }
  repeat match goal with |- _ /\ _ => split end; vm_compute; reflexivity.
Qed.

(** [open(["missing"], READ)] → the host returns -2: the kernel panics
    instead of reporting [ENOENT]. *)
Example scenario_open_missing_panics :
  UhyveDirectory.traverse_open FRAME PATH ["missing"]%string (mkOpenOption O_RDONLY)
    (empty_world [(-2, [])]) = Panic UnwrapNone.
Proof. vm_compute. reflexivity. Qed.

(** [unlink(["a"])]: 0 is success; -13 panics instead of [EACCES]; a
    positive 13 would be reported as [EACCES]. *)
Example scenario_unlink :
  result_of (UhyveDirectory.traverse_unlink FRAME PATH ["a"]%string (empty_world [(0, [])])) = Some (Ok tt) /\
  UhyveDirectory.traverse_unlink FRAME PATH ["a"]%string (empty_world [(-13, [])]) = Panic UnwrapNone /\
  result_of (UhyveDirectory.traverse_unlink FRAME PATH ["a"]%string (empty_world [(13, [])])) = Some (Err EACCES).
Proof. split; [|split]; vm_compute; reflexivity. Qed.

(** The path [String] is not NUL terminated: when the byte after its
    buffer is ['y'], the host opens ["/tmp/xy"]. *)
Definition w_garbage : world :=
  mkWorld {[PATH + 6 := 121]} (([(3, [])], []) : @fs_state scripted_fs) [] ∅ ∅ [].

Example scenario_path_overread :
  host_log (after (UhyveDirectory.traverse_open FRAME PATH ["tmp"; "x"]%string create_write w_garbage) w_garbage)
    = [ReqOpen (bytes_of "/tmp/xy") 65 0].
Proof. vm_compute. reflexivity. Qed.

(** On x86_64 the port receives the low 32 bits of the physical address:
    a request at 4 GiB + 0x8000 is announced at 0x8000. *)
Example scenario_x86_truncation : port_value (2 ^ 32 + FRAME) = FRAME.
Proof. vm_compute. reflexivity. Qed.

(** ** Witnesses *)

Definition sent_open (comps : list string) (opt : OpenOption) (w : world) :=
  sent UHYVE_PORT_OPEN FRAME (SysOpen.mk PATH (bits opt) 0 (-1)) (with_path PATH (open_path comps) w).
Definition sent_unlink (comps : list string) (w : world) :=
  sent UHYVE_PORT_UNLINK FRAME (SysUnlink.mk PATH (-1)) (with_path PATH (unlink_path comps) w).

Lemma drop_all_closes_once_witness :
  arch <> RiscV64 /\ virtual_to_physical FRAME = Some FRAME /\ reachable FRAME PATH c_opened /\
  exists c', rtc (step FRAME PATH) c_opened c' /\ refs c' = [] /\
    handles (cw c') = ∅ /\ inners (cw c') = ∅ /\
    (forall p, p ∈ dom (inners (cw c_opened)) -> p ∈ (freed (cw c')).*1) /\
    NoDup (freed (cw c')).*1 /\ closes (trace (cw c')) = close_req <$> freed (cw c').
Proof.
  split; [discriminate|]. split; [reflexivity|]. split; [exact reachable_opened|].
  apply (drop_all_closes_once FRAME PATH FRAME); [discriminate|reflexivity|exact reachable_opened].
Defined.

Lemma close_log_exact_witness :
  reachable FRAME PATH c_closed /\
  closes (trace (cw c_closed)) = close_req <$> freed (cw c_closed) /\
  NoDup (freed (cw c_closed)).*1 /\
  (forall p, p ∈ (freed (cw c_closed)).*1 -> inners (cw c_closed) !! p = None).
Proof. split; [exact reachable_closed|]. apply (close_log_exact FRAME PATH). exact reachable_closed. Defined.

Lemma no_dangling_reference_witness :
  reachable FRAME PATH c_opened /\ 1%positive ∈ refs c_opened /\
  exists hc ic, handles (cw c_opened) !! 1%positive = Some hc /\ inners (cw c_opened) !! hc_inner hc = Some ic.
Proof.
  split; [exact reachable_opened|]. split; [cbv [refs c_opened]; left|].
  apply (no_dangling_reference FRAME PATH); [exact reachable_opened|cbv [refs c_opened]; left].
Defined.

Lemma traverse_open_failure_panics_witness :
  SysOpen.ret (sent_open ["missing"]%string (mkOpenOption O_RDONLY) (empty_world [(-2, [])])).1 <= 0 /\
  UhyveDirectory.traverse_open FRAME PATH ["missing"]%string (mkOpenOption O_RDONLY)
    (empty_world [(-2, [])]) = Panic UnwrapNone.
Proof.
  split; [vm_compute; discriminate|].
  eapply (traverse_open_failure_panics FRAME FRAME PATH PATH); [discriminate|reflexivity|reflexivity|
    apply surjective_pairing|vm_compute; discriminate].
Defined.

Lemma traverse_open_success_witness :
  0 < SysOpen.ret (sent_open ["tmp"; "x"]%string create_write w_start).1 /\
  exists o p w3,
    UhyveDirectory.traverse_open FRAME PATH ["tmp"; "x"]%string create_write w_start = Done (Ok o, w3) /\
    handles w3 !! o = Some (HandleCell p 1) /\
    inners w3 !! p = Some (InnerCell (SysOpen.ret (sent_open ["tmp"; "x"]%string create_write w_start).1) 1) /\
    handles (sent_open ["tmp"; "x"]%string create_write w_start).2 !! o = None /\
    inners (sent_open ["tmp"; "x"]%string create_write w_start).2 !! p = None /\
    (p ∉ (freed (sent_open ["tmp"; "x"]%string create_write w_start).2).*1) /\
    trace w3 = trace (sent_open ["tmp"; "x"]%string create_write w_start).2 /\
    freed w3 = freed (sent_open ["tmp"; "x"]%string create_write w_start).2.
Proof.
  split; [vm_compute; reflexivity|].
  eapply (traverse_open_success FRAME FRAME PATH PATH); [discriminate|reflexivity|reflexivity|
    apply surjective_pairing|vm_compute; reflexivity].
Defined.

(** The host answers the unlink with ENOENT negated, as uhyve passes on
    [unlink]'s [-errno]. *)
Lemma traverse_unlink_error_panics_witness :
  SysUnlink.ret (sent_unlink ["a"]%string (empty_world [(-2, [])])).1 = -2 /\
  UhyveDirectory.traverse_unlink FRAME PATH ["a"]%string (empty_world [(-2, [])]) = Panic UnwrapNone.
Proof.
  split; [vm_compute; reflexivity|].
  eapply (traverse_unlink_error_panics FRAME FRAME PATH PATH); [discriminate|reflexivity|reflexivity|
    apply surjective_pairing|vm_compute; reflexivity].
Defined.

(** The root path for unlink: the host reads ["/"] and then ["y"] from
    the byte after it. *)
Lemma unlink_path_host_read_witness :
  Forall (fun v => 0 ∉ bytes_of v) ([] : list string) /\
  (length (bytes_of (unlink_path [])) <= PATH_MAX)%nat /\
  load_cstr (store_bytes PATH (bytes_of (unlink_path [])) {[PATH + 1 := 121]}) PATH PATH_MAX =
    bytes_of (unlink_path []) ++
    load_cstr {[PATH + 1 := 121]} (PATH + Z.of_nat (length (bytes_of (unlink_path []))))
      (PATH_MAX - length (bytes_of (unlink_path []))).
Proof.
  assert (Hl : (length (bytes_of (unlink_path [])) <= PATH_MAX)%nat)
    by (apply Nat.leb_le; vm_compute; reflexivity).
  split; [constructor|]. split; [exact Hl|].
  apply unlink_path_host_read; [constructor|exact Hl].
Defined.

Lemma open_path_host_read_witness :
  ["tmp"; "x"]%string <> [] /\ Forall (fun v => 0 ∉ bytes_of v) ["tmp"; "x"]%string /\
  (length (bytes_of (open_path ["tmp"; "x"]%string)) <= PATH_MAX)%nat /\
  load_cstr (store_bytes PATH (bytes_of (open_path ["tmp"; "x"]%string)) {[PATH + 6 := 121]}) PATH PATH_MAX =
    bytes_of (open_path ["tmp"; "x"]%string) ++
    load_cstr {[PATH + 6 := 121]} (PATH + Z.of_nat (length (bytes_of (open_path ["tmp"; "x"]%string))))
      (PATH_MAX - length (bytes_of (open_path ["tmp"; "x"]%string))).
Proof.
  assert (Hf : Forall (fun v => 0 ∉ bytes_of v) ["tmp"; "x"]%string)
    by (apply (bool_decide_unpack _); vm_compute; exact I).
  assert (Hl : (length (bytes_of (open_path ["tmp"; "x"]%string)) <= PATH_MAX)%nat)
    by (apply Nat.leb_le; vm_compute; reflexivity).
  split; [discriminate|]. split; [exact Hf|]. split; [exact Hl|].
  apply open_path_host_read; [discriminate|exact Hf|exact Hl].
Defined.

Lemma split_open_path_witness :
  ["a"; "b"]%string <> [] /\ Forall (fun v => 47 ∉ bytes_of v) ["a"; "b"]%string /\
  split_path (bytes_of (open_path ["a"; "b"]%string)) = map bytes_of ["a"; "b"]%string.
Proof.
  assert (Hf : Forall (fun v => 47 ∉ bytes_of v) ["a"; "b"]%string)
    by (apply (bool_decide_unpack _); vm_compute; exact I).
  split; [discriminate|]. split; [exact Hf|].
  apply split_open_path; [discriminate|exact Hf].
Defined.

Definition req_open : SysOpen.t := SysOpen.mk PATH 65 0 (-1).

(** The 32-bit truncation: above 4 GiB the port does not receive the address. *)
Lemma port_value_exact_witness :
  0 <= 2 ^ 32 + FRAME /\
  (port_value (2 ^ 32 + FRAME) = 2 ^ 32 + FRAME <-> arch <> X86_64 \/ 2 ^ 32 + FRAME < 2 ^ 32).
Proof. split; [vm_compute; discriminate|]. apply port_value_exact. vm_compute. discriminate. Defined.

Definition sent_read (w : world) := sent UHYVE_PORT_READ FRAME (SysRead.new 3 BUF 16) w.

Lemma read_ok_witness :
  0 <= SysRead.ret (sent_read (empty_world [(5, [104; 105; 33; 10; 0])])).1 /\
  UhyveFileHandleInner.read FRAME 3 BUF 16 (empty_world [(5, [104; 105; 33; 10; 0])]) =
    Done (Ok (SysRead.ret (sent_read (empty_world [(5, [104; 105; 33; 10; 0])])).1),
          (sent_read (empty_world [(5, [104; 105; 33; 10; 0])])).2).
Proof.
  split; [vm_compute; discriminate|].
  apply (read_ok FRAME FRAME); [discriminate|reflexivity|apply surjective_pairing|vm_compute; discriminate].
Defined.

Lemma write_result_witness :
  UhyveFileHandleInner.write FRAME 3 BUF 2 w_start =
    if isize_ok (SysWrite.len (sent UHYVE_PORT_WRITE FRAME (SysWrite.new 3 BUF 2) w_start).1)
    then Done (Ok (SysWrite.len (sent UHYVE_PORT_WRITE FRAME (SysWrite.new 3 BUF 2) w_start).1),
               (sent UHYVE_PORT_WRITE FRAME (SysWrite.new 3 BUF 2) w_start).2)
    else Panic UnwrapNone.
Proof. apply (write_result FRAME FRAME); [discriminate|reflexivity|apply surjective_pairing]. Defined.

Lemma lseek_result_witness :
  UhyveFileHandleInner.lseek FRAME 3 (-8) End_ (empty_world [(-22, [])]) =
    Done (if 0 <=? SysLseek.offset (sent UHYVE_PORT_LSEEK FRAME (SysLseek.mk 3 (-8) 2) (empty_world [(-22, [])])).1
          then Ok (SysLseek.offset (sent UHYVE_PORT_LSEEK FRAME (SysLseek.mk 3 (-8) 2) (empty_world [(-22, [])])).1)
          else Err EINVAL,
          (sent UHYVE_PORT_LSEEK FRAME (SysLseek.mk 3 (-8) 2) (empty_world [(-22, [])])).2).
Proof. apply (lseek_result FRAME FRAME); [discriminate|reflexivity|apply surjective_pairing]. Defined.

Lemma step_inv_witness :
  step FRAME PATH c_start c_opened /\ inv c_start /\ inv c_opened.
Proof.
  assert (Hi : inv c_start) by (apply inv_initial, initial_start).
  split; [exact step_start_opened|]. split; [exact Hi|].
  apply (step_inv FRAME PATH c_start c_opened); [exact step_start_opened|exact Hi].
Defined.

(** ** The mount initializer on a mount table held in a [gmap] *)

Definition no_mounts : option (@vfs_t dir_node mem_vfs) := Some ∅.
Definition host_mounted : option (@vfs_t dir_node mem_vfs) :=
  Some {[ MOUNT_POINT := UhyveDirectoryNew ]}.

Lemma init_mounts_witness :
  is_uhyve = true /\ @vfs_lookup dir_node mem_vfs ∅ MOUNT_POINT = None /\
  exists v', init (Some (∅ : @vfs_t dir_node mem_vfs)) = Done (tt, Some v') /\
    vfs_lookup v' MOUNT_POINT = Some UhyveDirectoryNew /\
    forall q, q <> MOUNT_POINT -> vfs_lookup v' q = vfs_lookup ∅ q.
Proof.
  split; [reflexivity|]. split; [reflexivity|].
  apply init_mounts; reflexivity.
Defined.

Lemma init_duplicate_panics_witness :
  @vfs_lookup dir_node mem_vfs {[ MOUNT_POINT := UhyveDirectoryNew ]} MOUNT_POINT <> None /\
  init host_mounted = Panic (ExpectFailed MOUNT_FAILED).
Proof.
  split; [vm_compute; discriminate|].
  apply init_duplicate_panics; [reflexivity|vm_compute; discriminate].
Defined.

Lemma init_twice_panics_witness :
  init no_mounts = Done (tt, host_mounted) /\
  (init host_mounted = Panic (ExpectFailed MOUNT_FAILED) \/ is_uhyve = false).
Proof.
  split; [vm_compute; reflexivity|].
  apply (init_twice_panics no_mounts); vm_compute; reflexivity.
Defined.

(** ** Witnesses of the refinement and of the inner operations *)

Lemma uhyve_sent_open_witness :
  port_value FRAME = FRAME /\ wire_ok req_open = true /\
  (sent UHYVE_PORT_OPEN FRAME req_open w_start).1 = SysOpen.mk PATH 65 0 3.
Proof.
  split; [reflexivity|]. split; [vm_compute; reflexivity|].
  rewrite (uhyve_sent_open FRAME); vm_compute; reflexivity.
Defined.

(** x86_64 with the kernel's frame identity-mapped and the buffer's page
    mapped 1 MiB higher: the read's data goes to the buffer's virtual
    address, not to where the buffer is. *)
Definition x86_buf_moved : Platform :=
  {| arch := X86_64;
     virtual_to_physical := fun va =>
       if (0 <=? va) && (va <? BUF) then Some va
       else if (BUF <=? va) && (va <? 2 ^ 32) then Some (va + 2 ^ 20) else None;
     is_uhyve := true |}.

Lemma read_lands_at_virtual_address_witness :
  @virtual_to_physical x86_buf_moved BUF = Some (BUF + 2 ^ 20) /\
  exists w', @UhyveFileHandleInner.read x86_buf_moved _ FRAME 3 BUF 16
               (empty_world [(5, [104; 105; 33; 10; 0])]) = Done (Ok 5, w') /\
    holds BUF (take (Z.to_nat 16) [104; 105; 33; 10; 0]) (mem w').
Proof.
  split; [reflexivity|].
  eapply (@read_lands_at_virtual_address x86_buf_moved scripted_fs FRAME FRAME).
  - discriminate.
  - reflexivity.
  - reflexivity.
  - vm_compute. reflexivity.
  - vm_compute. reflexivity.
  - vm_compute. reflexivity.
  - right. vm_compute. discriminate.
  - vm_compute. reflexivity.
  - lia.
Defined.

Lemma write_reports_requested_len_witness :
  i32_ok 3 = true /\ u64_ok BUF = true /\
  UhyveFileHandleInner.write FRAME 3 BUF 2 w_start =
    Done (Ok 2, (sent UHYVE_PORT_WRITE FRAME (SysWrite.new 3 BUF 2) w_start).2).
Proof.
  split; [reflexivity|]. split; [reflexivity|].
  apply (write_reports_requested_len FRAME FRAME);
    [discriminate|reflexivity|reflexivity|reflexivity|reflexivity|split; [lia|reflexivity]].
Defined.

(** The host refuses the seek with -22: the guest sees [EINVAL]. *)
Lemma lseek_reports_host_offset_witness :
  exists w', UhyveFileHandleInner.lseek FRAME 3 (-8) End_ (empty_world [(-22, [])]) =
    Done (Err EINVAL, w').
Proof.
  destruct (@lseek_reports_host_offset x86_identity scripted_fs FRAME FRAME ltac:(discriminate) eq_refl eq_refl
              3 (-8) End_ (empty_world [(-22, [])]) eq_refl eq_refl) as [w' Hw].
  exists w'. rewrite Hw. vm_compute. reflexivity.
Defined.

Lemma drop_completes_witness :
  exists w', Object.drop FRAME 1 (cw c_opened) = Done (tt, w').
Proof.
  apply (drop_completes FRAME PATH c_opened 1 FRAME);
    [discriminate|reflexivity|exact reachable_opened|cbv [refs c_opened]; left].
Defined.

Lemma open_path_root_host_read_witness :
  load_cstr (store_bytes PATH (bytes_of (open_path [])) ∅) PATH 16 = [47].
Proof. apply open_path_root_host_read. lia. Defined.
