(* ===== verification/Schedules.v ===== *)
(** * Concrete interleavings of threads sharing file handles

    Two files opened through [UhyveDirectory.traverse_open] on the
    identity-mapped x86_64 kernel of [Scenarios]; thread [t] keeps its
    request structure at [tframe t].  The executable scheduler
    [Threads.crun] replays given interleavings of the threads' steps;
    the witnesses apply the theorems of [Threads], [Linearize] and
    [Layout] to them.  [Sharing.srun] replays two threads that clone,
    use and drop references to the two files, for the witnesses of the
    theorems of [Sharing]. *)

From Stdlib Require Import String ZArith Lia.
From stdpp Require Import base list gmap.
From S2P Require Import Prelude Kernel Wire Transport HostFs Handle Directory Lifecycle Layout Frames Threads Linearize Sharing Scenarios.

Open Scope Z_scope.

#[local] Existing Instance x86_identity.
#[local] Existing Instance scripted_fs.

(** A decidable side condition, by evaluation. *)
Ltac decide_by_vm := match goal with |- ?P => apply (bool_decide_unpack P) end; vm_compute; exact I.

(** An equation between closed terms, by evaluation. *)
Ltac vm_eq := vm_compute; reflexivity.

(** Files ["/a"] (descriptor 3, inner 1) and ["/b"] (descriptor 4, inner 2). *)
Definition w_one : world :=
  let w := empty_world [(3, []); (4, []); (9, []); (9, [])] in
  after (UhyveDirectory.traverse_open FRAME PATH ["a"]%string create_write w) w.
Definition w_two : world :=
  after (UhyveDirectory.traverse_open FRAME PATH ["b"]%string create_write w_one) w_one.

(** Thread [t]'s stack frame, 32 bytes per thread from [FRAME]. *)
Definition tframe (t : nat) : Z := FRAME + 32 * Z.of_nat t.

(** Thread 0 writes two bytes to ["/a"]; thread 1 seeks ["/b"] to 9. *)
Definition ops_two : list op := [OWrite 1 BUF 2; OLseek 2 9 Set_].
(** Both threads use ["/a"]. *)
Definition ops_same : list op := [OWrite 1 BUF 2; OLseek 1 9 Set_].

Definition run_from (ops : list op) (sched : list nat) : cconfig :=
  default (cinitial ops w_two) (crun tframe (cinitial ops w_two) sched).

(** Both threads locked their handle and thread 1 stored its request. *)
Definition c_mid : cconfig := run_from ops_two [0; 1; 1]%nat.
(** Thread 1 writes to the port first; every step of the two calls is
    interleaved with the other thread's. *)
Definition c_lin : cconfig := run_from ops_two [0; 1; 1; 1; 0; 0; 1; 0; 1; 0]%nat.
(** Thread 0 holds the lock of ["/a"]. *)
Definition c_held : cconfig := run_from ops_same [0]%nat.
(** Thread 0 has written to ["/a"] and released it; thread 1 then took
    the lock and wrote its request to the port. *)
Definition c_second : cconfig := run_from ops_same [0; 0; 0; 0; 0; 1; 1; 1]%nat.

(** While thread 0 holds the lock of ["/a"], thread 1 cannot take it. *)
Example ops_same_waits : cnext tframe c_held 1%nat = None.
Proof. vm_eq. Qed.

(** The interleaved run ends with both calls done, the port written by
    thread 1 first. *)
Lemma c_lin_threads :
  threads c_lin = [TDone (OWrite 1 BUF 2) (Ok 2); TDone (OLseek 2 9 Set_) (Ok 9)].
Proof. vm_eq. Qed.

Example c_lin_porder : porder c_lin = [1; 0]%nat.
Proof. vm_eq. Qed.

Lemma c_mid_threads :
  threads c_mid = [TLocked (OWrite 1 BUF 2) 3; TStored (OLseek 2 9 Set_) 4].
Proof. vm_eq. Qed.

(** ** Threads sharing a handle through its [Arc]

    ["/a"] cloned once more: both threads own a reference to inner 1,
    thread 1 also owns the only reference to inner 2.  Thread 0 writes
    and drops; thread 1 clones and drops ["/b"], then drops both. *)
Definition w_shared : world := after (UhyveFileHandle.clone 1 w_two) w_two.
Definition ts_shared : list sthread :=
  [ST [1%positive] [AUse (OWrite 1 BUF 2); ADrop 1] PRun [];
   ST [1%positive; 2%positive] [AClone 2; ADrop 2; ADrop 1; ADrop 2] PRun []].

Definition srun_from (sched : list nat) : sconfig :=
  default (sinitial w_shared ts_shared) (srun tframe (sinitial w_shared ts_shared) sched).

(** Thread 1 has cloned and dropped one reference to ["/b"]. *)
Definition s_mid : sconfig := srun_from [0; 1; 1]%nat.
(** Thread 1 dropped the last reference to ["/a"] and sent its [Close]. *)
Definition s_closed : sconfig := srun_from [0; 1; 1; 0; 1; 1]%nat.
(** Both programs done. *)
Definition s_end : sconfig := srun_from [0; 1; 1; 0; 1; 1; 1; 1; 1; 1]%nat.

Ltac sinit_by_vm := unfold sinit_ok; decide_by_vm.

Lemma srun_from_reach sched :
  srun tframe (sinitial w_shared ts_shared) sched = Some (srun_from sched) ->
  sreach tframe w_shared ts_shared (srun_from sched).
Proof. apply srun_sreach. Qed.

(** The descriptors 3 and 4 are each closed once, and the heap is empty. *)
Example shared_run_closes :
  closes (trace (sw s_end)) = [encode (SysClose.new 3); encode (SysClose.new 4)] /\
  freed (sw s_end) = [(1%positive, 3); (2%positive, 4)] /\ inners (sw s_end) = ∅.
Proof. split; [vm_eq|split; vm_eq]. Qed.

(** ** Witnesses *)

Lemma mutual_exclusion_witness : (length (holders 1 (threads c_second)) <= 1)%nat.
Proof.
  apply (mutual_exclusion tframe ops_same w_two c_second 1).
  apply (crun_creachable _ _ _ [0; 0; 0; 0; 0; 1; 1; 1]%nat). vm_eq.
Defined.

Lemma no_deadlock_witness : exists c', cstep tframe c_mid c'.
Proof.
  apply (no_deadlock tframe ops_two w_two c_mid).
  - apply (crun_creachable _ _ _ [0; 1; 1]%nat). vm_eq.
  - apply (Forall_forall (fun o => is_Some (inners w_two !! op_handle o))). decide_by_vm.
  - intros t o p. rewrite c_mid_threads. destruct t as [|[|t]]; cbn; discriminate.
  - exists 0%nat. eexists. split; [vm_eq|reflexivity].
Defined.

Lemma linearizable_witness :
  porder c_lin ≡ₚ seq 0 (length ops_two) /\
  exists rs, run_calls ops_two tframe (porder c_lin) w_two = Done (rs, cworld c_lin) /\
    Forall2 (fun t r => exists o, threads c_lin !! t = Some (TDone o r)) (porder c_lin) rs.
Proof.
  apply (linearizable tframe tframe ops_two w_two).
  - discriminate.
  - intros [|[|t]] Ht; [reflexivity|reflexivity|cbn in Ht; lia].
  - intros [|[|t]] Ht; [reflexivity|reflexivity|cbn in Ht; lia].
  - intros t u x Ht Hu Htu. cbn in Ht, Hu. unfold range, FRAME_SIZE, tframe, FRAME.
    destruct t as [|[|t]], u as [|[|u]]; lia.
  - intros [|[|t]] o Ho; cbn in Ho; try discriminate; injection Ho as <-; reflexivity.
  - intros [|[|t]] o x u Ho Hu Hx; cbn in Ho, Hu; try discriminate; injection Ho as <-;
      cbn in Hx; unfold range, FRAME_SIZE, tframe, FRAME, BUF in *; lia.
  - intros p ic Hp.
    assert (Hall : map_Forall (fun _ ic => i32_ok (ic_fd ic) = true) (inners w_two)) by decide_by_vm.
    exact (Hall p ic Hp).
  - apply (crun_creachable _ _ _ [0; 1; 1; 1; 0; 0; 1; 0; 1; 0]%nat). vm_eq.
  - intros t s Hs. rewrite c_lin_threads in Hs.
    destruct t as [|[|t]]; cbn in Hs; try discriminate; injection Hs as <-; eexists; reflexivity.
Defined.

Lemma no_use_after_free_witness :
  shalt s_mid <> Some InvalidReference /\
  forall t th p, sts s_mid !! t = Some th -> p ∈ own th ->
    exists ic, inners (sw s_mid) !! p = Some ic /\ (0 < ic_strong ic)%nat.
Proof.
  apply (no_use_after_free tframe w_shared ts_shared); [sinit_by_vm|].
  apply srun_from_reach. vm_eq.
Defined.

Lemma close_at_most_once_witness :
  exists fr, freed (sw s_closed) = freed w_shared ++ fr /\
    NoDup (fr ++ gather freeing_of (sts s_closed)).*1 /\
    Forall (fun pf => ic_fd <$> inners w_shared !! pf.1 = Some pf.2) (fr ++ gather freeing_of (sts s_closed)) /\
    closes (trace (sw s_closed)) ≡ₚ closes (trace w_shared) ++ (close_req <$> (fr ++ gather freeing_of (sts s_closed))).
Proof.
  apply (close_at_most_once tframe w_shared ts_shared); [sinit_by_vm|].
  apply srun_from_reach. vm_eq.
Defined.

Lemma complete_closes_all_witness :
  inners (sw s_end) = ∅ /\
  exists fr, freed (sw s_end) = freed w_shared ++ fr /\ fr.*1 ≡ₚ elements (dom (inners w_shared)) /\
    closes (trace (sw s_end)) ≡ₚ closes (trace w_shared) ++ (close_req <$> fr).
Proof.
  apply (complete_closes_all tframe w_shared ts_shared); [sinit_by_vm| |decide_by_vm].
  apply srun_from_reach. vm_eq.
Defined.


Lemma port_order_follows_lock_witness :
  last (handle_order ops_same 1 (porder c_second)) = Some 1%nat.
Proof.
  apply (port_order_follows_lock tframe ops_same w_two c_second 1 (TServed (OLseek 1 9 Set_) 3)).
  - apply (crun_creachable _ _ _ [0; 0; 0; 0; 0; 1; 1; 1]%nat). vm_eq.
  - vm_eq.
  - reflexivity.
  - reflexivity.
Defined.
